(** * AutoGenerator: path model, text codec and simulator

    A shallow embedding of the JavaScript sources of the path editor
    (core state and event handlers, the two code generators, the code
    reverser and the simulator), followed by the properties its
    specification states about them.

    Numbers.  A JavaScript number is modelled as an exact rational [Q]:
    every finite double is a rational, and [+], [-], [*], [/] are taken
    without rounding, except where the outcome turns on the rounding (the
    numbers of the field-oriented text, the loop over [t += 0.05]): there
    it is written out with [fl].  [NaN] and the infinities have no
    counterpart, and a
    place where the source can produce one is written out as a case.
    [===] on numbers is [Qeq_bool].  The transcendental functions of the
    host's [Math] object are not code of the repository: they are the
    fields of the class [Host].

    Text.  Strings are [string]s of ASCII characters; a regular expression
    of the source is a value of [regex], run by the backtracking matcher
    [rmatch], which tries alternatives in the order ECMAScript does. *)

From Stdlib Require Import QArith Qabs Qround Qpower ZArith Lia Lqa Bool.
From Stdlib Require Import Ascii String.
From stdpp Require Import base list strings.

Local Open Scope Q_scope.

(** ** Numbers *)

Definition Qltb (a b : Q) : bool := negb (Qle_bool b a).
Definition Qgtb (a b : Q) : bool := Qltb b a.
Definition Qneb (a b : Q) : bool := negb (Qeq_bool a b).

(** [while (cond) body], run for at most [fuel] iterations. *)
Fixpoint while {A : Type} (fuel : nat) (cond : A -> bool) (body : A -> A) (a : A) : A :=
  match fuel with
  | O => a
  | S fuel' => if cond a then while fuel' cond body (body a) else a
  end.

(** A number of iterations that is enough for either loop of [wrapDeg]
    (lemmas [while_down] and [while_up]). *)
Definition wrapFuel (d : Q) : nat := S (Z.to_nat (Qfloor (Qabs d / 360))).

(** [function wrapDeg(d) { while (d > 180) d -= 360; while (d < -180) d += 360; return d; }]
    The two loops, with [d - 360] and [d + 360] taken without rounding. *)
Definition wrapDeg (d : Q) : Q :=
  let d1 := while (wrapFuel d) (fun d => Qgtb d 180) (fun d => d - 360) d in
  while (wrapFuel d1) (fun d => Qltb d (-180)) (fun d => d + 360) d1.

(** The magnitudes up to 2^53, on which [wrapDeg] is what the source
    computes: a double [d] beyond 180 in magnitude and below 2^56 is a
    multiple of a power of two that divides 8, so [d - 360] and [d + 360]
    are doubles again and every iteration is exact.  From 2^56 on the
    subtraction rounds, and from about 2^62 it returns [d] itself: the
    loop of the source never ends there. *)
Definition exactDeg (d : Q) : Prop := Qabs d <= 9007199254740992.

(** [Math.PI], the double nearest to pi: 884279719003555 / 2^48. *)
Definition Math_PI : Q := 884279719003555 # 281474976710656.

(** [function radToDeg(r) { return r * 180 / Math.PI; }] *)
Definition radToDeg (r : Q) : Q := r * 180 / Math_PI.

(** [function degToRad(d) { return d * Math.PI / 180; }] *)
Definition degToRad (d : Q) : Q := d * Math_PI / 180.

(** [Math.round]: the nearest integer, a tie going towards plus infinity. *)
Definition Math_round (x : Q) : Z := Qfloor (x + (1 # 2)).

Definition Math_abs (x : Q) : Q := Qabs x.

Definition Math_min (a b : Q) : Q := if Qle_bool a b then a else b.

Definition Math_sign (x : Q) : Q :=
  if Qltb 0 x then 1 else if Qltb x 0 then -1 else 0.

(** [Math.ceil]. *)
Definition Math_ceil (x : Q) : Z := Qceiling x.

(** ** Rounding

    Where a text or a count depends on the last bit of a sum, a product or
    a quotient (the digit [toFixed] prints, the integer [Math.round]
    returns, the number of passes of a loop over [t += 0.05]), the rounding
    of the double arithmetic is written out.  [fl q] is the double nearest
    to [q], a tie going to the even significand: 53 bits, the exponents
    from that of the subnormal doubles on.  Magnitudes beyond the largest
    double, which round to an infinity, are not in the model. *)

(** The nearest integer, a tie going to the even one. *)
Definition roundEven (q : Q) : Z :=
  let f := Qfloor q in
  match Qcompare (q - inject_Z f) (1 # 2) with
  | Lt => f
  | Gt => (f + 1)%Z
  | Eq => if Z.even f then f else (f + 1)%Z
  end.

(** The exponent [e] with [2^e <= |q| < 2^(e+1)], for [q] other than 0: the
    binary logarithms of numerator and denominator give it up to one. *)
Definition binade (q : Q) : Z :=
  let e0 := (Z.log2 (Z.abs (Qnum q)) - Z.log2 (Zpos (Qden q)))%Z in
  if Qle_bool (2 ^ e0) (Qabs q) then e0 else (e0 - 1)%Z.

(** The spacing of the doubles around [q]. *)
Definition ulp (q : Q) : Q := 2 ^ (Z.max (binade q) (-1022) - 52).

Definition fl (q : Q) : Q :=
  if Qeq_bool q 0 then 0
  else Qred (inject_Z (roundEven (q / ulp q)) * ulp q).

(** The literal [0.05] is the double nearest to it. *)
Definition double_0_05 : Q := Eval vm_compute in fl (5 # 100).

(** [r * 180 / Math.PI] in doubles: the product is rounded, then the
    quotient. *)
Definition radToDeg_fl (r : Q) : Q := fl (fl (r * 180) / Math_PI).

(** The functions of the host that the sources call and that are not
    rational: each maps doubles to doubles, hence rationals to rationals.
    [Number_toString_exp] is the text of a number of magnitude 1e21 or more
    (exponential notation), which [toFixed] and template literals fall back
    to. *)
Class Host := {
  Math_sqrt : Q -> Q;
  Math_hypot : Q -> Q -> Q;
  Math_atan2 : Q -> Q -> Q;
  Math_cos : Q -> Q;
  Math_sin : Q -> Q;
  Number_toString_exp : Q -> string
}.

(** ** Strings *)

Definition is_digit (c : ascii) : bool :=
  let n := nat_of_ascii c in (48 <=? n)%nat && (n <=? 57)%nat.

(** White space as [\s] and [trim] see it, on ASCII text. *)
Definition is_white (c : ascii) : bool :=
  let n := nat_of_ascii c in
  ((9 <=? n)%nat && (n <=? 13)%nat) || (n =? 32)%nat.

(** The characters [.] matches: all but the line terminators. *)
Definition is_dot (c : ascii) : bool :=
  let n := nat_of_ascii c in negb ((n =? 10)%nat || (n =? 13)%nat).

Definition newline : string := String (ascii_of_nat 10) EmptyString.

Definition digitChar (d : Z) : ascii := ascii_of_nat (48 + Z.to_nat d).

Definition digitVal (c : ascii) : Z := Z.of_nat (nat_of_ascii c - 48).

Fixpoint digitsAcc (fuel : nat) (n : Z) (acc : string) : string :=
  match fuel with
  | O => acc
  | S fuel' =>
      let acc' := String (digitChar (n mod 10)) acc in
      if (n <? 10)%Z then acc' else digitsAcc fuel' (n / 10) acc'
  end.

(** The decimal digits of a natural number, without leading zeros. *)
Definition digits (n : Z) : string :=
  digitsAcc (S (Z.to_nat (Z.log2 n))) n EmptyString.

(** The last [f] decimal digits of [n], zero-padded. *)
Fixpoint lastDigits (f : nat) (n : Z) (acc : string) : string :=
  match f with
  | O => acc
  | S f' => lastDigits f' (n / 10) (String (digitChar (n mod 10)) acc)
  end.

Definition big : Q := inject_Z (10 ^ 21).

Section Text.
Context `{Host}.

(** A template literal [${n}] of an integral number. *)
Definition showInt (n : Z) : string :=
  if Qle_bool big (Qabs (inject_Z n)) then Number_toString_exp (inject_Z n)
  else if (n <? 0)%Z then "-" +:+ digits (- n) else digits n.

(** [x.toFixed(f)] (ECMAScript, Number.prototype.toFixed): the integer [n]
    for which [n / 10^f - |x|] is closest to zero, the larger one on a tie,
    printed with [f] fractional digits and the sign of [x]. *)
Definition toFixed (f : nat) (x : Q) : string :=
  if Qle_bool big (Qabs x) then Number_toString_exp x
  else
    let n := Qfloor (Qabs x * inject_Z (10 ^ Z.of_nat f) + (1 # 2)) in
    let a := digits (n / 10 ^ Z.of_nat f) in
    let m := match f with
             | O => a
             | _ => a +:+ "." +:+ lastDigits f n EmptyString
             end in
    if Qltb x 0 then "-" +:+ m else m.

End Text.

Fixpoint readDigits (s : string) (acc : Z) (cnt : nat) : Z * nat * string :=
  match s with
  | String c s' =>
      if is_digit c then readDigits s' (acc * 10 + digitVal c) (S cnt)
      else (acc, cnt, s)
  | EmptyString => (acc, cnt, s)
  end.

Fixpoint trimStart (s : string) : string :=
  match s with
  | String c s' => if is_white c then trimStart s' else s
  | EmptyString => s
  end.

Fixpoint trimEnd (s : string) : string :=
  match s with
  | String c s' =>
      match trimEnd s' with
      | EmptyString => if is_white c then EmptyString else String c EmptyString
      | t => String c t
      end
  | EmptyString => s
  end.

Definition trim (s : string) : string := trimEnd (trimStart s).

(** [parseFloat] on decimal literals [[+-]digits[.digits]] after leading
    white space; [None] is [NaN].  Exponents and [Infinity] are not read:
    no argument the sources pass can contain them. *)
Definition parseFloat (s : string) : option Q :=
  let s0 := trimStart s in
  let '(neg, s1) :=
    match s0 with
    | String "-" r => (true, r)
    | String "+" r => (false, r)
    | _ => (false, s0)
    end in
  let '(ip, ic, s2) := readDigits s1 0%Z 0%nat in
  let '(fp, fc, _) :=
    match s2 with
    | String "." r => readDigits r 0%Z 0%nat
    | _ => (0%Z, 0%nat, s2)
    end in
  if ((ic =? 0) && (fc =? 0))%nat then None
  else
    let v := inject_Z ip + inject_Z fp / inject_Z (10 ^ Z.of_nat fc) in
    Some (if neg then - v else v).

(** The value of a [parseFloat] whose argument is a capture of
    [-?\d+\.?\d*]: it is never [NaN] (lemma [parseFloat_number]). *)
Definition num (o : option Q) : Q := default 0 o.

(** [s.includes(sub)]. *)
Fixpoint includes (s sub : string) : bool :=
  if String.prefix sub s then true
  else match s with
       | String _ s' => includes s' sub
       | EmptyString => false
       end.

Definition startsWith (s pre : string) : bool := String.prefix pre s.

(** [s.split('\n')]. *)
Fixpoint splitLines (s : string) : list string :=
  match s with
  | EmptyString => [EmptyString]
  | String c s' =>
      if Ascii.eqb c (ascii_of_nat 10) then EmptyString :: splitLines s'
      else match splitLines s' with
           | l :: ls => String c l :: ls
           | [] => [String c EmptyString]
           end
  end.

(** [lines.join("\n")]. *)
Fixpoint joinLines (l : list string) : string :=
  match l with
  | [] => EmptyString
  | [a] => a
  | a :: l' => a +:+ newline +:+ joinLines l'
  end.

(** ** Regular expressions *)

Inductive regex : Type :=
  | RChar (c : ascii)
  | RClass (p : ascii -> bool)
  | REps
  | RSeq (r1 r2 : regex)
  | RAlt (r1 r2 : regex)
  | RStar (p : ascii -> bool)        (* [c*], greedy, on a character class *)
  | RLazy (p : ascii -> bool)        (* [c*?] *)
  | RGroup (n : nat) (r : regex).    (* capture group number [n] *)

Fixpoint RStr (s : string) : regex :=
  match s with
  | EmptyString => REps
  | String c s' => RSeq (RChar c) (RStr s')
  end.

Definition RPlus (p : ascii -> bool) : regex := RSeq (RClass p) (RStar p).
Definition ROpt (r : regex) : regex := RAlt r REps.

Fixpoint RCat (l : list regex) : regex :=
  match l with
  | [] => REps
  | [r] => r
  | r :: l' => RSeq r (RCat l')
  end.

(** The captures of a match: entry [n] is group [n], [None] when the group
    did not take part. *)
Definition captures : Type := list (option string).

Definition noCaptures : captures := replicate 5 None.

Definition capture (c : captures) (n : nat) : option string :=
  match c !! n with Some o => o | None => None end.

(** What was consumed between [s] and its suffix [s']. *)
Definition consumed (s s' : string) : string :=
  substring 0 (String.length s - String.length s') s.

Section Matcher.
Context {A : Type}.

Fixpoint starGreedy (p : ascii -> bool) (s : string) (k : string -> option A) : option A :=
  match s with
  | String c s' =>
      if p c then
        match starGreedy p s' k with
        | Some a => Some a
        | None => k s
        end
      else k s
  | EmptyString => k s
  end.

Fixpoint starLazy (p : ascii -> bool) (s : string) (k : string -> option A) : option A :=
  match k s with
  | Some a => Some a
  | None =>
      match s with
      | String c s' => if p c then starLazy p s' k else None
      | EmptyString => None
      end
  end.

(** The matcher of [r] at the start of [s], continuation [k] being the rest
    of the pattern: the first success in ECMAScript's order of choices. *)
Fixpoint rmatch (r : regex) (s : string) (c : captures)
    (k : string -> captures -> option A) : option A :=
  match r with
  | RChar a =>
      match s with
      | String b s' => if Ascii.eqb a b then k s' c else None
      | EmptyString => None
      end
  | RClass p =>
      match s with
      | String b s' => if p b then k s' c else None
      | EmptyString => None
      end
  | REps => k s c
  | RSeq r1 r2 => rmatch r1 s c (fun s' c' => rmatch r2 s' c' k)
  | RAlt r1 r2 =>
      match rmatch r1 s c k with
      | Some a => Some a
      | None => rmatch r2 s c k
      end
  | RStar p => starGreedy p s (fun s' => k s' c)
  | RLazy p => starLazy p s (fun s' => k s' c)
  | RGroup n r1 =>
      rmatch r1 s c (fun s' c' => k s' (<[n := Some (consumed s s')]> c'))
  end.

End Matcher.

(** A match of [r] at the start of [s]: the captures and what follows. *)
Definition matchHere (r : regex) (s : string) : option (captures * string) :=
  rmatch r s noCaptures (fun s' c => Some (c, s')).

(** The leftmost match of [r] in [s] ([s.match(r)], [r.exec(s)]). *)
Fixpoint rsearch (r : regex) (s : string) : option (captures * string) :=
  match matchHere r s with
  | Some m => Some m
  | None =>
      match s with
      | String _ s' => rsearch r s'
      | EmptyString => None
      end
  end.

(** The successive matches of a [/g] expression, [lastIndex] advancing
    past each; every match of the expressions below is non-empty, so
    [String.length s] iterations are enough. *)
Fixpoint execAll (fuel : nat) (r : regex) (s : string) : list captures :=
  match fuel with
  | O => []
  | S fuel' =>
      match rsearch r s with
      | Some (c, rest) => c :: execAll fuel' r rest
      | None => []
      end
  end.

Definition matchAll (r : regex) (s : string) : list captures :=
  execAll (S (String.length s)) r s.

(** [-?\d+\.?\d*] *)
Definition reNumber : regex :=
  RCat [ROpt (RChar "-"); RPlus is_digit; ROpt (RChar "."); RStar is_digit].

Definition ws : regex := RStar is_white.

(** ** Data model *)

Record point : Type := Point { px : Q; py : Q }.

(** [start = { x, y, h }] *)
Record pose : Type := Pose { x : Q; y : Q; h : Q }.

Inductive segType : Type := drive | strafe | arc.

(** The [arcControlPoint] property of a waypoint: not there (never set, or
    deleted), [null], or a point.  Only a point is truthy. *)
Inductive ctrl : Type :=
  | absent
  | null
  | ctrlAt (p : point).

(** A waypoint object.  A motion waypoint is created as
    [{ x, y, h, segmentType, arcSpeed }], an action waypoint as
    [{ x, y, h, isAction: true, actionId }]; a property an object does not
    have is [None] ([false] for [isAction]). *)
Record waypoint : Type := Waypoint {
  wx : Q;
  wy : Q;
  wh : Q;
  segmentType : option segType;
  arcSpeed : option Q;
  arcControlPoint : ctrl;
  isAction : bool;
  actionId : option nat
}.

Record marker : Type := Marker {
  id : nat;
  mx : Q;
  my : Q;
  name : string;
  args : string
}.

(** An entry of [history]. *)
Record snapshot : Type := Snapshot {
  snap_waypoints : list waypoint;
  snap_markers : list marker;
  snap_start : pose;
  snap_selectedSegmentIdx : option nat
}.

Inductive mode : Type := robot | field.

(** The globals of the page that the path engine reads or writes.  The
    drag indices, the two click-mode flags and the canvas geometry only
    serve pointer dispatch and are left out: a handler below takes the
    waypoint or marker the pointer hit, and positions in metres.  [output]
    is the text of the code panel, [alerts] the messages shown so far. *)
Record state : Type := State {
  history : list snapshot;
  waypoints : list waypoint;
  markers : list marker;
  nextMarkerId : nat;
  start : pose;
  selectedSegmentIdx : option nat;
  currentMode : mode;
  isSimulating : bool;
  simSpeed : Q;
  arcSamples : Z;
  output : string;
  alerts : list string
}.

Definition initialState : state :=
  {| history := []; waypoints := []; markers := []; nextMarkerId := 1;
     start := Pose 0 0 0; selectedSegmentIdx := None; currentMode := robot;
     isSimulating := false; simSpeed := 1; arcSamples := 5;
     output := EmptyString; alerts := [] |}.

Definition set_history (f : list snapshot -> list snapshot) (s : state) : state :=
  {| history := f (history s); waypoints := waypoints s; markers := markers s;
     nextMarkerId := nextMarkerId s; start := start s;
     selectedSegmentIdx := selectedSegmentIdx s; currentMode := currentMode s;
     isSimulating := isSimulating s; simSpeed := simSpeed s;
     arcSamples := arcSamples s; output := output s; alerts := alerts s |}.

Definition set_waypoints (f : list waypoint -> list waypoint) (s : state) : state :=
  {| history := history s; waypoints := f (waypoints s); markers := markers s;
     nextMarkerId := nextMarkerId s; start := start s;
     selectedSegmentIdx := selectedSegmentIdx s; currentMode := currentMode s;
     isSimulating := isSimulating s; simSpeed := simSpeed s;
     arcSamples := arcSamples s; output := output s; alerts := alerts s |}.

Definition set_markers (f : list marker -> list marker) (s : state) : state :=
  {| history := history s; waypoints := waypoints s; markers := f (markers s);
     nextMarkerId := nextMarkerId s; start := start s;
     selectedSegmentIdx := selectedSegmentIdx s; currentMode := currentMode s;
     isSimulating := isSimulating s; simSpeed := simSpeed s;
     arcSamples := arcSamples s; output := output s; alerts := alerts s |}.

Definition set_nextMarkerId (n : nat) (s : state) : state :=
  {| history := history s; waypoints := waypoints s; markers := markers s;
     nextMarkerId := n; start := start s;
     selectedSegmentIdx := selectedSegmentIdx s; currentMode := currentMode s;
     isSimulating := isSimulating s; simSpeed := simSpeed s;
     arcSamples := arcSamples s; output := output s; alerts := alerts s |}.

Definition set_start (p : pose) (s : state) : state :=
  {| history := history s; waypoints := waypoints s; markers := markers s;
     nextMarkerId := nextMarkerId s; start := p;
     selectedSegmentIdx := selectedSegmentIdx s; currentMode := currentMode s;
     isSimulating := isSimulating s; simSpeed := simSpeed s;
     arcSamples := arcSamples s; output := output s; alerts := alerts s |}.

Definition set_selectedSegmentIdx (i : option nat) (s : state) : state :=
  {| history := history s; waypoints := waypoints s; markers := markers s;
     nextMarkerId := nextMarkerId s; start := start s;
     selectedSegmentIdx := i; currentMode := currentMode s;
     isSimulating := isSimulating s; simSpeed := simSpeed s;
     arcSamples := arcSamples s; output := output s; alerts := alerts s |}.

Definition set_currentMode (m : mode) (s : state) : state :=
  {| history := history s; waypoints := waypoints s; markers := markers s;
     nextMarkerId := nextMarkerId s; start := start s;
     selectedSegmentIdx := selectedSegmentIdx s; currentMode := m;
     isSimulating := isSimulating s; simSpeed := simSpeed s;
     arcSamples := arcSamples s; output := output s; alerts := alerts s |}.

Definition set_isSimulating (b : bool) (s : state) : state :=
  {| history := history s; waypoints := waypoints s; markers := markers s;
     nextMarkerId := nextMarkerId s; start := start s;
     selectedSegmentIdx := selectedSegmentIdx s; currentMode := currentMode s;
     isSimulating := b; simSpeed := simSpeed s;
     arcSamples := arcSamples s; output := output s; alerts := alerts s |}.

Definition set_simSpeed (v : Q) (s : state) : state :=
  {| history := history s; waypoints := waypoints s; markers := markers s;
     nextMarkerId := nextMarkerId s; start := start s;
     selectedSegmentIdx := selectedSegmentIdx s; currentMode := currentMode s;
     isSimulating := isSimulating s; simSpeed := v;
     arcSamples := arcSamples s; output := output s; alerts := alerts s |}.

Definition set_arcSamples (n : Z) (s : state) : state :=
  {| history := history s; waypoints := waypoints s; markers := markers s;
     nextMarkerId := nextMarkerId s; start := start s;
     selectedSegmentIdx := selectedSegmentIdx s; currentMode := currentMode s;
     isSimulating := isSimulating s; simSpeed := simSpeed s;
     arcSamples := n; output := output s; alerts := alerts s |}.

Definition set_output (t : string) (s : state) : state :=
  {| history := history s; waypoints := waypoints s; markers := markers s;
     nextMarkerId := nextMarkerId s; start := start s;
     selectedSegmentIdx := selectedSegmentIdx s; currentMode := currentMode s;
     isSimulating := isSimulating s; simSpeed := simSpeed s;
     arcSamples := arcSamples s; output := t; alerts := alerts s |}.

(** [alert(msg)] *)
Definition alert (msg : string) (s : state) : state :=
  {| history := history s; waypoints := waypoints s; markers := markers s;
     nextMarkerId := nextMarkerId s; start := start s;
     selectedSegmentIdx := selectedSegmentIdx s; currentMode := currentMode s;
     isSimulating := isSimulating s; simSpeed := simSpeed s;
     arcSamples := arcSamples s; output := output s; alerts := alerts s ++ [msg] |}.

(** Field updates of a waypoint object. *)
Definition wp_set_xy (nx ny : Q) (w : waypoint) : waypoint :=
  {| wx := nx; wy := ny; wh := wh w; segmentType := segmentType w;
     arcSpeed := arcSpeed w; arcControlPoint := arcControlPoint w;
     isAction := isAction w; actionId := actionId w |}.

Definition wp_set_h (nh : Q) (w : waypoint) : waypoint :=
  {| wx := wx w; wy := wy w; wh := nh; segmentType := segmentType w;
     arcSpeed := arcSpeed w; arcControlPoint := arcControlPoint w;
     isAction := isAction w; actionId := actionId w |}.

Definition wp_set_segmentType (t : segType) (w : waypoint) : waypoint :=
  {| wx := wx w; wy := wy w; wh := wh w; segmentType := Some t;
     arcSpeed := arcSpeed w; arcControlPoint := arcControlPoint w;
     isAction := isAction w; actionId := actionId w |}.

Definition wp_set_arcSpeed (v : Q) (w : waypoint) : waypoint :=
  {| wx := wx w; wy := wy w; wh := wh w; segmentType := segmentType w;
     arcSpeed := Some v; arcControlPoint := arcControlPoint w;
     isAction := isAction w; actionId := actionId w |}.

Definition wp_set_arcControlPoint (c : ctrl) (w : waypoint) : waypoint :=
  {| wx := wx w; wy := wy w; wh := wh w; segmentType := segmentType w;
     arcSpeed := arcSpeed w; arcControlPoint := c;
     isAction := isAction w; actionId := actionId w |}.

(** [{ x, y, h, segmentType, arcSpeed }] *)
Definition motionWaypoint (nx ny nh : Q) (t : segType) (v : Q) : waypoint :=
  {| wx := nx; wy := ny; wh := nh; segmentType := Some t; arcSpeed := Some v;
     arcControlPoint := absent; isAction := false; actionId := None |}.

(** [{ x, y, h: 0, isAction: true, actionId }] *)
Definition actionWaypoint (nx ny : Q) (i : nat) : waypoint :=
  {| wx := nx; wy := ny; wh := 0; segmentType := None; arcSpeed := None;
     arcControlPoint := absent; isAction := true; actionId := Some i |}.

Definition posePoint (p : pose) : point := Point (x p) (y p).
Definition wpPoint (w : waypoint) : point := Point (wx w) (wy w).

(** Truthiness of the [arcControlPoint] property. *)
Definition hasControl (w : waypoint) : bool :=
  match arcControlPoint w with ctrlAt _ => true | _ => false end.

(** [b.segmentType || 'drive'] *)
Definition segmentTypeOr (w : waypoint) : segType := default drive (segmentType w).

Definition isArc (w : waypoint) : bool :=
  match segmentType w with Some arc => true | _ => false end.

(** [markers.find(m => m.id === i)] *)
Definition findMarker (ms : list marker) (i : nat) : option marker :=
  List.find (fun m => (id m =? i)%nat) ms.

(** ** Geometry kernel *)

Section Geometry.
Context `{Host}.

(** [function computeDefaultArcControl(prevWp, p)] *)
Definition computeDefaultArcControl (prevWp p : point) : point :=
  let startX := px prevWp in
  let startY := py prevWp in
  let endX := px p in
  let endY := py p in
  let dx := endX - startX in
  let dy := endY - startY in
  let dist := Math_hypot dx dy in
  if Qltb dist (1 # 1000000) then
    Point ((startX + endX) / 2) ((startY + endY) / 2)
  else
    let segAngle := Math_atan2 dy dx in
    let perpAngle := segAngle + Math_PI / 2 in
    let controlDist := dist * (3 # 10) in
    let midX := (startX + endX) / 2 in
    let midY := (startY + endY) / 2 in
    Point (midX + Math_cos perpAngle * controlDist)
          (midY + Math_sin perpAngle * controlDist).

(** [pts.filter((p, i, a) => i === 0 || Math.hypot(p.x - a[i-1].x, p.y - a[i-1].y) > 1e-6)]:
    the predecessor is the one in the unfiltered array. *)
Fixpoint dropRepeatsFrom (prev : point) (l : list point) : list point :=
  match l with
  | [] => []
  | p :: l' =>
      let rest := dropRepeatsFrom p l' in
      if Qgtb (Math_hypot (px p - px prev) (py p - py prev)) (1 # 1000000)
      then p :: rest else rest
  end.

Definition dropRepeats (l : list point) : list point :=
  match l with
  | [] => []
  | p :: l' => p :: dropRepeatsFrom p l'
  end.

(** The body of one smoothing pass over the pairs [pts[i], pts[i+1]]. *)
Fixpoint cutCorners (l : list point) : list point :=
  match l with
  | p0 :: ((p1 :: _) as l') =>
      Point ((3 # 4) * px p0 + (1 # 4) * px p1) ((3 # 4) * py p0 + (1 # 4) * py p1)
      :: Point ((1 # 4) * px p0 + (3 # 4) * px p1) ((1 # 4) * py p0 + (3 # 4) * py p1)
      :: cutCorners l'
  | _ => []
  end.

(** One iteration of the [for (iter ...)] loop; [pts] is not empty. *)
Definition smoothPass (pts : list point) : list point :=
  match pts with
  | [] => []
  | p :: _ => p :: cutCorners pts ++ [List.last pts p]
  end.

(** [function computeFieldPath()] *)
Definition computeFieldPath (s : state) : list point :=
  let pts := posePoint (start s)
             :: map wpPoint (List.filter (fun wp => negb (isAction wp)) (waypoints s)) in
  if (length pts <? 2)%nat then []
  else dropRepeats (smoothPass (smoothPass pts)).

(** The quadratic Bezier of [simulate], [function bezierPoint(t, p0x, ...)]. *)
Definition bezierPoint (t p0x p0y p1x p1y p2x p2y : Q) : point :=
  let mt := 1 - t in
  Point (mt * mt * p0x + 2 * mt * t * p1x + t * t * p2x)
        (mt * mt * p0y + 2 * mt * t * p1y + t * t * p2y).

End Geometry.

(** ** Code generators *)

Definition nl : string := newline.
Definition dquote : string := String (ascii_of_nat 34) EmptyString.

Section Generators.
Context `{Host}.

(** [function displayCodeOutput(code)]: the text of the code panel. *)
Definition displayCodeOutput (code : string) (s : state) : state :=
  set_output code s.

(** *** Field-oriented

    The numbers of this text are printed with one decimal, or rounded to an
    integer, right after they are computed: the products and quotients are
    those of the doubles ([fl]). *)

(** [`    waypoints.add(new Pose2d(${cmX}, ${cmY}, Rotation2d.fromDegrees(${deg})));\n`] *)
Definition poseLine (cmX cmY deg : string) : string :=
  "    waypoints.add(new Pose2d(" +:+ cmX +:+ ", " +:+ cmY
    +:+ ", Rotation2d.fromDegrees(" +:+ deg +:+ ")));" +:+ nl.

(** The first [waypoints.forEach], over the waypoints that are not actions. *)
Fixpoint fieldPoseLines (wps : list waypoint) : string :=
  match wps with
  | [] => EmptyString
  | wp :: rest =>
      (if negb (isAction wp) then
         let cmX := toFixed 1 (fl (wx wp * 100)) in
         let cmY := toFixed 1 (fl (wy wp * 100)) in
         let deg := Math_round (radToDeg_fl (- wh wp)) in
         poseLine cmX cmY (showInt deg)
       else EmptyString) +:+ fieldPoseLines rest
  end.

(** [((currentWaypointIndex / totalWaypoints) * 100).toFixed(1)]; with no
    real waypoint the quotient is 0/0. *)
Definition percentText (currentWaypointIndex totalWaypoints : nat) : string :=
  if (totalWaypoints =? 0)%nat then "NaN"
  else toFixed 1 (fl (fl (inject_Z (Z.of_nat currentWaypointIndex)
                          / inject_Z (Z.of_nat totalWaypoints)) * 100)).

(** The second [waypoints.forEach], [currentWaypointIndex] counting the real
    waypoints passed so far. *)
Fixpoint fieldMarkerLines (ms : list marker) (totalWaypoints : nat)
    (currentWaypointIndex : nat) (wps : list waypoint) : string :=
  match wps with
  | [] => EmptyString
  | wp :: rest =>
      if negb (isAction wp) then
        fieldMarkerLines ms totalWaypoints (S currentWaypointIndex) rest
      else
        (match actionId wp with
         | Some i =>
             match findMarker ms i with
             | Some m =>
                 let percent := percentText currentWaypointIndex totalWaypoints in
                 "    markers.add(new PathMarker(" +:+ percent +:+ ", () -> {" +:+ nl
                 +:+ "        telemetry.addData(" +:+ dquote +:+ "Marker" +:+ dquote
                 +:+ ", " +:+ dquote +:+ percent +:+ "% - " +:+ name m +:+ dquote
                 +:+ ");" +:+ nl
                 +:+ "        telemetry.update();" +:+ nl
                 +:+ "    }));" +:+ nl +:+ nl
             | None => EmptyString
             end
         | None => EmptyString
         end) +:+ fieldMarkerLines ms totalWaypoints currentWaypointIndex rest
  end.

Definition fieldHeader : string :=
  "private List<Pose2d> createPath() {" +:+ nl
  +:+ "    List<Pose2d> waypoints = new ArrayList<>();" +:+ nl +:+ nl
  +:+ "    // Start pose" +:+ nl.

Definition fieldPathEnd : string :=
  nl +:+ "    return waypoints;" +:+ nl +:+ "}" +:+ nl +:+ nl.

Definition fieldNoMarkers : string :=
  "private List<PathMarker> createMarkers() {" +:+ nl
  +:+ "    return new ArrayList<>();" +:+ nl
  +:+ "}" +:+ nl.

(** The text [generateFieldOrientedCode] builds in [code]. *)
Definition fieldOrientedText (s : state) : string :=
  let startCmX := toFixed 1 (fl (x (start s) * 100)) in
  let startCmY := toFixed 1 (fl (y (start s) * 100)) in
  let startDeg := Math_round (radToDeg_fl (- h (start s))) in
  fieldHeader
  +:+ poseLine startCmX startCmY (showInt startDeg) +:+ nl
  +:+ fieldPoseLines (waypoints s)
  +:+ fieldPathEnd
  +:+ (if existsb isAction (waypoints s) then
         let totalWaypoints :=
           length (List.filter (fun wp => negb (isAction wp)) (waypoints s)) in
         "private List<PathMarker> createMarkers() {" +:+ nl
         +:+ "    List<PathMarker> markers = new ArrayList<>();" +:+ nl +:+ nl
         +:+ fieldMarkerLines (markers s) totalWaypoints 0 (waypoints s)
         +:+ "    return markers;" +:+ nl
         +:+ "}" +:+ nl
       else fieldNoMarkers).

(** [function generateFieldOrientedCode()] *)
Definition generateFieldOrientedCode (s : state) : state :=
  displayCodeOutput (fieldOrientedText s) s.

(** *** Robot-oriented *)

(** The statements the robot-oriented generator emits; [render] gives the
    text of each as the source appends it to [code]. *)
Inductive command : Type :=
  | turnPID (deg : Z) (note : string)
  | drivePID (dist : Q) (deg : Z)
  | strafePID (dist : Q) (deg : Z)
  | arcCommand (travelDist arcSpeed : Q) (startH : Z)
               (samples : list (Q * Z)) (endH : Z)
  | actionCall (name args : string).

Definition atLine (t h : string) : string :=
  "                .at(" +:+ t +:+ ", " +:+ h +:+ ")".

Definition render (c : command) : string :=
  match c with
  | turnPID deg note => "turnPID(" +:+ showInt deg +:+ ");" +:+ note +:+ nl
  | drivePID dist deg =>
      "drivePID(" +:+ toFixed 2 dist +:+ ", " +:+ showInt deg +:+ ");" +:+ nl
  | strafePID dist deg =>
      "strafePID(" +:+ toFixed 2 dist +:+ ", " +:+ showInt deg +:+ ");" +:+ nl
  | arcCommand travelDist speed startH samples endH =>
      joinLines
        (("arc(" +:+ toFixed 2 travelDist +:+ ", " +:+ toFixed 2 speed +:+ ", t -> t")
         :: atLine "0.0" (showInt startH)
         :: map (fun th => atLine (toFixed 2 (fst th)) (showInt (snd th))) samples
         ++ [atLine "1.0" (showInt endH); "        );"])
      +:+ nl
  | actionCall name args =>
      nl +:+ "// Action: " +:+ name +:+ nl
      +:+ (if (0 <? String.length args)%nat
           then name +:+ "(" +:+ args +:+ ");" +:+ nl
           else name +:+ "();" +:+ nl)
  end.

(** The chord sum [approxLen] of [for (let s = 1; s <= 10; s++)]. *)
Definition approxArcLength (P0 P1 P2 : point) : Q :=
  fst (fold_left
         (fun (acc : Q * point) (s : Z) =>
            let '(approxLen, lastPt) := acc in
            let t := inject_Z s / 10 in
            let mt := 1 - t in
            let bx := mt * mt * px P0 + 2 * mt * t * px P1 + t * t * px P2 in
            let by_ := mt * mt * py P0 + 2 * mt * t * py P1 + t * t * py P2 in
            (approxLen + Math_hypot (bx - px lastPt) (by_ - py lastPt), Point bx by_))
         (seqZ 1 10) (0, P0)).

(** The heading samples of [for (let s = 1; s < arcSamples; s++)]. *)
Definition arcHeadingSamples (samples : Z) (P0 P1 P2 : point) : list (Q * Z) :=
  map (fun s : Z =>
         let t := inject_Z s / inject_Z samples in
         let mt := 1 - t in
         let dx := 2 * mt * (px P1 - px P0) + 2 * t * (px P2 - px P1) in
         let dy := 2 * mt * (py P1 - py P0) + 2 * t * (py P2 - py P1) in
         let hd := radToDeg (Math_atan2 dy dx) in
         (t, Math_round hd))
      (seqZ 1 (samples - 1)).

(** [cur.arcSpeed || 0.8] *)
Definition arcSpeedOr (cur : waypoint) : Q :=
  match arcSpeed cur with
  | Some v => if Qeq_bool v 0 then 8 # 10 else v
  | None => 8 # 10
  end.

(** [cur.isAction && cur.actionId] *)
Definition actionIdOf (cur : waypoint) : option nat :=
  if isAction cur then
    match actionId cur with
    | Some O => None
    | o => o
    end
  else None.

(** One iteration of the [for (let i = 1; ...)] loop, for [prev = pts[i-1]]
    and [cur = pts[i]]: the statements appended to [code]. *)
Definition segmentCommands (samples : Z) (ms : list marker)
    (prev : point) (cur : waypoint) : list command :=
  let dx := wx cur - px prev in
  let dy := wy cur - py prev in
  let dist := Math_sqrt (dx * dx + dy * dy) in
  if Qltb dist (1 # 1000) then
    if Qgtb (Math_abs (wh cur)) (1 # 10000) then
      let wh_ := radToDeg (- wh cur) in
      [turnPID (Math_round wh_) " // snap to waypoint heading"]
    else []
  else
    let segAngleRad := Math_atan2 dy dx in
    let segAngleDeg := radToDeg segAngleRad in
    let segmentType_ := segmentTypeOr cur in
    let arcSpeed_ := arcSpeedOr cur in
    (match segmentType_ with
     | arc =>
         let startH := 0 in
         let endH := radToDeg (- wh cur) in
         let travelDist :=
           match arcControlPoint cur with
           | ctrlAt P1 => approxArcLength prev P1 (wpPoint cur)
           | _ => dist
           end in
         [arcCommand travelDist arcSpeed_ (Math_round startH)
            (match arcControlPoint cur with
             | ctrlAt P1 => arcHeadingSamples samples prev P1 (wpPoint cur)
             | _ => []
             end)
            (Math_round endH)]
     | strafe => [strafePID dist (Math_round segAngleDeg)]
     | drive =>
         [turnPID (Math_round segAngleDeg) EmptyString;
          drivePID dist (Math_round segAngleDeg)]
     end)
    ++ (if Qgtb (Math_abs (wh cur)) (1 # 10000)
           && negb (match segmentType_ with arc => true | _ => false end)
        then
          let wh_ := radToDeg (- wh cur) in
          let delta := wrapDeg (wh_ - segAngleDeg) in
          if Qgtb (Math_abs delta) 1
          then [turnPID (Math_round wh_) " // waypoint heading"]
          else []
        else [])
    ++ (match actionIdOf cur with
        | Some i =>
            match findMarker ms i with
            | Some a => [actionCall (name a) (args a)]
            | None => []
            end
        | None => []
        end).

(** The loop over [pts = [start].concat(waypoints)]. *)
Fixpoint pathCommands (samples : Z) (ms : list marker)
    (prev : point) (wps : list waypoint) : list command :=
  match wps with
  | [] => []
  | cur :: rest =>
      segmentCommands samples ms prev cur
      ++ pathCommands samples ms (wpPoint cur) rest
  end.

(** All statements of the program: the fixed opening turn, then the path. *)
Definition robotCommands (s : state) : list command :=
  turnPID 0 " // face start heading"
  :: pathCommands (arcSamples s) (markers s) (posePoint (start s)) (waypoints s).

Definition robotHeader : string :=
  "// Robot-Oriented Path (using OdoEngine)" +:+ nl
  +:+ "// Start: x=0.00 y=0.00 h=0deg (always relative to origin)" +:+ nl +:+ nl.

Fixpoint renderAll (cs : list command) : string :=
  match cs with
  | [] => EmptyString
  | c :: rest => render c +:+ renderAll rest
  end.

(** The text [generateRobotOrientedCode] builds in [code]. *)
Definition robotOrientedText (s : state) : string :=
  robotHeader +:+ renderAll (robotCommands s).

(** [function generateRobotOrientedCode()] *)
Definition generateRobotOrientedCode (s : state) : state :=
  displayCodeOutput (robotOrientedText s) s.

(** [function generateCode()] *)
Definition generateCode (s : state) : state :=
  match currentMode s with
  | field => generateFieldOrientedCode s
  | robot => generateRobotOrientedCode s
  end.

End Generators.

(** ** State management and event handlers *)

Section Operations.
Context `{Host}.

(** The copy [JSON.parse(JSON.stringify(v))] of a value is the value. *)
Definition takeSnapshot (s : state) : snapshot :=
  {| snap_waypoints := waypoints s; snap_markers := markers s;
     snap_start := start s; snap_selectedSegmentIdx := selectedSegmentIdx s |}.

(** [function saveState()]: [history.push(...)], then
    [if (history.length > 20) history.shift()].  The newest entry is last. *)
Definition saveState (s : state) : state :=
  set_history
    (fun hist =>
       let pushed := hist ++ [takeSnapshot s] in
       if (20 <? length pushed)%nat then drop 1 pushed else pushed)
    s.

(** What [draw()] writes to the model: in robot mode an arc waypoint without
    a control point gets the default one, from its predecessor. *)
Definition drawWaypoint (m : mode) (prevWp : point) (p : waypoint) : waypoint :=
  match m, segmentType p with
  | field, _ => p
  | robot, Some arc =>
      if hasControl p then p
      else wp_set_arcControlPoint
             (ctrlAt (computeDefaultArcControl prevWp (wpPoint p))) p
  | robot, _ => p
  end.

Fixpoint drawWaypoints (m : mode) (prevWp : point) (wps : list waypoint) : list waypoint :=
  match wps with
  | [] => []
  | p :: rest => drawWaypoint m prevWp p :: drawWaypoints m (wpPoint p) rest
  end.

(** [function draw()], its effect on the state. *)
Definition draw (s : state) : state :=
  set_waypoints (drawWaypoints (currentMode s) (posePoint (start s))) s.

(** [function undo()] *)
Definition undo (s : state) : state :=
  match List.last (map Some (history s)) None with
  | None => s
  | Some st =>
      let s1 := set_history (@removelast snapshot) s in
      let s2 := set_waypoints (fun _ => snap_waypoints st) s1 in
      let s3 := set_markers (fun _ => snap_markers st) s2 in
      let s4 := set_start (snap_start st) s3 in
      let s5 := set_selectedSegmentIdx (snap_selectedSegmentIdx st) s4 in
      generateCode (draw s5)
  end.

(** [function setMode(mode)] *)
Definition setMode (m : mode) (s : state) : state :=
  generateCode (draw (set_currentMode m s)).

(** [function deleteSelectedPoint()] *)
Definition deleteSelectedPoint (s : state) : state :=
  match selectedSegmentIdx s with
  | Some i =>
      match waypoints s !! i with
      | Some _ =>
          let s1 := saveState s in
          let s2 := set_waypoints (delete i) s1 in
          let s3 := set_selectedSegmentIdx None s2 in
          generateCode (draw s3)
      | None => s
      end
  | None => s
  end.

(** [function clearPath()], [confirmed] being the answer to [confirm]. *)
Definition clearPath (confirmed : bool) (s : state) : state :=
  if confirmed then
    let s1 := saveState s in
    let s2 := set_waypoints (fun _ => []) s1 in
    let s3 := set_markers (fun _ => []) s2 in
    let s4 := set_start (Pose 0 0 0) s3 in
    let s5 := set_selectedSegmentIdx None s4 in
    set_output EmptyString (draw s5)
  else s.

(** The index of the last waypoint that is not an action. *)
Fixpoint lastReal (wps : list waypoint) : option nat :=
  match wps with
  | [] => None
  | w :: rest =>
      match lastReal rest with
      | Some j => Some (S j)
      | None => if negb (isAction w) then Some O else None
      end
  end.

(** [let insertAt = waypoints.length; for (j = length - 1; j >= 0; j--) if (!waypoints[j].isAction) { insertAt = j + 1; break; }] *)
Definition insertAt (wps : list waypoint) : nat :=
  match lastReal wps with
  | Some j => S j
  | None => length wps
  end.

(** [waypoints.splice(i, 0, w)] *)
Definition spliceIn (i : nat) (w : waypoint) (wps : list waypoint) : list waypoint :=
  take i wps ++ w :: drop i wps.

(** [mousedown] on waypoint [i]: it becomes the selection. *)
Definition selectWaypoint (i : nat) (s : state) : state :=
  match waypoints s !! i with
  | Some _ => set_selectedSegmentIdx (Some i) s
  | None => s
  end.

(** [mousedown] in set-start mode, at [m]; the mode is never on in robot mode. *)
Definition setStartAt (m : point) (s : state) : state :=
  match currentMode s with
  | robot => s
  | field =>
      let s1 := saveState s in
      generateCode (draw (set_start (Pose (px m) (py m) 0) s1))
  end.

(** [mousedown] on marker [i]: an action waypoint for it is inserted. *)
Definition clickMarker (i : nat) (s : state) : state :=
  match markers s !! i with
  | Some mk =>
      let s1 := saveState s in
      let w := actionWaypoint (mx mk) (my mk) (id mk) in
      let s2 := set_waypoints (fun wps => spliceIn (insertAt wps) w wps) s1 in
      generateCode (draw s2)
  | None => s
  end.

(** The search for a marker to reuse,
    [d < (5 / ppm) && markers[i].name === name.trim()]; [tol] is [5 / ppm]. *)
Definition findReusable (ms : list marker) (m : point) (tol : Q) (nm : string)
    : option marker :=
  List.find
    (fun mk => Qltb (Math_hypot (mx mk - px m) (my mk - py m)) tol
               && String.eqb (name mk) nm)
    ms.

(** [mousedown] in add-action mode at [m]; [name_] and [args_] are the
    answers to the two prompts ([None] for a cancelled prompt). *)
Definition addActionAt (name_ args_ : option string) (m : point) (tol : Q)
    (s : state) : state :=
  match name_ with
  | None => draw s
  | Some nm =>
      if String.eqb (trim nm) EmptyString then draw s
      else
        let s1 := saveState s in
        match findReusable (markers s1) m tol (trim nm) with
        | Some found =>
            let w := actionWaypoint (mx found) (my found) (id found) in
            let s2 := set_waypoints (fun wps => spliceIn (insertAt wps) w wps) s1 in
            generateCode (draw s2)
        | None =>
            let i := nextMarkerId s1 in
            let s2 := set_nextMarkerId (S i) s1 in
            let mk := {| id := i; mx := px m; my := py m; name := trim nm;
                         args := match args_ with
                                 | Some a => if (0 <? String.length a)%nat
                                             then trim a else EmptyString
                                 | None => EmptyString
                                 end |} in
            let s3 := set_markers (fun ms => ms ++ [mk]) s2 in
            let w := actionWaypoint (px m) (py m) i in
            let s4 := set_waypoints (fun wps => spliceIn (insertAt wps) w wps) s3 in
            generateCode (draw s4)
        end
  end.

(** [mousedown] on free ground at [m]: a new drive waypoint, selected. *)
Definition addWaypoint (m : point) (s : state) : state :=
  let s1 := saveState s in
  let s2 := set_waypoints
              (fun wps => wps ++ [motionWaypoint (px m) (py m) 0 drive (8 # 10)]) s1 in
  let s3 := set_selectedSegmentIdx (Some (length (waypoints s2) - 1)%nat) s2 in
  generateCode (draw s3).

(** [mousemove] while waypoint [i] is dragged. *)
Definition dragWaypoint (i : nat) (m : point) (s : state) : state :=
  match waypoints s !! i with
  | Some _ =>
      let move w :=
        let w1 := wp_set_xy (px m) (py m) w in
        if isArc w1 then wp_set_arcControlPoint null w1 else w1 in
      generateCode (draw (set_waypoints (alter move i) s))
  | None => s
  end.

(** [mousemove] while the start is dragged. *)
Definition dragStart (m : point) (s : state) : state :=
  generateCode (draw (set_start (Pose (px m) (py m) (h (start s))) s)).

(** [mousemove] while the heading handle of waypoint [i] is dragged; [ang]
    is the angle of the pointer around the waypoint, on the canvas. *)
Definition dragHeading (i : nat) (ang : Q) (s : state) : state :=
  match waypoints s !! i with
  | Some _ => generateCode (draw (set_waypoints (alter (wp_set_h ang) i) s))
  | None => s
  end.

Definition dragStartHeading (ang : Q) (s : state) : state :=
  generateCode (draw (set_start (Pose (x (start s)) (y (start s)) ang) s)).

(** [mousemove] while the control point of arc [i] is dragged. *)
Definition dragArcControl (i : nat) (m : point) (s : state) : state :=
  match waypoints s !! i with
  | Some _ =>
      let move w :=
        wp_set_h (Math_atan2 (wy w - py m) (wx w - px m))
                 (wp_set_arcControlPoint (ctrlAt m) w) in
      generateCode (draw (set_waypoints (alter move i) s))
  | None => s
  end.

(** The [change] handler of the segment-type select, [v] being its value. *)
Definition changeSegmentType (v : segType) (s : state) : state :=
  match selectedSegmentIdx s with
  | Some i =>
      match waypoints s !! i with
      | Some _ =>
          let s1 := saveState s in
          let s2 := match currentMode s1, v with
                    | field, arc => setMode robot s1
                    | _, _ => s1
                    end in
          let retype w :=
            let w1 := wp_set_segmentType v w in
            wp_set_arcControlPoint
              (match v with arc => null | _ => absent end) w1 in
          generateCode (draw (set_waypoints (alter retype i) s2))
      | None => s
      end
  | None => s
  end.

(** The [change] handler of the arc-speed input. *)
Definition changeArcSpeed (v : Q) (s : state) : state :=
  match selectedSegmentIdx s with
  | Some i =>
      match waypoints s !! i with
      | Some _ =>
          let s1 := saveState s in
          generateCode (set_waypoints (alter (wp_set_arcSpeed v) i) s1)
      | None => s
      end
  | None => s
  end.

Definition changeArcSamples (n : Z) (s : state) : state :=
  generateCode (set_arcSamples n s).

Definition changeSimSpeed (v : Q) (s : state) : state := set_simSpeed v s.

(** ** Code decoder *)

(** [/new\s+Pose2d\((NUM),\s*(NUM),.*?(?:Rotation2d\.fromDegrees\((NUM)\)|new\s+Rotation2d\((NUM)\))\)/g],
    where NUM stands for [-?\d+\.?\d*]. *)
Definition poseRegex : regex :=
  RCat [RStr "new"; RPlus is_white; RStr "Pose2d("; RGroup 1 reNumber;
        RChar ","; ws; RGroup 2 reNumber; RChar ","; RLazy is_dot;
        RAlt (RCat [RStr "Rotation2d.fromDegrees("; RGroup 3 reNumber; RChar ")"])
             (RCat [RStr "new"; RPlus is_white; RStr "Rotation2d(";
                    RGroup 4 reNumber; RChar ")"]);
        RChar ")"].

(** [match[n]] as a number. *)
Definition captureNum (c : captures) (n : nat) : Q :=
  num (parseFloat (default EmptyString (capture c n))).

(** [parseFloat(match[3] || match[4] || 0)] *)
Definition captureAngle (c : captures) : Q :=
  match capture c 3 with
  | Some (String a t) => num (parseFloat (String a t))
  | _ =>
      match capture c 4 with
      | Some (String a t) => num (parseFloat (String a t))
      | _ => 0
      end
  end.

(** The body of the [while ((match = poseRegex.exec(code)) !== null)] loop,
    over the successive matches. *)
Fixpoint fieldPoses (ms : list captures) (idx : nat) (s : state) : state :=
  match ms with
  | [] => s
  | c :: rest =>
      let x_ := captureNum c 1 / 100 in
      let y_ := captureNum c 2 / 100 in
      let angle := captureAngle c in
      let s1 :=
        match idx with
        | O => set_start (Pose x_ y_ (degToRad (- angle))) s
        | _ => set_waypoints
                 (fun wps => wps ++ [motionWaypoint x_ y_ (degToRad (- angle))
                                       drive (8 # 10)]) s
        end in
      fieldPoses rest (S idx) s1
  end.

(** [function parseFieldOrientedCode(code)] *)
Definition parseFieldOrientedCode (code : string) (s : state) : state :=
  fieldPoses (matchAll poseRegex code) 0 s.

(** [/turnPID\s*\(\s*(NUM)\s*\)/] *)
Definition turnRegex : regex :=
  RCat [RStr "turnPID"; ws; RChar "("; ws; RGroup 1 reNumber; ws; RChar ")"].

(** [/drivePID\s*\(\s*(NUM)\s*,\s*(NUM)\s*\)/] and the same
    for [strafePID]. *)
Definition moveRegex (keyword : string) : regex :=
  RCat [RStr keyword; ws; RChar "("; ws; RGroup 1 reNumber; ws; RChar ",";
        ws; RGroup 2 reNumber; ws; RChar ")"].

(** [/arc\s*\(\s*(NUM)\s*,\s*(NUM)\s*,/] *)
Definition arcStartRegex : regex :=
  RCat [RStr "arc"; ws; RChar "("; ws; RGroup 1 reNumber; ws; RChar ",";
        ws; RGroup 2 reNumber; ws; RChar ","].

(** [/\.at\s*\(\s*(NUM)\s*,\s*(NUM)\s*\)/]; group 0 is the
    whole match. *)
Definition atRegex : regex :=
  RGroup 0 (RCat [RStr ".at"; ws; RChar "("; ws; RGroup 1 reNumber; ws;
                  RChar ","; ws; RGroup 2 reNumber; ws; RChar ")"]).

(** The running cursor of [parseRobotOrientedCode]. *)
Record cursor : Type := Cursor {
  currentX : Q;
  currentY : Q;
  curHeadingDeg : Q;
  decoded : list waypoint
}.

(** The lines an arc statement spans after its first: those before the
    first line containing [");"], and that line if there is one. *)
Fixpoint arcTail (rest : list string) : list string :=
  match rest with
  | [] => []
  | l :: rest' => if includes l ");" then [l] else l :: arcTail rest'
  end.

(** Start and end heading of an arc, from its [.at(...)] samples. *)
Definition arcHeadings (arcCode : string) : Q * Q :=
  let atMatches := omap (fun c => capture c 0) (matchAll atRegex arcCode) in
  if (2 <=? length atMatches)%nat then
    let sample (t : string) : Q :=
      match rsearch atRegex t with
      | Some (c, _) => captureNum c 2
      | None => 0
      end in
    (sample (default EmptyString (head atMatches)),
     sample (List.last atMatches EmptyString))
  else (0, 0).

Definition advance (c : cursor) (distance headingDeg hOut : Q) (t : segType)
    (speed : Q) (newHeading : Q) : cursor :=
  let headingRad := degToRad headingDeg in
  let nx := currentX c + distance * Math_cos headingRad in
  let ny := currentY c + distance * Math_sin headingRad in
  {| currentX := nx; currentY := ny; curHeadingDeg := newHeading;
     decoded := decoded c ++ [motionWaypoint nx ny (degToRad (- hOut)) t speed] |}.

(** The [for (let i = 0; i < lines.length; i++)] loop; [skip] counts the
    lines of an arc statement still to pass over ([i = j]). *)
Fixpoint robotLines (lines : list string) (skip : nat) (c : cursor) : cursor :=
  match lines with
  | [] => c
  | raw :: rest =>
      match skip with
      | S k => robotLines rest k c
      | O =>
          let line := trim raw in
          if startsWith line "//" || (String.length line =? 0)%nat
          then robotLines rest 0 c
          else
            match rsearch turnRegex line with
            | Some (m, _) =>
                robotLines rest 0
                  {| currentX := currentX c; currentY := currentY c;
                     curHeadingDeg := captureNum m 1; decoded := decoded c |}
            | None =>
            match rsearch (moveRegex "drivePID") line with
            | Some (m, _) =>
                let distance := captureNum m 1 in
                let headingDeg := captureNum m 2 in
                robotLines rest 0
                  (advance c distance headingDeg headingDeg drive (8 # 10) headingDeg)
            | None =>
            match rsearch (moveRegex "strafePID") line with
            | Some (m, _) =>
                let distance := captureNum m 1 in
                let headingDeg := captureNum m 2 in
                robotLines rest 0
                  (advance c distance headingDeg headingDeg strafe (8 # 10) headingDeg)
            | None =>
            match rsearch arcStartRegex line with
            | Some (m, _) =>
                let arcDistance := captureNum m 1 in
                let arcSpeed_ := captureNum m 2 in
                let tail_ := arcTail rest in
                let arcCode := joinLines (line :: tail_) in
                let '(startHeading, endHeading) := arcHeadings arcCode in
                robotLines rest (length tail_)
                  (advance c arcDistance startHeading endHeading arc arcSpeed_
                           endHeading)
            | None => robotLines rest 0 c
            end end end end
      end
  end.

(** [function parseRobotOrientedCode(code)] *)
Definition parseRobotOrientedCode (code : string) (s : state) : state :=
  let s0 :=
    if Qeq_bool (x (start s)) 0 && Qeq_bool (y (start s)) 0
       && Qeq_bool (h (start s)) 0
    then set_start (Pose 0 0 0) s else s in
  let lines := List.filter (fun line => (0 <? String.length (trim line))%nat)
                           (splitLines code) in
  let c := robotLines lines 0
             {| currentX := x (start s0); currentY := y (start s0);
                curHeadingDeg := 0; decoded := [] |} in
  set_waypoints (fun wps => wps ++ decoded c) s0.

Definition isOrigin (p : pose) : bool :=
  Qeq_bool (x p) 0 && Qeq_bool (y p) 0 && Qeq_bool (h p) 0.

Definition unableToDetect : string :=
  "Unable to detect code format. Please paste either field-oriented (Pose2d ArrayList) or robot-oriented (PID commands) code.".

(** [function decodeAndVisualize()], [code] being the text of the decoder
    input.  No call in the [try] block throws, so the [catch] is not
    reached. *)
Definition decodeAndVisualize (code : string) (s : state) : state :=
  if (String.length (trim code) =? 0)%nat then s
  else
    let prevStart := start s in
    let s1 := saveState s in
    let s2 := set_waypoints (fun _ => []) s1 in
    let s3 := set_markers (fun _ => []) s2 in
    let isFieldOriented := includes code "Pose2d" || includes code "ArrayList" in
    let isRobotOriented :=
      includes code "drivePID" || includes code "strafePID"
      || includes code "turnPID" || includes code "arc(" in
    let parsed :=
      if isFieldOriented then Some (parseFieldOrientedCode code s3)
      else if isRobotOriented then Some (parseRobotOrientedCode code s3)
      else None in
    match parsed with
    | None => alert unableToDetect s3
    | Some s4 =>
        let s5 :=
          if isOrigin (start s4) && negb (isOrigin prevStart)
          then set_start prevStart s4 else s4 in
        if (0 <? length (waypoints s5))%nat || negb (isOrigin (start s5))
        then generateCode (draw (set_selectedSegmentIdx (Some O) s5))
        else alert "No waypoints found in the code." s5
    end.

End Operations.

(** ** Simulator *)

(** The [phase] variable: ['turn'], then ['drive'], ['strafe'] or ['arc'],
    then ['wpTurn']. *)
Inductive phase : Type :=
  | turn
  | moving (t : segType)
  | wpTurn.

(** The local variables of one call of [simulate()], which its [step] and
    [stepField] closures share.  [fieldRun] tells which of the two was
    scheduled, [scheduled] whether a [requestAnimationFrame] callback is
    pending.  [points] is [[start].concat(waypoints)], an array of the very
    objects of the model: it is read off the state, which is what the
    source sees as long as no handler replaces the start or the waypoints
    (undo, decode, clear, set start) or changes their number during the
    run; a run that is not interrupted by such an event is modelled as the
    source runs it. *)
Record sim : Type := Sim {
  seg : nat;
  sim_phase : phase;
  pos : point;
  heading : Q;
  totalDistance : Q;
  distanceTraveled : Q;
  driveProgress : Q;
  pathPoints : list point;
  simIndex : nat;
  fieldRun : bool;
  scheduled : bool
}.

(** [segInfo(i)] *)
Record segment : Type := Segment {
  len : Q;
  ang : Q;
  seg_a : pose;
  seg_b : waypoint;
  seg_type : segType
}.

Definition driveSpeed : Q := 8 # 10.
Definition turnSpeedDeg : Q := 120.

Section Simulator.
Context `{Host}.

Definition wpPose (w : waypoint) : pose := Pose (wx w) (wy w) (wh w).

(** [points[i]], as a pose. *)
Definition pointAt (s : state) (i : nat) : option pose :=
  match i with
  | O => Some (start s)
  | S j => wpPose <$> waypoints s !! j
  end.

(** [points.length] *)
Definition pointsLength (s : state) : nat := S (length (waypoints s)).

(** [function segInfo(i)], for [i < points.length - 1]. *)
Definition segInfo (s : state) (i : nat) : option segment :=
  match pointAt s i, waypoints s !! i with
  | Some a, Some b =>
      let dx := wx b - x a in
      let dy := wy b - y a in
      Some {| len := Math_hypot dx dy;
              ang := radToDeg (Math_atan2 dy dx);
              seg_a := a; seg_b := b;
              seg_type := segmentTypeOr b |}
  | _, _ => None
  end.

(** [function getArcControlPoint(segIdx)]: the control point, cached in the
    waypoint when it had none. *)
Definition getArcControlPoint (segIdx : nat) (s : state) : state * option point :=
  if (segIdx <? 1)%nat || (length (waypoints s) <=? segIdx)%nat then (s, None)
  else
    match waypoints s !! segIdx with
    | Some wp =>
        if isArc wp then
          match arcControlPoint wp with
          | ctrlAt c => (s, Some c)
          | _ =>
              let prevWp :=
                match segIdx with
                | O => posePoint (start s)
                | S j => default (Point 0 0) (wpPoint <$> waypoints s !! j)
                end in
              let c := computeDefaultArcControl prevWp (wpPoint wp) in
              (set_waypoints (alter (wp_set_arcControlPoint (ctrlAt c)) segIdx) s,
               Some c)
          end
        else (s, None)
    | None => (s, None)
    end.

(** [let controlPt = getArcControlPoint(i); if (!controlPt) controlPt = computeDefaultArcControl(info.a, info.b);] *)
Definition controlPointOf (i : nat) (info : segment) (s : state) : state * point :=
  match getArcControlPoint i s with
  | (s', Some c) => (s', c)
  | (s', None) =>
      (s', computeDefaultArcControl (posePoint (seg_a info)) (wpPoint (seg_b info)))
  end.

(** The sum of the segment lengths. *)
Fixpoint sumLengths (s : state) (n : nat) : Q :=
  match n with
  | O => 0
  | S n' => sumLengths s n' + match segInfo s n' with
                              | Some info => len info
                              | None => 0
                              end
  end.

(** The values [t] takes in [for (let t = 0; t <= 1; t += 0.05)], each sum
    rounded as the doubles round it; [fuel] bounds the passes. *)
Fixpoint arcParamsFrom (fuel : nat) (t : Q) : list Q :=
  match fuel with
  | O => []
  | S fuel' =>
      if Qle_bool t 1 then t :: arcParamsFrom fuel' (fl (t + double_0_05))
      else []
  end.

(** The loop ends within 32 passes (it makes 20: lemma [arcParams_count]). *)
Definition arcParams : list Q := arcParamsFrom 32 0.

(** [for (let t = 0; t <= 1; t += 0.05) pathPoints.push(bezierPoint(t, ...))] *)
Definition arcPathPoints (info : segment) (c : point) : list point :=
  map (fun t : Q =>
         bezierPoint t
           (x (seg_a info)) (y (seg_a info)) (px c) (py c)
           (wx (seg_b info)) (wy (seg_b info)))
      arcParams.

(** The planned path of robot mode, segments [i, i + n). *)
Fixpoint robotPathPoints (n i : nat) (s : state) : state * list point :=
  match n with
  | O => (s, [])
  | S n' =>
      match segInfo s i with
      | Some info =>
          let '(s1, here) :=
            match seg_type info, currentMode s with
            | arc, robot =>
                let '(s', c) := controlPointOf i info s in
                (s', arcPathPoints info c)
            | _, _ => (s, [posePoint (seg_a info); wpPoint (seg_b info)])
            end in
          let '(s2, rest) := robotPathPoints n' (S i) s1 in
          (s2, here ++ rest)
      | None => (s, [])
      end
  end.

(** The refinement of the smoothed polyline of field mode: a gap of more
    than 0.5 is cut in [Math.ceil(d / 0.2)] steps. *)
Fixpoint refinePath (l : list point) : list point :=
  match l with
  | [] => []
  | a :: rest =>
      a :: match rest with
           | b :: _ =>
               let d := Math_hypot (px b - px a) (py b - py a) in
               if Qgtb d (1 # 2) then
                 let steps := Math_ceil (d / (2 # 10)) in
                 map (fun k : Z =>
                        Point (px a + (px b - px a) * (inject_Z k / inject_Z steps))
                              (py a + (py b - py a) * (inject_Z k / inject_Z steps)))
                     (seqZ 1 (steps - 1))
               else []
           | [] => []
           end ++ refinePath rest
  end.

(** [function simulate()], up to its first [requestAnimationFrame]; no
    simulation starts when one is running or there is no waypoint. *)
Definition simulate (s : state) : state * option sim :=
  if isSimulating s then (s, None)
  else if (pointsLength s <? 2)%nat then (s, None)
  else
    let s1 := set_isSimulating true s in
    let total := sumLengths s1 (pointsLength s1 - 1) in
    let '(s2, path) :=
      match currentMode s1 with
      | field => (s1, refinePath (dropRepeats (computeFieldPath s1)))
      | robot => robotPathPoints (pointsLength s1 - 1) 0 s1
      end in
    (s2,
     Some {| seg := 0; sim_phase := turn; pos := posePoint (start s2);
             heading := radToDeg (- h (start s2));
             totalDistance := total; distanceTraveled := 0; driveProgress := 0;
             pathPoints := path; simIndex := 0;
             fieldRun := match currentMode s1 with field => true | robot => false end;
             scheduled := true |}).

Definition sim_set_motion (sg : nat) (ph : phase) (p : point) (hd dist prog : Q)
    (m : sim) : sim :=
  {| seg := sg; sim_phase := ph; pos := p; heading := hd;
     totalDistance := totalDistance m; distanceTraveled := dist;
     driveProgress := prog; pathPoints := pathPoints m; simIndex := simIndex m;
     fieldRun := fieldRun m; scheduled := scheduled m |}.

Definition sim_set_scheduled (b : bool) (m : sim) : sim :=
  {| seg := seg m; sim_phase := sim_phase m; pos := pos m; heading := heading m;
     totalDistance := totalDistance m; distanceTraveled := distanceTraveled m;
     driveProgress := driveProgress m; pathPoints := pathPoints m;
     simIndex := simIndex m; fieldRun := fieldRun m; scheduled := b |}.

Definition sim_set_field (p : point) (hd : Q) (idx : nat) (m : sim) : sim :=
  {| seg := seg m; sim_phase := sim_phase m; pos := p; heading := hd;
     totalDistance := totalDistance m; distanceTraveled := distanceTraveled m;
     driveProgress := driveProgress m; pathPoints := pathPoints m;
     simIndex := idx; fieldRun := fieldRun m; scheduled := scheduled m |}.

(** [function stepField(dt)] *)
Definition stepField (dt : Q) (sm : state * sim) : state * sim :=
  let '(s, m) := sm in
  let m0 := sim_set_scheduled false m in
  if negb (isSimulating s) then (s, m0)
  else if (length (pathPoints m) <=? S (simIndex m))%nat then
    (draw (set_isSimulating false s), m0)
  else
    let target := default (Point 0 0) (pathPoints m !! S (simIndex m)) in
    let dx := px target - px (pos m) in
    let dy := py target - py (pos m) in
    let dist := Math_hypot dx dy in
    let travel := driveSpeed * (dt / 1000) * simSpeed s in
    let '(p, idx) :=
      if Qle_bool dist travel then (target, S (simIndex m))
      else (Point (px (pos m) + dx / dist * travel)
                  (py (pos m) + dy / dist * travel), simIndex m) in
    let hd := radToDeg (Math_atan2 dy dx) in
    (draw s, sim_set_scheduled true (sim_set_field p hd idx m0)).

(** [Math.min(1, driveProgress / info.len || 1)]: a quotient that is zero or
    not a number gives 1, and so does the infinity of a division of a
    positive progress by a zero length.  The progress is not negative
    (the speed multiplier is positive). *)
Definition fraction (progress length_ : Q) : Q :=
  if Qeq_bool length_ 0 then 1
  else
    let q := progress / length_ in
    Math_min 1 (if Qeq_bool q 0 then 1 else q).

(** [radToDeg(-points[seg+1].h)] *)
Definition arrivalHeading (info : segment) : Q := radToDeg (- wh (seg_b info)).

(** The end of each motion phase: [if (frac >= 1) { ... }]. *)
Definition afterMotion (frac : Q) (info : segment) (sg : nat) (ph : phase)
    : nat * phase :=
  if Qle_bool 1 frac then
    let wpHeading := arrivalHeading info in
    if Qgtb (Math_abs wpHeading) (1 # 10000) then (sg, wpTurn)
    else (S sg, turn)
  else (sg, ph).

(** One turning increment towards [target]; [Some] heading when within the
    0.5 degree snap. *)
Definition turnTowards (target hd dt speed : Q) : bool * Q :=
  let diff := wrapDeg (target - hd) in
  let maxStep := turnSpeedDeg * (dt / 1000) * speed in
  if Qle_bool (Math_abs diff) (1 # 2) then (true, target)
  else (false, hd + Math_sign diff * Math_min maxStep (Math_abs diff)).

(** [function step(dt)] *)
Definition step (dt : Q) (sm : state * sim) : state * sim :=
  let '(s, m) := sm in
  let m0 := sim_set_scheduled false m in
  if negb (isSimulating s) then (s, m0)
  else
    match (if (seg m <? pointsLength s - 1)%nat then segInfo s (seg m) else None) with
    | None => (draw (set_isSimulating false s), m0)
    | Some info =>
        let segType_ := seg_type info in
        let '(s1, m1) :=
          match sim_phase m with
          | turn =>
              let target := wrapDeg (ang info) in
              let '(snap, hd) := turnTowards target (heading m) dt (simSpeed s) in
              if snap then
                match segType_ with
                | strafe =>
                    let roundedHeading := inject_Z (Math_round (hd / 90)) * 90 in
                    (s, sim_set_motion (seg m) (moving strafe) (pos m)
                          (wrapDeg roundedHeading) (distanceTraveled m) 0 m0)
                | arc =>
                    (s, sim_set_motion (seg m) (moving arc) (pos m) hd
                          (distanceTraveled m) 0 m0)
                | drive =>
                    (s, sim_set_motion (seg m) (moving drive) (pos m) hd
                          (distanceTraveled m) 0 m0)
                end
              else
                (s, sim_set_motion (seg m) turn (pos m) hd
                      (distanceTraveled m) (driveProgress m) m0)
          | moving drive =>
              let travel := driveSpeed * (dt / 1000) * simSpeed s in
              let progress := driveProgress m + travel in
              let frac := fraction progress (len info) in
              let p := Point (x (seg_a info) + (wx (seg_b info) - x (seg_a info)) * frac)
                             (y (seg_a info) + (wy (seg_b info) - y (seg_a info)) * frac) in
              let '(sg, ph) := afterMotion frac info (seg m) (moving drive) in
              (s, sim_set_motion sg ph p (ang info)
                    (distanceTraveled m + travel) progress m0)
          | moving strafe =>
              let travel := driveSpeed * (dt / 1000) * simSpeed s in
              let progress := driveProgress m + travel in
              let frac := fraction progress (len info) in
              let p := Point (x (seg_a info) + (wx (seg_b info) - x (seg_a info)) * frac)
                             (y (seg_a info) + (wy (seg_b info) - y (seg_a info)) * frac) in
              let '(sg, ph) := afterMotion frac info (seg m) (moving strafe) in
              (s, sim_set_motion sg ph p (heading m)
                    (distanceTraveled m + travel) progress m0)
          | moving arc =>
              let prevH := match seg m with
                           | O => h (start s)
                           | S j => default 0 (wh <$> waypoints s !! j)
                           end in
              let travel := driveSpeed * (dt / 1000) * simSpeed s in
              let progress := driveProgress m + travel in
              let frac := fraction progress (len info) in
              let '(s', controlPt) := controlPointOf (seg m) info s in
              let bezPt := bezierPoint frac (x (seg_a info)) (y (seg_a info))
                             (px controlPt) (py controlPt)
                             (wx (seg_b info)) (wy (seg_b info)) in
              let startH := radToDeg (- prevH) in
              let endH := radToDeg (- wh (seg_b info)) in
              let hd := wrapDeg (startH + (endH - startH) * frac) in
              let '(sg, ph) := afterMotion frac info (seg m) (moving arc) in
              (s', sim_set_motion sg ph bezPt hd
                     (distanceTraveled m + travel) progress m0)
          | wpTurn =>
              let target := wrapDeg (arrivalHeading info) in
              let '(snap, hd) := turnTowards target (heading m) dt (simSpeed s) in
              if snap then
                (s, sim_set_motion (S (seg m)) turn (pos m) hd
                      (distanceTraveled m) (driveProgress m) m0)
              else
                (s, sim_set_motion (seg m) wpTurn (pos m) hd
                      (distanceTraveled m) (driveProgress m) m0)
          end in
        let s2 := draw s1 in
        if (pointsLength s2 - 1 <=? seg m1)%nat
        then (set_isSimulating false s2, m1)
        else (s2, sim_set_scheduled true m1)
    end.

(** The callback of one animation frame: [step(16)] or [stepField(16)]. *)
Definition frame (sm : state * sim) : state * sim :=
  if scheduled (snd sm) then
    if fieldRun (snd sm) then stepField 16 sm else step 16 sm
  else sm.

(** [n] animation frames. *)
Fixpoint frames (n : nat) (sm : state * sim) : state * sim :=
  match n with
  | O => sm
  | S n' => frames n' (frame sm)
  end.

(** A run of [simulate()] followed by [n] frames: the state of the model. *)
Definition simulation (n : nat) (s : state) : state :=
  match simulate s with
  | (s', Some m) => fst (frames n (s', m))
  | (s', None) => s'
  end.

End Simulator.

(** ** Sessions

    The page reacts to one event at a time.  An event is a value of
    [event]; [handle] runs its handler.  A session is the state of the
    model together with the simulation in progress, if any. *)

Inductive event : Type :=
  | AddWaypoint (m : point)
  | SelectWaypoint (i : nat)
  | SetStartAt (m : point)
  | ClickMarker (i : nat)
  | AddActionAt (name_ args_ : option string) (m : point) (tol : Q)
  | DragWaypoint (i : nat) (m : point)
  | DragStart (m : point)
  | DragHeading (i : nat) (ang : Q)
  | DragStartHeading (ang : Q)
  | DragArcControl (i : nat) (m : point)
  | ChangeSegmentType (v : segType)
  | ChangeArcSpeed (v : Q)
  | ChangeArcSamples (n : Z)
  | ChangeSimSpeed (v : Q)
  | DeleteSelectedPoint
  | ClearPath (confirmed : bool)
  | Undo
  | SetMode (m : mode)
  | DecodeAndVisualize (code : string)
  | Simulate
  | AnimationFrame.

Record session : Type := Session {
  model : state;
  running : option sim
}.

Definition initialSession : session :=
  {| model := initialState; running := None |}.

Section Sessions.
Context `{Host}.

(** The handlers that only touch the model. *)
Definition handleModel (e : event) (s : state) : state :=
  match e with
  | AddWaypoint m => addWaypoint m s
  | SelectWaypoint i => selectWaypoint i s
  | SetStartAt m => setStartAt m s
  | ClickMarker i => clickMarker i s
  | AddActionAt name_ args_ m tol => addActionAt name_ args_ m tol s
  | DragWaypoint i m => dragWaypoint i m s
  | DragStart m => dragStart m s
  | DragHeading i ang => dragHeading i ang s
  | DragStartHeading ang => dragStartHeading ang s
  | DragArcControl i m => dragArcControl i m s
  | ChangeSegmentType v => changeSegmentType v s
  | ChangeArcSpeed v => changeArcSpeed v s
  | ChangeArcSamples n => changeArcSamples n s
  | ChangeSimSpeed v => changeSimSpeed v s
  | DeleteSelectedPoint => deleteSelectedPoint s
  | ClearPath confirmed => clearPath confirmed s
  | Undo => undo s
  | SetMode m => setMode m s
  | DecodeAndVisualize code => decodeAndVisualize code s
  | Simulate | AnimationFrame => s
  end.

Definition handle (e : event) (ss : session) : session :=
  match e with
  | Simulate =>
      match simulate (model ss) with
      | (s', Some m) => {| model := s'; running := Some m |}
      | (s', None) => {| model := s'; running := running ss |}
      end
  | AnimationFrame =>
      match running ss with
      | Some m =>
          let '(s', m') := frame (model ss, m) in
          {| model := s'; running := Some m' |}
      | None => ss
      end
  | _ => {| model := handleModel e (model ss); running := running ss |}
  end.

(** The sessions the page can be in. *)
Inductive reachable : session -> Prop :=
  | reachable_initial : reachable initialSession
  | reachable_handle (e : event) (ss : session) :
      reachable ss -> reachable (handle e ss).

(** The text [generateCode] shows. *)
Definition currentText (s : state) : string :=
  match currentMode s with
  | field => fieldOrientedText s
  | robot => robotOrientedText s
  end.

(** The last [n] entries of a list. *)
Definition lastn {A : Type} (n : nat) (l : list A) : list A :=
  drop (length l - n) l.

(** Whether the handler of [e], run in state [s], gets to its call of
    [saveState]: the guard that stands in front of each call in the source.
    The [mousemove] handlers (the drags), the selection, the settings, the
    mode switch and the simulator have no such call. *)
Definition takesSnapshot (e : event) (s : state) : bool :=
  match e with
  | AddWaypoint _ => true
  | SetStartAt _ =>
      match currentMode s with field => true | robot => false end
  | ClickMarker i =>
      match markers s !! i with Some _ => true | None => false end
  | AddActionAt name_ _ _ _ =>
      match name_ with
      | Some nm => if String.eqb (trim nm) EmptyString then false else true
      | None => false
      end
  | ChangeSegmentType _ | ChangeArcSpeed _ | DeleteSelectedPoint =>
      match selectedSegmentIdx s with
      | Some i =>
          match waypoints s !! i with Some _ => true | None => false end
      | None => false
      end
  | ClearPath confirmed => confirmed
  | DecodeAndVisualize code =>
      if (String.length (trim code) =? 0)%nat then false else true
  | _ => false
  end.

(** The events of a list, handled one after the other. *)
Definition runEvents (es : list event) (ss : session) : session :=
  foldl (fun ss e => handle e ss) ss es.

(** The snapshots taken while they are handled, oldest first. *)
Fixpoint taken (es : list event) (ss : session) : list snapshot :=
  match es with
  | [] => []
  | e :: es' =>
      (if takesSnapshot e (model ss) then [takeSnapshot (model ss)] else [])
      ++ taken es' (handle e ss)
  end.






(** The selection is [null] or an index of [waypoints]. *)
Definition selectionInRange (wps : list waypoint) (sel : option nat) : Prop :=
  match sel with
  | None => True
  | Some i => (i < length wps)%nat
  end.

Definition selectionOk (s : state) : Prop :=
  selectionInRange (waypoints s) (selectedSegmentIdx s).

Definition snapshotOk (st : snapshot) : Prop :=
  selectionInRange (snap_waypoints st) (snap_selectedSegmentIdx st).

(** The selection invariant, for the state and for what [undo] can restore. *)
Definition selectionInv (s : state) : Prop :=
  selectionOk s /\ Forall snapshotOk (history s).

(** Every arc waypoint has its control point, in robot mode: what [draw]
    leaves behind. *)
Definition drawnWaypoint (m : mode) (w : waypoint) : Prop :=
  m = robot -> isArc w = true -> hasControl w = true.

Definition drawn (s : state) : Prop :=
  Forall (drawnWaypoint (currentMode s)) (waypoints s).

(** [w'] is [w], or [w] with the default control point from [prev] when [w]
    is an arc that had none. *)
Definition cachedFrom (prev : point) (w w' : waypoint) : Prop :=
  w' = w \/
  (isArc w = true /\ hasControl w = false /\
   w' = wp_set_arcControlPoint
          (ctrlAt (computeDefaultArcControl prev (wpPoint w))) w).

(** The same along a path that starts at [prev]. *)
Inductive cachedPath : point -> list waypoint -> list waypoint -> Prop :=
  | cachedPath_nil (prev : point) : cachedPath prev [] []
  | cachedPath_cons (prev : point) (w w' : waypoint) (l l' : list waypoint) :
      cachedFrom prev w w' ->
      cachedPath (wpPoint w) l l' ->
      cachedPath prev (w :: l) (w' :: l').

(** What a simulation may change in the model: the running flag, and
    control points it caches. *)
Definition simulated (s s' : state) : Prop :=
  history s' = history s /\
  markers s' = markers s /\
  nextMarkerId s' = nextMarkerId s /\
  start s' = start s /\
  selectedSegmentIdx s' = selectedSegmentIdx s /\
  currentMode s' = currentMode s /\
  simSpeed s' = simSpeed s /\
  arcSamples s' = arcSamples s /\
  output s' = output s /\
  alerts s' = alerts s /\
  cachedPath (posePoint (start s)) (waypoints s) (waypoints s').

End Sessions.

(** ** Text shapes and tolerances

    What the round trip of the field-oriented text is stated with. *)

(** Every character of [s] satisfies [p]. *)
Fixpoint allChars (p : ascii -> bool) (s : string) : bool :=
  match s with
  | EmptyString => true
  | String c s' => p c && allChars p s'
  end.

(** [s] starts with a character that satisfies [p]. *)
Definition headIs (p : ascii -> bool) (s : string) : bool :=
  match s with
  | String c _ => p c
  | EmptyString => false
  end.

(** The number a string of digits denotes, after the digits read so far. *)
Fixpoint valueFrom (acc : Z) (s : string) : Z :=
  match s with
  | EmptyString => acc
  | String c s' => valueFrom (acc * 10 + digitVal c) s'
  end.

(** The characters that can continue a decimal literal. *)
Definition is_numeric (c : ascii) : bool := is_digit c || Ascii.eqb c ".".

(** A decimal literal as the generators print one: an optional minus sign,
    digits, and optionally a point followed by digits. *)
Definition numberText (N : string) : Prop :=
  exists (neg : bool) (ip fp : string),
    N = (if neg then "-" else "") +:+ ip +:+ fp /\
    allChars is_digit ip = true /\ ip <> EmptyString /\
    (fp = EmptyString \/
     exists f, fp = "." +:+ f /\ allChars is_digit f = true).

(** [parseFloat] behind the sign: the digits, and the fraction if a point
    follows them. *)
Definition parseDigits (neg : bool) (s1 : string) : option Q :=
  let '(ip, ic, s2) := readDigits s1 0%Z 0%nat in
  let '(fp, fc, _) :=
    match s2 with
    | String "." r => readDigits r 0%Z 0%nat
    | _ => (0%Z, 0%nat, s2)
    end in
  if ((ic =? 0) && (fc =? 0))%nat then None
  else
    let v := inject_Z ip + inject_Z fp / inject_Z (10 ^ Z.of_nat fc) in
    Some (if neg then - v else v).

Definition within (tol a b : Q) : Prop := Qabs (a - b) <= tol.

(** Positions within a thousandth of the length unit, headings within a
    degree: one decimal of a centimetre and a whole degree hold half of
    that, the rest is room for the rounding of the arithmetic. *)
Definition poseClose (p q : pose) : Prop :=
  within (1 # 1000) (x p) (x q) /\
  within (1 # 1000) (y p) (y q) /\
  within 1 (radToDeg (h p)) (radToDeg (h q)).

(** The waypoint the field-oriented decoder builds for [w]. *)
Definition waypointClose (w' w : waypoint) : Prop :=
  within (1 # 1000) (wx w') (wx w) /\
  within (1 # 1000) (wy w') (wy w) /\
  within 1 (radToDeg (wh w')) (radToDeg (wh w)) /\
  segmentType w' = Some drive /\ arcSpeed w' = Some (8 # 10) /\
  arcControlPoint w' = absent /\ isAction w' = false.

(** Coordinates and a heading of at most a billion in magnitude: their
    centimetres and degrees print in plain decimal notation, and the
    rounding of the products is far below the last digit printed. *)
Definition printable (px_ py_ ph_ : Q) : Prop :=
  Qabs px_ <= 1000000000 /\ Qabs py_ <= 1000000000 /\
  Qabs ph_ <= 1000000000.

Definition printablePose (p : pose) : Prop := printable (x p) (y p) (h p).

Definition printableWaypoint (w : waypoint) : Prop :=
  printable (wx w) (wy w) (wh w).

(** The captures of one pose literal of the generated text. *)
Definition poseCaptures (X Y D : string) : captures :=
  <[3%nat := Some D]> (<[2%nat := Some Y]> (<[1%nat := Some X]> noCaptures)).

(** The pose and the waypoint [parseFieldOrientedCode] builds from the
    captures of a match. *)
Definition decodedPose (c : captures) : pose :=
  Pose (captureNum c 1 / 100) (captureNum c 2 / 100) (degToRad (- captureAngle c)).

Definition decodedWaypoint (c : captures) : waypoint :=
  motionWaypoint (captureNum c 1 / 100) (captureNum c 2 / 100)
    (degToRad (- captureAngle c)) drive (8 # 10).

Section Printed.
Context `{Host}.

(** The three literals the field-oriented generator prints for a pose. *)
Definition printedCaptures (x_ y_ h_ : Q) : captures :=
  poseCaptures (toFixed 1 (fl (x_ * 100))) (toFixed 1 (fl (y_ * 100)))
               (showInt (Math_round (radToDeg_fl (- h_)))).

(** The start pose the decoder leaves: the decoded one, unless that is
    exactly the origin while the start before was not. *)
Definition startAfterDecode (decodedStart prevStart : pose) : pose :=
  if isOrigin decodedStart && negb (isOrigin prevStart) then prevStart
  else decodedStart.

End Printed.

(** ** Markers and the waypoints that refer to them *)

(** The position [draw] takes as the predecessor of waypoint [i]:
    [i === 0 ? start : waypoints[i - 1]]. *)
Definition prevPoint (p : point) (wps : list waypoint) (i : nat) : point :=
  match i with
  | O => p
  | S j => default p (wpPoint <$> wps !! j)
  end.

(** Marker ids are positive, below the next id to hand out, and distinct. *)
Definition markersOk (ms : list marker) (n : nat) : Prop :=
  Forall (fun m => (1 <= id m < n)%nat) ms /\ NoDup (map id ms).

(** An action waypoint carries the id of one of the markers. *)
Definition resolves (ms : list marker) (w : waypoint) : Prop :=
  isAction w = true -> exists m, m ∈ ms /\ actionId w = Some (id m).

Definition actionsOk (ms : list marker) (wps : list waypoint) : Prop :=
  Forall (resolves ms) wps.

Definition snapshotMarkersOk (n : nat) (st : snapshot) : Prop :=
  markersOk (snap_markers st) n /\ actionsOk (snap_markers st) (snap_waypoints st).

(** The marker invariant, for the state and for what [undo] can restore. *)
Definition markersInv (s : state) : Prop :=
  (1 <= nextMarkerId s)%nat /\
  markersOk (markers s) (nextMarkerId s) /\
  actionsOk (markers s) (waypoints s) /\
  Forall (snapshotMarkersOk (nextMarkerId s)) (history s).

(** ** Shapes of the robot-oriented program *)


(** No [drivePID] opens the list, and each one comes right after a
    [turnPID] to the heading it drives along. *)
Definition drivesFollowTurns (l : list command) : Prop :=
  (forall d b, l !! 0%nat <> Some (drivePID d b)) /\
  (forall i d b, l !! S i = Some (drivePID d b) ->
                 l !! i = Some (turnPID b EmptyString)).

(** The cursor of the robot-oriented decoder with another heading. *)
Definition cursor_set_heading (hd : Q) (c : cursor) : cursor :=
  {| currentX := currentX c; currentY := currentY c;
     curHeadingDeg := hd; decoded := decoded c |}.

(** The waypoints that are not actions. *)
Definition realWaypoints (wps : list waypoint) : list waypoint :=
  List.filter (fun wp => negb (isAction wp)) wps.

(** ** A reference host

    Rational stand-ins for the functions of [Math], used to run the model
    on concrete inputs: exact on the coordinate axes, series elsewhere.
    Every general theorem below holds for all hosts. *)

Module Reference.

(** Results are kept to eighteen decimals. *)
Definition fix18 (q : Q) : Q :=
  Qred (inject_Z (Qfloor (q * inject_Z (10 ^ 18) + (1 # 2))) / inject_Z (10 ^ 18)).

(** The square root, to twelve decimals. *)
Definition sqrt (q : Q) : Q :=
  if Qle_bool q 0 then 0
  else Qred (inject_Z (Z.sqrt (Qfloor (q * inject_Z (10 ^ 24)))) / inject_Z (10 ^ 12)).

Definition hypot (a b : Q) : Q := sqrt (a * a + b * b).

(** [n] terms of the sine series, from the term [t] of odd index [k]. *)
Fixpoint sinSeries (n : nat) (k : Z) (x2 t acc : Q) : Q :=
  match n with
  | O => acc
  | S n' =>
      let t' := fix18 (- t * x2 / inject_Z ((k + 1) * (k + 2))) in
      sinSeries n' (k + 2) x2 t' (fix18 (acc + t))
  end.

Definition sin (a : Q) : Q :=
  if Qeq_bool a 0 then 0 else sinSeries 14 1 (fix18 (a * a)) (fix18 a) 0.

Definition cos (a : Q) : Q :=
  if Qeq_bool a 0 then 1 else sinSeries 14 0 (fix18 (a * a)) 1 0.

(** The arctangent series on [|t| <= 1], after two halvings of the angle. *)
Fixpoint atanSeries (n : nat) (k : Z) (t2 p acc : Q) : Q :=
  match n with
  | O => acc
  | S n' =>
      atanSeries n' (k + 2) t2 (fix18 (- p * t2)) (fix18 (acc + p / inject_Z k))
  end.

Definition halve (t : Q) : Q := fix18 (t / (1 + sqrt (1 + t * t))).

Definition atanSmall (t : Q) : Q :=
  let u := halve (halve t) in
  fix18 (4 * atanSeries 12 1 (fix18 (u * u)) u 0).

Definition atan (t : Q) : Q :=
  if Qle_bool (Qabs t) 1 then atanSmall t
  else if Qltb 0 t then fix18 (Math_PI / 2 - atanSmall (/ t))
  else fix18 (- (Math_PI / 2) - atanSmall (/ t)).

Definition atan2 (b a : Q) : Q :=
  if Qeq_bool a 0 then
    if Qltb 0 b then Math_PI / 2
    else if Qltb b 0 then - (Math_PI / 2) else 0
  else if Qeq_bool b 0 then
    if Qltb 0 a then 0 else Math_PI
  else if Qltb 0 a then atan (b / a)
  else if Qltb 0 b then fix18 (atan (b / a) + Math_PI)
  else fix18 (atan (b / a) - Math_PI).

(** Exponential notation of a number of magnitude 1e21 or more: leading
    digit, and the power of ten. *)
Definition toStringExp (q : Q) : string :=
  let ds := digits (Qfloor (Qabs q)) in
  (if Qltb q 0 then "-" else "")
  +:+ substring 0 1 ds +:+ "e+" +:+ digits (Z.of_nat (String.length ds - 1)).

Definition host : Host :=
  {| Math_sqrt := sqrt; Math_hypot := hypot; Math_atan2 := atan2;
     Math_cos := cos; Math_sin := sin; Number_toString_exp := toStringExp |}.

End Reference.

Definition refHost : Host := Reference.host.

(** ** Sample sessions, on the reference host *)

Module Sample.

Definition run (es : list event) : session :=
  foldl (fun ss e => @handle refHost e ss) initialSession es.

(** A start dragged to (0.5, 0), one drive waypoint at (1, 0) and an action
    [grab] on a marker there. *)
Definition withMarker : state :=
  model (run [DragStart (Point (1 # 2) 0);
              AddWaypoint (Point 1 0);
              AddActionAt (Some "grab"%string) None (Point 1 0) (1 # 10)]).

(** One drive waypoint at (1, 0), selected. *)
Definition oneWaypoint : state :=
  model (run [AddWaypoint (Point 1 0)]).

(** The start turned to face the field's y axis (program heading 90). *)
Definition turnedStart : state :=
  model (run [DragStartHeading (- (Math_PI / 2))]).

(** A drive to (1, 0), then an arc to (1, 1) whose control point was drawn. *)
Definition withArc : state :=
  model (run [AddWaypoint (Point 1 0); AddWaypoint (Point 1 1);
              ChangeSegmentType arc]).


(** An arc waypoint at (1, 1) with its control point at (0.7, 0.5). *)
Definition arcWaypoint : waypoint :=
  wp_set_arcControlPoint (ctrlAt (Point (7 # 10) (1 # 2)))
    (motionWaypoint 1 1 0 arc (8 # 10)).

(** A run in its drive phase, one step before the waypoint at (0, 1), whose
    heading is 90 degrees. *)
Definition arriving : state * sim :=
  (set_isSimulating true
     (set_waypoints (fun _ => [motionWaypoint 0 1 (- (Math_PI / 2)) drive (8 # 10)])
        initialState),
   {| seg := 0; sim_phase := moving drive; pos := Point 0 (99 # 100);
      heading := 90; totalDistance := 1; distanceTraveled := 99 # 100;
      driveProgress := 99 # 100; pathPoints := []; simIndex := 0;
      fieldRun := false; scheduled := true |}).


(** The path of the witnesses: a start at (0.0015, 0) turned by a degree
    and a half, where the product [0.0015 * 100] of the doubles lies below
    0.15 and prints as 0.1, and one waypoint. *)
Definition roundedStart : state :=
  set_start (Pose (fl (15 # 10000)) 0 (- fl (2617993877991494 # 100000000000000000)))
    (set_waypoints (fun _ => [motionWaypoint 1 (1 # 4) 0 strafe (8 # 10)])
       initialState).

End Sample.

(** * Properties *)

(** ** Comparisons *)

Lemma Qltb_lt a b : Qltb a b = true <-> a < b.
Proof.
  unfold Qltb. rewrite negb_true_iff, <- not_true_iff_false, Qle_bool_iff.
  split; [apply Qnot_le_lt | apply Qlt_not_le].
Qed.

Lemma Qltb_ge a b : Qltb a b = false <-> b <= a.
Proof.
  unfold Qltb. rewrite negb_false_iff. apply Qle_bool_iff.
Qed.

Lemma Qgtb_gt a b : Qgtb a b = true <-> b < a.
Proof. apply Qltb_lt. Qed.

Lemma Qgtb_le a b : Qgtb a b = false <-> a <= b.
Proof. apply Qltb_ge. Qed.

Lemma Qle_bool_false a b : Qle_bool a b = false <-> b < a.
Proof.
  rewrite <- not_true_iff_false, Qle_bool_iff.
  split; [apply Qnot_le_lt | apply Qlt_not_le].
Qed.

(** ** Angle normalisation (C4) *)

Section WrapDeg.

Lemma inject_Z_succ_nat (n : nat) :
  inject_Z (Z.of_nat (S n)) == inject_Z (Z.of_nat n) + 1.
Proof.
  rewrite Nat2Z.inj_succ. unfold Z.succ. rewrite inject_Z_plus. reflexivity.
Qed.

Lemma wrapFuel_enough (d : Q) : Qabs d < 360 * inject_Z (Z.of_nat (wrapFuel d)).
Proof.
  unfold wrapFuel.
  assert (H0 : 0 <= Qabs d / 360).
  { apply Qle_shift_div_l; [reflexivity|]. rewrite Qmult_0_l. apply Qabs_nonneg. }
  assert (Hf : (0 <= Qfloor (Qabs d / 360))%Z).
  { change 0%Z with (Qfloor 0). apply Qfloor_resp_le, H0. }
  rewrite inject_Z_succ_nat, Z2Nat.id by exact Hf.
  pose proof (Qlt_floor (Qabs d / 360)) as Hlt.
  rewrite inject_Z_plus in Hlt. change (inject_Z 1) with 1 in Hlt.
  apply (Qmult_lt_compat_r _ _ 360) in Hlt; [|reflexivity].
  assert (E : Qabs d / 360 * 360 == Qabs d) by field.
  rewrite E in Hlt. rewrite Qmult_comm. exact Hlt.
Qed.

(** The first loop leaves once its condition fails: [fuel] iterations are
    enough when [d <= 180 + 360 fuel]. *)
Lemma while_down (fuel : nat) (d : Q) :
  d <= 180 + 360 * inject_Z (Z.of_nat fuel) ->
  let r := while fuel (fun d => Qgtb d 180) (fun d => d - 360) d in
  r <= 180 /\
  (d <= 180 -> r = d) /\
  (180 < d -> -180 < r) /\
  exists k : Z, r == d - 360 * inject_Z k.
Proof.
  revert d. induction fuel as [|fuel IH]; intros d Hd; simpl.
  - change (inject_Z (Z.of_nat 0)) with 0 in Hd.
    repeat split; try lra. exists 0%Z. change (inject_Z 0) with 0. lra.
  - destruct (Qgtb d 180) eqn:E.
    + apply Qgtb_gt in E. rewrite inject_Z_succ_nat in Hd.
      destruct (IH (d - 360)) as (H1 & H2 & H3 & k & H4); [lra|].
      repeat split; try lra.
      * intros _. destruct (Qlt_le_dec 180 (d - 360)) as [Hc|Hc].
        -- auto.
        -- rewrite (H2 Hc). lra.
      * exists (k + 1)%Z. rewrite inject_Z_plus. change (inject_Z 1) with 1. lra.
    + apply Qgtb_le in E. repeat split; try lra.
      exists 0%Z. change (inject_Z 0) with 0. lra.
Qed.

(** The second loop, symmetrically. *)
Lemma while_up (fuel : nat) (d : Q) :
  -180 - 360 * inject_Z (Z.of_nat fuel) <= d ->
  let r := while fuel (fun d => Qltb d (-180)) (fun d => d + 360) d in
  -180 <= r /\
  (-180 <= d -> r = d) /\
  (d < -180 -> r < 180) /\
  exists k : Z, r == d + 360 * inject_Z k.
Proof.
  revert d. induction fuel as [|fuel IH]; intros d Hd; simpl.
  - change (inject_Z (Z.of_nat 0)) with 0 in Hd.
    repeat split; try lra. exists 0%Z. change (inject_Z 0) with 0. lra.
  - destruct (Qltb d (-180)) eqn:E.
    + apply Qltb_lt in E. rewrite inject_Z_succ_nat in Hd.
      destruct (IH (d + 360)) as (H1 & H2 & H3 & k & H4); [lra|].
      repeat split; try lra.
      * intros _. destruct (Qlt_le_dec (d + 360) (-180)) as [Hc|Hc].
        -- auto.
        -- rewrite (H2 Hc). lra.
      * exists (k + 1)%Z. rewrite inject_Z_plus. change (inject_Z 1) with 1. lra.
    + apply Qltb_ge in E. repeat split; try lra.
      exists 0%Z. change (inject_Z 0) with 0. lra.
Qed.

(** What [wrapDeg] returns: a value congruent to its argument modulo 360, in
    [[-180, 180]]; the argument itself when that is in the interval; above
    [-180] when the argument is above [180] and below [180] when it is
    below [-180]. *)
Lemma wrapDeg_spec (d : Q) :
  -180 <= wrapDeg d <= 180 /\
  (-180 <= d <= 180 -> wrapDeg d = d) /\
  (180 < d -> -180 < wrapDeg d) /\
  (d < -180 -> wrapDeg d < 180) /\
  exists k : Z, wrapDeg d == d + 360 * inject_Z k.
Proof.
  unfold wrapDeg.
  pose proof (wrapFuel_enough d) as Hf.
  assert (Hd : d <= 180 + 360 * inject_Z (Z.of_nat (wrapFuel d))).
  { pose proof (Qle_Qabs d). lra. }
  destruct (while_down _ _ Hd) as (A1 & A2 & A3 & k1 & A4).
  set (d1 := while (wrapFuel d) (fun d => Qgtb d 180) (fun d => d - 360) d) in *.
  pose proof (wrapFuel_enough d1) as Hf1.
  assert (Hd1 : -180 - 360 * inject_Z (Z.of_nat (wrapFuel d1)) <= d1).
  { pose proof (Qle_Qabs (- d1)). rewrite Qabs_opp in H. lra. }
  destruct (while_up _ _ Hd1) as (B1 & B2 & B3 & k2 & B4).
  set (r := while (wrapFuel d1) (fun d => Qltb d (-180)) (fun d => d + 360) d1) in *.
  assert (Hr : r <= 180).
  { destruct (Qlt_le_dec d1 (-180)) as [Hc|Hc].
    - specialize (B3 Hc). lra.
    - rewrite (B2 Hc). exact A1. }
  repeat split; try assumption.
  - intros [Hlo Hhi]. rewrite B2; rewrite A2; auto.
  - intros Hgt. specialize (A3 Hgt). rewrite B2; lra.
  - intros Hlt. assert (E : d1 = d) by (apply A2; lra).
    apply B3. rewrite E. exact Hlt.
  - exists (k2 - k1)%Z. unfold Zminus. rewrite inject_Z_plus, inject_Z_opp. lra.
Qed.







End WrapDeg.

(** ** Lists *)

Section Lists.
Context {A : Type}.

Lemma lastn_length (n : nat) (l : list A) :
  length (lastn n l) = Nat.min (length l) n.
Proof. unfold lastn. rewrite length_drop. lia. Qed.

Lemma lastn_all (n : nat) (l : list A) : (length l <= n)%nat -> lastn n l = l.
Proof.
  intros Hl. unfold lastn. replace (length l - n)%nat with 0%nat by lia.
  reflexivity.
Qed.

(** Keeping the last [n] entries, then appending and keeping the last [n]
    again, is keeping the last [n] of the whole. *)
Lemma lastn_app_lastn (n : nat) (l l' : list A) :
  lastn n (lastn n l ++ l') = lastn n (l ++ l').
Proof.
  destruct (Nat.le_gt_cases (length l) n) as [Hl|Hl].
  - rewrite (lastn_all n l Hl). reflexivity.
  - unfold lastn at 1 3. rewrite !length_app, lastn_length.
    replace (Nat.min (length l) n) with n by lia.
    unfold lastn.
    replace (length l + length l' - n)%nat
      with ((length l - n) + (n + length l' - n))%nat by lia.
    rewrite <- drop_drop. f_equal.
    rewrite drop_app_le by lia. reflexivity.
Qed.

Lemma last_drop (k : nat) (l : list A) (d : A) :
  (k < length l)%nat -> List.last (drop k l) d = List.last l d.
Proof.
  revert k. induction l as [|a l IH]; intros k Hk; simpl in Hk; [lia|].
  destruct k as [|k]; [reflexivity|].
  simpl drop. rewrite IH by lia.
  destruct l; [simpl in Hk; lia | reflexivity].
Qed.

Lemma last_lastn (n : nat) (l : list A) (d : A) :
  (0 < n)%nat -> List.last (lastn n l) d = List.last l d.
Proof.
  intros Hn. destruct l as [|a l]; [reflexivity|].
  unfold lastn. apply last_drop. simpl. lia.
Qed.

End Lists.

(** ** State management: what each function leaves alone *)

Section Frames.
Context `{Host}.

Lemma generateCode_eq (s : state) : generateCode s = set_output (currentText s) s.
Proof.
  unfold generateCode, currentText, generateFieldOrientedCode,
    generateRobotOrientedCode, displayCodeOutput.
  destruct (currentMode s); reflexivity.
Qed.

Lemma saveState_history (s : state) :
  (length (history s) <= 20)%nat ->
  history (saveState s) = lastn 20 (history s ++ [takeSnapshot s]).
Proof.
  intros Hl. unfold saveState. simpl.
  destruct (20 <? length (history s ++ [takeSnapshot s]))%nat eqn:E.
  - apply Nat.ltb_lt in E. rewrite length_app in E. simpl in E.
    unfold lastn. rewrite length_app. simpl.
    replace (length (history s) + 1 - 20)%nat with 1%nat by lia. reflexivity.
  - apply Nat.ltb_ge in E. symmetry. apply lastn_all. exact E.
Qed.

Lemma saveState_length (s : state) :
  (length (history s) <= 20)%nat ->
  length (history (saveState s)) = Nat.min (S (length (history s))) 20.
Proof.
  intros Hl. rewrite saveState_history by exact Hl.
  rewrite lastn_length, length_app. simpl. lia.
Qed.

Lemma saveState_bound (s : state) :
  (length (history s) <= 20)%nat -> (length (history (saveState s)) <= 20)%nat.
Proof. intros Hl. rewrite saveState_length by exact Hl. lia. Qed.

(** The newest entry is the snapshot just taken. *)
Lemma saveState_newest (s : state) :
  (length (history s) <= 20)%nat ->
  List.last (map Some (history (saveState s))) None = Some (takeSnapshot s).
Proof.
  intros Hl. rewrite saveState_history by exact Hl.
  unfold lastn. rewrite <- skipn_map, map_app. simpl map.
  rewrite last_drop.
  - apply last_last.
  - rewrite !length_app, length_map. simpl. lia.
Qed.

Lemma saveState_removelast (s : state) :
  (length (history s) <= 20)%nat ->
  removelast (history (saveState s)) = lastn 19 (history s).
Proof.
  intros Hl. rewrite saveState_history by exact Hl.
  unfold lastn. rewrite length_app. simpl length.
  replace (length (history s) + 1 - 20)%nat
    with (length (history s) - 19)%nat by lia.
  rewrite drop_app_le by lia. apply removelast_last.
Qed.

Lemma saveState_model (s : state) :
  waypoints (saveState s) = waypoints s /\
  markers (saveState s) = markers s /\
  nextMarkerId (saveState s) = nextMarkerId s /\
  start (saveState s) = start s /\
  selectedSegmentIdx (saveState s) = selectedSegmentIdx s /\
  currentMode (saveState s) = currentMode s.
Proof. repeat split. Qed.

Lemma saveState_waypoints s : waypoints (saveState s) = waypoints s.
Proof. reflexivity. Qed.

Lemma saveState_selected s : selectedSegmentIdx (saveState s) = selectedSegmentIdx s.
Proof. reflexivity. Qed.

Lemma saveState_mode s : currentMode (saveState s) = currentMode s.
Proof. reflexivity. Qed.

Lemma saveState_start s : start (saveState s) = start s.
Proof. reflexivity. Qed.

Lemma drawWaypoints_length (m : mode) (p : point) (wps : list waypoint) :
  length (drawWaypoints m p wps) = length wps.
Proof.
  revert p. induction wps as [|w wps IH]; intros p; simpl; [reflexivity|].
  rewrite IH. reflexivity.
Qed.

Lemma fieldPoses_frame (ms : list captures) (idx : nat) (s : state) :
  history (fieldPoses ms idx s) = history s /\
  markers (fieldPoses ms idx s) = markers s /\
  selectedSegmentIdx (fieldPoses ms idx s) = selectedSegmentIdx s /\
  currentMode (fieldPoses ms idx s) = currentMode s.
Proof.
  revert idx s. induction ms as [|c ms IH]; intros idx s; simpl; [auto|].
  destruct (IH (S idx)
    (match idx with
     | O => set_start (Pose (captureNum c 1 / 100) (captureNum c 2 / 100)
                            (degToRad (- captureAngle c))) s
     | S _ => set_waypoints
                (fun wps => wps ++ [motionWaypoint (captureNum c 1 / 100)
                                      (captureNum c 2 / 100)
                                      (degToRad (- captureAngle c)) drive (8 # 10)]) s
     end)) as (E1 & E2 & E3 & E4).
  rewrite E1, E2, E3, E4. destruct idx; auto.
Qed.

End Frames.

(** ** What the simulator writes (C8) *)

Section SimulatorFrame.
Context `{Host}.

Lemma cachedFrom_refl (prev : point) (w : waypoint) : cachedFrom prev w w.
Proof. left. reflexivity. Qed.

Lemma cachedFrom_point (prev : point) (w w' : waypoint) :
  cachedFrom prev w w' -> wpPoint w' = wpPoint w.
Proof. intros [->|(_ & _ & ->)]; reflexivity. Qed.

Lemma cachedFrom_trans (prev : point) (w w' w'' : waypoint) :
  cachedFrom prev w w' -> cachedFrom prev w' w'' -> cachedFrom prev w w''.
Proof.
  intros [->|(Ha & Hc & ->)] H2; [exact H2|].
  destruct H2 as [->|(_ & Hc' & _)].
  - right. auto.
  - discriminate Hc'.
Qed.

Lemma cachedPath_refl (prev : point) (l : list waypoint) : cachedPath prev l l.
Proof.
  revert prev. induction l as [|w l IH]; intros prev; constructor;
    auto using cachedFrom_refl.
Qed.

Lemma cachedPath_trans (prev : point) (l l' l'' : list waypoint) :
  cachedPath prev l l' -> cachedPath prev l' l'' -> cachedPath prev l l''.
Proof.
  intros H1. revert l''. induction H1 as [prev|prev w w' l l' Hw Hl IH];
    intros l'' H2.
  - exact H2.
  - inversion H2 as [|? ? w'' ? l0 Hw' Hl']; subst.
    constructor.
    + eapply cachedFrom_trans; eassumption.
    + apply IH. rewrite <- (cachedFrom_point _ _ _ Hw). exact Hl'.
Qed.

Lemma cachedPath_length (prev : point) (l l' : list waypoint) :
  cachedPath prev l l' -> length l' = length l.
Proof. induction 1; simpl; congruence. Qed.

(** Position, heading, kind, speed and action of every waypoint stay. *)
Lemma cachedPath_lookup (prev : point) (l l' : list waypoint) (i : nat) (w' : waypoint) :
  cachedPath prev l l' -> l' !! i = Some w' ->
  exists w, l !! i = Some w /\
    wx w' = wx w /\ wy w' = wy w /\ wh w' = wh w /\
    segmentType w' = segmentType w /\ arcSpeed w' = arcSpeed w /\
    isAction w' = isAction w /\ actionId w' = actionId w /\
    (hasControl w = true \/ isArc w = false -> w' = w).
Proof.
  intros Hp. revert i. induction Hp as [prev|prev w0 w0' l l' Hw Hl IH];
    intros i Hi.
  - destruct i; discriminate.
  - destruct i as [|i]; simpl in Hi.
    + injection Hi as <-. exists w0. split; [reflexivity|].
      destruct Hw as [->|(Ha & Hc & ->)]; simpl.
      * repeat split; auto.
      * repeat split; auto. intros [E|E]; congruence.
    + apply IH. exact Hi.
Qed.

Lemma cachedFrom_draw (m : mode) (prev : point) (w : waypoint) :
  cachedFrom prev w (drawWaypoint m prev w).
Proof.
  unfold drawWaypoint.
  destruct m; [|left; reflexivity].
  destruct (segmentType w) as [[| |]|] eqn:Et; try (left; reflexivity).
  destruct (hasControl w) eqn:Ec; [left; reflexivity|].
  right. unfold isArc. rewrite Et. auto.
Qed.

Lemma cachedPath_draw (m : mode) (prev : point) (l : list waypoint) :
  cachedPath prev l (drawWaypoints m prev l).
Proof.
  revert prev. induction l as [|w l IH]; intros prev; simpl; constructor;
    auto using cachedFrom_draw.
Qed.

(** Caching the control point of waypoint [S j], from waypoint [j]. *)
Lemma cachedPath_alter (prev : point) (l : list waypoint) (j : nat) (a b : waypoint) :
  l !! j = Some a -> l !! S j = Some b ->
  isArc b = true -> hasControl b = false ->
  cachedPath prev l
    (alter (wp_set_arcControlPoint
              (ctrlAt (computeDefaultArcControl (wpPoint a) (wpPoint b)))) (S j) l).
Proof.
  revert prev j. induction l as [|w l IH]; intros prev j Ha Hb Harc Hctl.
  - discriminate.
  - destruct j as [|j]; simpl in Ha, Hb.
    + injection Ha as ->. destruct l as [|w1 l]; [discriminate|].
      simpl in Hb. injection Hb as ->. simpl.
      constructor; [apply cachedFrom_refl|].
      constructor; [|apply cachedPath_refl].
      right. auto.
    + simpl. constructor; [apply cachedFrom_refl|].
      apply IH; assumption.
Qed.

Lemma simulated_refl (s : state) : simulated s s.
Proof. unfold simulated. repeat split. apply cachedPath_refl. Qed.

Lemma simulated_trans (s s' s'' : state) :
  simulated s s' -> simulated s' s'' -> simulated s s''.
Proof.
  unfold simulated.
  intros (A1 & A2 & A3 & A4 & A5 & A6 & A7 & A8 & A9 & A10 & A11)
         (B1 & B2 & B3 & B4 & B5 & B6 & B7 & B8 & B9 & B10 & B11).
  repeat split; try congruence.
  eapply cachedPath_trans; [exact A11|]. rewrite <- A4. exact B11.
Qed.

Lemma simulated_flag (b : bool) (s : state) : simulated s (set_isSimulating b s).
Proof. unfold simulated. simpl. repeat split. apply cachedPath_refl. Qed.

Lemma simulated_draw (s : state) : simulated s (draw s).
Proof. unfold simulated. simpl. repeat split. apply cachedPath_draw. Qed.

Lemma simulated_getArcControlPoint (i : nat) (s : state) :
  simulated s (fst (getArcControlPoint i s)).
Proof.
  unfold getArcControlPoint.
  destruct ((i <? 1)%nat || (length (waypoints s) <=? i)%nat) eqn:Eg;
    [apply simulated_refl|].
  destruct (waypoints s !! i) as [wp|] eqn:Ei; [|apply simulated_refl].
  destruct (isArc wp) eqn:Ea; [|apply simulated_refl].
  destruct (arcControlPoint wp) as [| |c] eqn:Ec; try apply simulated_refl.
  all: destruct i as [|j]; [discriminate Eg|].
  all: destruct (waypoints s !! j) as [a|] eqn:Ej;
    [|apply lookup_ge_None in Ej; apply lookup_lt_Some in Ei; lia].
  all: unfold simulated; simpl; repeat split.
  all: apply (cachedPath_alter _ _ j a wp); auto.
  all: unfold hasControl; rewrite Ec; reflexivity.
Qed.

Lemma simulated_controlPointOf (i : nat) (info : segment) (s : state) :
  simulated s (fst (controlPointOf i info s)).
Proof.
  unfold controlPointOf.
  pose proof (simulated_getArcControlPoint i s) as Hs.
  destruct (getArcControlPoint i s) as [s' [c|]]; exact Hs.
Qed.

Lemma simulated_robotPathPoints (n i : nat) (s : state) :
  simulated s (fst (robotPathPoints n i s)).
Proof.
  revert i s. induction n as [|n IH]; intros i s; simpl; [apply simulated_refl|].
  destruct (segInfo s i) as [info|]; [|apply simulated_refl].
  set (here := match seg_type info, currentMode s with
               | arc, robot =>
                   let '(s', c) := controlPointOf i info s in
                   (s', arcPathPoints info c)
               | _, _ => (s, [posePoint (seg_a info); wpPoint (seg_b info)])
               end).
  assert (Hh : simulated s (fst here)).
  { unfold here. destruct (seg_type info), (currentMode s);
      try apply simulated_refl.
    pose proof (simulated_controlPointOf i info s) as Hc.
    destruct (controlPointOf i info s) as [s' c]. exact Hc. }
  destruct here as [s1 pts]. simpl in Hh.
  specialize (IH (S i) s1).
  destruct (robotPathPoints n (S i) s1) as [s2 rest]. simpl in *.
  eapply simulated_trans; eassumption.
Qed.

Lemma simulated_simulate (s : state) : simulated s (fst (simulate s)).
Proof.
  unfold simulate.
  destruct (isSimulating s); [apply simulated_refl|].
  destruct (pointsLength s <? 2)%nat; [apply simulated_refl|].
  set (s1 := set_isSimulating true s).
  assert (H1 : simulated s s1) by apply simulated_flag.
  destruct (currentMode s1) eqn:Em.
  - pose proof (simulated_robotPathPoints (pointsLength s1 - 1) 0 s1) as Hr.
    destruct (robotPathPoints (pointsLength s1 - 1) 0 s1) as [s2 path].
    cbn [fst] in Hr |- *. exact (simulated_trans _ _ _ H1 Hr).
  - cbn [fst]. exact H1.
Qed.

Lemma simulated_stepField (dt : Q) (s : state) (m : sim) :
  simulated s (fst (stepField dt (s, m))).
Proof.
  unfold stepField.
  destruct (negb (isSimulating s)); [apply simulated_refl|].
  destruct (length (pathPoints m) <=? S (simIndex m))%nat.
  - simpl. eapply simulated_trans; [apply simulated_flag | apply simulated_draw].
  - destruct (Qle_bool _ _); simpl; apply simulated_draw.
Qed.

Lemma simulated_step (dt : Q) (s : state) (m : sim) :
  simulated s (fst (step dt (s, m))).
Proof.
  unfold step.
  destruct (negb (isSimulating s)); [apply simulated_refl|].
  destruct (if (seg m <? pointsLength s - 1)%nat then segInfo s (seg m) else None)
    as [info|].
  2:{ simpl. eapply simulated_trans; [apply simulated_flag | apply simulated_draw]. }
  match goal with
  | |- simulated s (fst (let '(s1, m1) := ?body in _)) =>
      assert (Hb : simulated s (fst body)); [|destruct body as [s1 m1]]
  end.
  { destruct (sim_phase m) as [|[| |]|].
    - destruct (turnTowards _ _ _ _) as [[|] hd];
        [destruct (seg_type info)|]; apply simulated_refl.
    - destruct (afterMotion _ _ _ _); apply simulated_refl.
    - destruct (afterMotion _ _ _ _); apply simulated_refl.
    - pose proof (simulated_controlPointOf (seg m) info s) as Hc.
      destruct (controlPointOf (seg m) info s) as [s' c].
      destruct (afterMotion _ _ _ _). exact Hc.
    - destruct (turnTowards _ _ _ _) as [[|] hd]; apply simulated_refl. }
  simpl in Hb.
  assert (Hd : simulated s (draw s1))
    by (eapply simulated_trans; [exact Hb | apply simulated_draw]).
  destruct (pointsLength (draw s1) - 1 <=? seg m1)%nat; simpl.
  - eapply simulated_trans; [exact Hd | apply simulated_flag].
  - exact Hd.
Qed.

Lemma simulated_frame (s : state) (m : sim) : simulated s (fst (frame (s, m))).
Proof.
  unfold frame. simpl.
  destruct (scheduled m); [|apply simulated_refl].
  destruct (fieldRun m); [apply simulated_stepField | apply simulated_step].
Qed.

Lemma simulated_frames (n : nat) (s : state) (m : sim) :
  simulated s (fst (frames n (s, m))).
Proof.
  revert s m. induction n as [|n IH]; intros s m; simpl; [apply simulated_refl|].
  pose proof (simulated_frame s m) as Hf.
  destruct (frame (s, m)) as [s' m']. simpl in Hf.
  eapply simulated_trans; [exact Hf | apply IH].
Qed.

(** Nothing is cached in a path whose arcs all have their control point. *)
Lemma cachedPath_drawn (m : mode) (prev : point) (l l' : list waypoint) :
  Forall (fun w => isArc w = true -> hasControl w = true) l ->
  cachedPath prev l l' -> l' = l.
Proof.
  intros Hall Hp. induction Hp as [prev|prev w w' l l' Hw Hl IH]; [reflexivity|].
  inversion Hall as [|? ? Hw0 Hl0]; subst.
  rewrite IH by exact Hl0. f_equal.
  destruct Hw as [->|(Ha & Hc & _)]; [reflexivity|].
  rewrite (Hw0 Ha) in Hc. discriminate.
Qed.

End SimulatorFrame.

(** ** Invariants of the sessions *)

Section Invariants.
Context `{Host}.

(** Projections of the states that handlers build. *)
Ltac state_simpl :=
  repeat first
    [ rewrite generateCode_eq
    | progress cbn [history waypoints markers nextMarkerId start
                    selectedSegmentIdx currentMode isSimulating simSpeed
                    arcSamples output alerts
                    set_history set_waypoints set_markers set_nextMarkerId
                    set_start set_selectedSegmentIdx set_currentMode
                    set_isSimulating set_simSpeed set_arcSamples set_output
                    alert draw displayCodeOutput fst snd model running]
    | case_match ].

Ltac unfold_handlers :=
  unfold handleModel, addWaypoint, selectWaypoint, setStartAt, clickMarker,
    addActionAt, dragWaypoint, dragStart, dragHeading, dragStartHeading,
    dragArcControl, changeSegmentType, changeArcSpeed, changeArcSamples,
    changeSimSpeed, deleteSelectedPoint, clearPath, undo, setMode,
    decodeAndVisualize, parseFieldOrientedCode, parseRobotOrientedCode.

Lemma removelast_length_le {A : Type} (l : list A) :
  (length (removelast l) <= length l)%nat.
Proof.
  induction l as [|a [|b l] IH]; simpl in *; lia.
Qed.

Lemma fieldPoses_history ms idx s : history (fieldPoses ms idx s) = history s.
Proof. apply fieldPoses_frame. Qed.

(** *** The history never exceeds twenty entries *)

(** The state in which the decoder runs its parser: snapshot taken, waypoints
    and markers emptied. *)
Lemma parseRobotOrientedCode_frame (code : string) (s : state) :
  history (parseRobotOrientedCode code s) = history s /\
  markers (parseRobotOrientedCode code s) = markers s /\
  selectedSegmentIdx (parseRobotOrientedCode code s) = selectedSegmentIdx s /\
  currentMode (parseRobotOrientedCode code s) = currentMode s.
Proof.
  unfold parseRobotOrientedCode.
  destruct (Qeq_bool (x (start s)) 0 && Qeq_bool (y (start s)) 0
            && Qeq_bool (h (start s)) 0); simpl; auto.
Qed.

(** The decoder either returns at once (blank input), or takes one snapshot
    and leaves the history at that. *)
Lemma decodeAndVisualize_history (code : string) (s : state) :
  history (decodeAndVisualize code s)
  = if (String.length (trim code) =? 0)%nat then history s
    else history (saveState s).
Proof.
  unfold decodeAndVisualize.
  destruct (String.length (trim code) =? 0)%nat; [reflexivity|].
  set (s3 := set_markers _ (set_waypoints _ (saveState s))).
  assert (E3 : history s3 = history (saveState s)) by reflexivity.
  destruct (includes code "Pose2d" || includes code "ArrayList").
  - pose proof (fieldPoses_history (matchAll poseRegex code) 0 s3) as E4.
    fold (parseFieldOrientedCode code s3) in E4.
    destruct (isOrigin _ && _); destruct (_ || _); state_simpl; congruence.
  - destruct (includes code "drivePID" || includes code "strafePID"
              || includes code "turnPID" || includes code "arc(").
    + pose proof (parseRobotOrientedCode_frame code s3) as (E4 & _).
      destruct (isOrigin _ && _); destruct (_ || _); state_simpl; congruence.
    + reflexivity.
Qed.

Lemma handleModel_history_bound (e : event) (s : state) :
  (length (history s) <= 20)%nat ->
  (length (history (handleModel e s)) <= 20)%nat.
Proof.
  intros Hl. pose proof (saveState_bound s Hl) as Hs.
  pose proof (removelast_length_le (history s)) as Hr.
  destruct e;
    try (simpl; rewrite decodeAndVisualize_history; case_match; lia);
    unfold_handlers; state_simpl; try lia.
Qed.

Lemma handle_history_bound (e : event) (ss : session) :
  (length (history (model ss)) <= 20)%nat ->
  (length (history (model (handle e ss))) <= 20)%nat.
Proof.
  intros Hl.
  destruct e;
    try (exact (handleModel_history_bound _ _ Hl)).
  - unfold handle. pose proof (simulated_simulate (model ss)) as (E & _).
    destruct (simulate (model ss)) as [s' [m|]]; simpl in *; congruence.
  - unfold handle. destruct (running ss) as [m|]; [|exact Hl].
    pose proof (simulated_frame (model ss) m) as (E & _).
    destruct (frame (model ss, m)) as [s' m']. simpl in *. congruence.
Qed.

Lemma reachable_history_bound (ss : session) :
  reachable ss -> (length (history (model ss)) <= 20)%nat.
Proof.
  induction 1 as [|e ss _ IH]; [simpl; lia|].
  apply handle_history_bound, IH.
Qed.

(** What the handler of an event other than [Undo] does to the history:
    the push of [saveState] when it gets to its call, nothing otherwise. *)
Lemma handle_history (e : event) (ss : session) :
  e <> Undo ->
  history (model (handle e ss))
  = if takesSnapshot e (model ss) then history (saveState (model ss))
    else history (model ss).
Proof.
  intros Hu.
  destruct e; try contradiction;
    try (cbn [handle model handleModel takesSnapshot];
         rewrite decodeAndVisualize_history;
         destruct (String.length (trim code) =? 0)%nat; reflexivity);
    try (cbn [handle model takesSnapshot]; unfold_handlers; state_simpl;
         reflexivity).
  - unfold handle. cbn [takesSnapshot].
    pose proof (simulated_simulate (model ss)) as (E & _).
    destruct (simulate (model ss)) as [s' [m|]]; simpl in *; congruence.
  - unfold handle. cbn [takesSnapshot].
    destruct (running ss) as [m|]; [|reflexivity].
    pose proof (simulated_frame (model ss) m) as (E & _).
    destruct (frame (model ss, m)) as [s' m']. simpl in *. congruence.
Qed.

(** The history after a run of events without [Undo]: the twenty newest of
    the snapshots it held and those taken, in order. *)
Lemma runEvents_history (es : list event) (ss : session) :
  (length (history (model ss)) <= 20)%nat ->
  Forall (fun e => e <> Undo) es ->
  history (model (runEvents es ss))
  = lastn 20 (history (model ss) ++ taken es ss).
Proof.
  intros Hl Hes. revert ss Hl.
  induction Hes as [|e es He _ IH]; intros ss Hl.
  - cbn [runEvents foldl taken]. rewrite app_nil_r. symmetry.
    apply lastn_all, Hl.
  - change (runEvents (e :: es) ss) with (runEvents es (handle e ss)).
    rewrite (IH (handle e ss) (handle_history_bound e ss Hl)).
    cbn [taken]. rewrite (handle_history e ss He).
    destruct (takesSnapshot e (model ss)); [|reflexivity].
    rewrite saveState_history by exact Hl.
    rewrite lastn_app_lastn, <- app_assoc. reflexivity.
Qed.

(** C7, as amended.  The history of a reachable session never holds more
    than twenty snapshots.  While the events of a list are handled (none of
    them an undo), the history becomes the twenty newest of the snapshots
    it held and those taken by the handlers that call [saveState], in
    order; so once more than twenty were taken it holds exactly twenty,
    all of them from this run: the oldest were evicted first. *)
Theorem history_bound :
  (forall ss : session, reachable ss -> (length (history (model ss)) <= 20)%nat) /\
  (forall (es : list event) (ss : session),
     reachable ss ->
     Forall (fun e => e <> Undo) es ->
     history (model (runEvents es ss))
     = lastn 20 (history (model ss) ++ taken es ss) /\
     ((20 < length (taken es ss))%nat ->
      length (history (model (runEvents es ss))) = 20%nat /\
      history (model (runEvents es ss)) = lastn 20 (taken es ss))).
Proof.
  split; [exact reachable_history_bound|].
  intros es ss Hr Hes.
  pose proof (reachable_history_bound ss Hr) as Hl.
  pose proof (runEvents_history es ss Hl Hes) as E.
  split; [exact E|]. intros Hn. split.
  - rewrite E, lastn_length, length_app. lia.
  - rewrite E. unfold lastn. rewrite length_app.
    replace (length (history (model ss)) + length (taken es ss) - 20)%nat
      with (length (history (model ss)) + (length (taken es ss) - 20))%nat by lia.
    rewrite <- drop_drop, drop_app_length. reflexivity.
Qed.

End Invariants.

(** ** The decoder, the selection and the drawn model *)

Section Selection.
Context `{Host}.

Ltac state_simpl :=
  repeat first
    [ rewrite generateCode_eq
    | progress cbn [history waypoints markers nextMarkerId start
                    selectedSegmentIdx currentMode isSimulating simSpeed
                    arcSamples output alerts
                    set_history set_waypoints set_markers set_nextMarkerId
                    set_start set_selectedSegmentIdx set_currentMode
                    set_isSimulating set_simSpeed set_arcSamples set_output
                    alert draw displayCodeOutput fst snd model running]
    | case_match ].

Ltac unfold_handlers :=
  unfold handleModel, addWaypoint, selectWaypoint, setStartAt, clickMarker,
    addActionAt, dragWaypoint, dragStart, dragHeading, dragStartHeading,
    dragArcControl, changeSegmentType, changeArcSpeed, changeArcSamples,
    changeSimSpeed, deleteSelectedPoint, clearPath, undo, setMode.

(** Where a decode attempt ends: back at the state it started from (blank
    input); or, one snapshot taken, with no waypoint at all; or drawn, with
    the selection on waypoint 0. *)
Lemma decode_shape (code : string) (s : state) :
  let d := decodeAndVisualize code s in
  d = s \/
  (history d = history (saveState s) /\
   currentMode d = currentMode s /\
   (waypoints d = [] \/
    exists X, d = generateCode (draw (set_selectedSegmentIdx (Some O) X)) /\
              currentMode X = currentMode s)).
Proof.
  unfold decodeAndVisualize.
  destruct (String.length (trim code) =? 0)%nat; [left; reflexivity|right].
  set (s3 := set_markers _ (set_waypoints _ (saveState s))).
  assert (finish : forall s4 : state,
            history s4 = history s3 -> currentMode s4 = currentMode s3 ->
            let s5 := if isOrigin (start s4) && negb (isOrigin (start s))
                      then set_start (start s) s4 else s4 in
            let d := if (0 <? length (waypoints s5))%nat || negb (isOrigin (start s5))
                     then generateCode (draw (set_selectedSegmentIdx (Some O) s5))
                     else alert "No waypoints found in the code." s5 in
            history d = history (saveState s) /\
            currentMode d = currentMode s /\
            (waypoints d = [] \/
             exists X, d = generateCode (draw (set_selectedSegmentIdx (Some O) X)) /\
                       currentMode X = currentMode s)).
  { intros s4 E1 E2 s5 d.
    assert (E5 : history s5 = history s3 /\ currentMode s5 = currentMode s3).
    { unfold s5. destruct (isOrigin (start s4) && _); simpl; auto. }
    destruct E5 as [E5 E6]. unfold d.
    destruct ((0 <? length (waypoints s5))%nat) eqn:El; simpl orb.
    - rewrite generateCode_eq. simpl. repeat split; try assumption.
      right. exists s5. rewrite generateCode_eq. auto.
    - destruct (negb (isOrigin (start s5))).
      + rewrite generateCode_eq. simpl. repeat split; try assumption.
        right. exists s5. rewrite generateCode_eq. auto.
      + simpl. repeat split; try assumption. left.
        apply Nat.ltb_ge in El. destruct (waypoints s5); [reflexivity|].
        simpl in El. lia. }
  destruct (includes code "Pose2d" || includes code "ArrayList").
  - apply finish; apply fieldPoses_frame.
  - destruct (includes code "drivePID" || includes code "strafePID"
              || includes code "turnPID" || includes code "arc(").
    + apply finish; apply parseRobotOrientedCode_frame.
    + simpl. auto.
Qed.

(** *** Drawn models *)

Lemma drawWaypoints_drawn (m : mode) (p : point) (l : list waypoint) :
  Forall (drawnWaypoint m) (drawWaypoints m p l).
Proof.
  revert p. induction l as [|w l IH]; intros p; simpl; constructor; [|apply IH].
  unfold drawnWaypoint, drawWaypoint. intros -> Ha.
  destruct (segmentType w) as [[| |]|] eqn:Et;
    try (unfold isArc in Ha; rewrite Et in Ha; discriminate).
  destruct (hasControl w) eqn:Ec; [exact Ec | reflexivity].
Qed.

Lemma drawn_draw (s : state) : drawn (draw s).
Proof. unfold drawn. simpl. apply drawWaypoints_drawn. Qed.

(** Drawing a drawn model changes nothing. *)
Lemma drawWaypoints_id (m : mode) (p : point) (l : list waypoint) :
  Forall (drawnWaypoint m) l -> drawWaypoints m p l = l.
Proof.
  intros Hl. revert p. induction Hl as [|w l Hw _ IH]; intros p; simpl;
    [reflexivity|].
  rewrite IH. f_equal. unfold drawWaypoint, drawnWaypoint in *.
  destruct m; [|reflexivity].
  destruct (segmentType w) as [[| |]|] eqn:Et; try reflexivity.
  rewrite Hw; [reflexivity | reflexivity |].
  unfold isArc. rewrite Et. reflexivity.
Qed.

Lemma drawn_alter (f : waypoint -> waypoint) (m : mode) (i : nat) (l : list waypoint) :
  (forall w, isArc (f w) = isArc w /\ hasControl (f w) = hasControl w) ->
  Forall (drawnWaypoint m) l -> Forall (drawnWaypoint m) (alter f i l).
Proof.
  intros Hf Hl. apply Forall_alter; [exact Hl|].
  intros w _ Hw. unfold drawnWaypoint in *. destruct (Hf w) as [-> ->]. exact Hw.
Qed.

Lemma handleModel_drawn (e : event) (s : state) :
  drawn s -> drawn (handleModel e s).
Proof.
  intros Hd. destruct e;
    try (simpl; destruct (decode_shape code s) as [->|(_ & Em & [E|(X & -> & _)])];
         [exact Hd
         | unfold drawn; rewrite E; constructor
         | rewrite generateCode_eq; apply drawn_draw]);
    unfold_handlers; state_simpl; unfold drawn; state_simpl;
    try assumption; try apply drawWaypoints_drawn.
  apply drawn_alter; [intros ?; split; reflexivity | exact Hd].
Qed.

Lemma cachedPath_keeps_drawn (m : mode) (p : point) (l l' : list waypoint) :
  cachedPath p l l' -> Forall (drawnWaypoint m) l -> Forall (drawnWaypoint m) l'.
Proof.
  intros Hp. induction Hp as [p|p w w' l l' Hw Hl IH]; intros Hd; [constructor|].
  inversion Hd as [|? ? Hw0 Hl0]; subst. constructor; [|apply IH, Hl0].
  destruct Hw as [->|(Ha & Hc & ->)]; [exact Hw0|].
  unfold drawnWaypoint. intros _ _. reflexivity.
Qed.

Lemma simulated_drawn (s s' : state) : simulated s s' -> drawn s -> drawn s'.
Proof.
  unfold simulated. intros (_ & _ & _ & _ & _ & Em & _ & _ & _ & _ & Hp) Hd.
  unfold drawn in *. rewrite Em.
  eapply cachedPath_keeps_drawn; eassumption.
Qed.

Lemma handle_drawn (e : event) (ss : session) :
  drawn (model ss) -> drawn (model (handle e ss)).
Proof.
  intros Hd.
  destruct e; try (exact (handleModel_drawn _ _ Hd)).
  - unfold handle. pose proof (simulated_simulate (model ss)) as Hs.
    destruct (simulate (model ss)) as [s' [m|]]; simpl in *;
      eapply simulated_drawn; eassumption.
  - unfold handle. destruct (running ss) as [m|]; [|exact Hd].
    pose proof (simulated_frame (model ss) m) as Hs.
    destruct (frame (model ss, m)) as [s' m']. simpl in *.
    eapply simulated_drawn; eassumption.
Qed.

Lemma reachable_drawn (ss : session) : reachable ss -> drawn (model ss).
Proof.
  induction 1 as [|e ss _ IH]; [constructor|].
  apply handle_drawn, IH.
Qed.

End Selection.

(** ** Undo after decode (C10), the selection (C9), unrecognised text (C1) *)

Section UndoDecode.
Context `{Host}.

Ltac state_simpl :=
  repeat first
    [ rewrite generateCode_eq
    | progress cbn [history waypoints markers nextMarkerId start
                    selectedSegmentIdx currentMode isSimulating simSpeed
                    arcSamples output alerts
                    set_history set_waypoints set_markers set_nextMarkerId
                    set_start set_selectedSegmentIdx set_currentMode
                    set_isSimulating set_simSpeed set_arcSamples set_output
                    alert draw displayCodeOutput fst snd model running
                    takeSnapshot snap_waypoints snap_markers snap_start
                    snap_selectedSegmentIdx]
    | case_match ].

Ltac unfold_handlers :=
  unfold handleModel, addWaypoint, selectWaypoint, setStartAt, clickMarker,
    addActionAt, dragWaypoint, dragStart, dragHeading, dragStartHeading,
    dragArcControl, changeSegmentType, changeArcSpeed, changeArcSamples,
    changeSimSpeed, deleteSelectedPoint, clearPath, undo, setMode.

(** What [undo] restores when the newest snapshot is [st]. *)
Lemma undo_newest (s : state) (st : snapshot) :
  List.last (map Some (history s)) None = Some st ->
  waypoints (undo s)
    = drawWaypoints (currentMode s) (posePoint (snap_start st)) (snap_waypoints st) /\
  markers (undo s) = snap_markers st /\
  start (undo s) = snap_start st /\
  selectedSegmentIdx (undo s) = snap_selectedSegmentIdx st /\
  history (undo s) = removelast (history s).
Proof.
  intros E. unfold undo. rewrite E. rewrite generateCode_eq. simpl. auto.
Qed.

(** C10.  In a reachable session, a decode attempt on a text that is not
    blank pushes exactly one snapshot, that of the waypoints, markers,
    start and selection it found (the oldest entry leaving a full
    history), whatever the outcome of the attempt; and one [undo] after it
    brings back those waypoints, markers, start and selection. *)
Theorem undo_after_decode (ss : session) (code : string) :
  reachable ss ->
  (String.length (trim code) =? 0)%nat = false ->
  let s := model ss in
  let d := decodeAndVisualize code s in
  history d = lastn 20 (history s ++ [takeSnapshot s]) /\
  waypoints (undo d) = waypoints s /\
  markers (undo d) = markers s /\
  start (undo d) = start s /\
  selectedSegmentIdx (undo d) = selectedSegmentIdx s.
Proof.
  intros Hr Hb s d.
  pose proof (reachable_history_bound ss Hr) as Hl. fold s in Hl.
  pose proof (reachable_drawn ss Hr) as Hd. fold s in Hd.
  assert (Eh : history d = history (saveState s)).
  { unfold d. rewrite decodeAndVisualize_history, Hb. reflexivity. }
  assert (Em : currentMode d = currentMode s).
  { destruct (decode_shape code s) as [E|(_ & E & _)]; fold d in E;
      [rewrite E|]; auto. }
  split; [rewrite Eh; apply saveState_history, Hl|].
  destruct (undo_newest d (takeSnapshot s)) as (Ew & Emk & Es & Esel & _).
  { rewrite Eh. apply saveState_newest, Hl. }
  rewrite Ew, Emk, Es, Esel, Em. simpl.
  split; [|auto]. apply drawWaypoints_id, Hd.
Qed.

(** *** The selection *)

Lemma snapshotOk_saveState (s : state) :
  selectionInv s -> Forall snapshotOk (history (saveState s)).
Proof.
  intros [Hs Hh]. unfold saveState. simpl.
  assert (Hp : Forall snapshotOk (history s ++ [takeSnapshot s])).
  { apply Forall_app. split; [exact Hh|]. constructor; [exact Hs|constructor]. }
  destruct (20 <? _)%nat; [apply Forall_drop|]; exact Hp.
Qed.

Lemma Forall_removelast {A : Type} (P : A -> Prop) (l : list A) :
  Forall P l -> Forall P (removelast l).
Proof.
  induction 1 as [|a l Ha Hl IH]; simpl; [constructor|].
  destruct l; [constructor|]. constructor; assumption.
Qed.

Lemma last_Some_In {A : Type} (l : list A) (a : A) :
  List.last (map Some l) None = Some a -> In a l.
Proof.
  induction l as [|b l IH]; simpl; [discriminate|].
  destruct l as [|c l].
  - simpl. intros [= ->]. auto.
  - intros E. right. apply IH. exact E.
Qed.

Lemma spliceIn_length (i : nat) (w : waypoint) (l : list waypoint) :
  length (spliceIn i w l) = S (length l).
Proof.
  unfold spliceIn. rewrite length_app. simpl.
  rewrite length_take, length_drop. lia.
Qed.

Ltac sel_lengths :=
  unfold selectionInRange in *;
  repeat match goal with
         | E : selectedSegmentIdx _ = _ |- _ => rewrite E in *; clear E
         end;
  repeat rewrite ?drawWaypoints_length, ?length_alter, ?length_app,
    ?spliceIn_length;
  simpl length;
  first [ lia | exact I | assumption
        | match goal with
          | |- match ?sel with _ => _ end =>
              destruct sel; first [lia | exact I]
          end ].

Lemma handleModel_selection (e : event) (s : state) :
  (forall code, e <> DecodeAndVisualize code) ->
  selectionInv s -> selectionInv (handleModel e s).
Proof.
  intros Hne Hinv.
  pose proof (snapshotOk_saveState s Hinv) as Hsave.
  destruct Hinv as [Hs Hh]. unfold selectionOk in Hs.
  pose proof (Forall_removelast _ _ Hh) as Hrem.
  destruct e; try (exfalso; eapply Hne; reflexivity);
    unfold_handlers; state_simpl;
    unfold selectionInv, selectionOk; state_simpl;
    rewrite ?saveState_waypoints, ?saveState_selected, ?saveState_mode,
      ?saveState_start;
    (split; [|assumption]);
    repeat match goal with
           | E : _ !! _ = Some _ |- _ => apply lookup_lt_Some in E
           end;
    try (sel_lengths; fail).
  (* undo: the restored snapshot is one of the history *)
  match goal with
  | E : List.last (map Some (history s)) None = Some ?st |- _ =>
      apply last_Some_In in E;
      pose proof (proj1 (List.Forall_forall _ _) Hh _ E) as Hst;
      unfold snapshotOk in Hst
  end.
  sel_lengths.
Qed.

End UndoDecode.

Section SelectionTheorem.
Context `{Host}.

Lemma simulated_selection (s s' : state) :
  simulated s s' -> selectionInv s -> selectionInv s'.
Proof.
  unfold simulated.
  intros (Eh & _ & _ & _ & Es & _ & _ & _ & _ & _ & Hp) [Hs Hh].
  split; [|rewrite Eh; exact Hh].
  unfold selectionOk, selectionInRange in *. rewrite Es.
  rewrite (cachedPath_length _ _ _ Hp). exact Hs.
Qed.

Lemma handle_selection (e : event) (ss : session) :
  (forall code, e <> DecodeAndVisualize code) ->
  selectionInv (model ss) -> selectionInv (model (handle e ss)).
Proof.
  intros Hne Hinv.
  destruct e; try (exact (handleModel_selection _ _ Hne Hinv)).
  - unfold handle. pose proof (simulated_simulate (model ss)) as Hs.
    destruct (simulate (model ss)) as [s' [m|]]; simpl in *;
      eapply simulated_selection; eassumption.
  - unfold handle. destruct (running ss) as [m|]; [|exact Hinv].
    pose proof (simulated_frame (model ss) m) as Hs.
    destruct (frame (model ss, m)) as [s' m']. simpl in *.
    eapply simulated_selection; eassumption.
Qed.

Lemma decode_selection (code : string) (s : state) :
  selectionInv s ->
  waypoints (decodeAndVisualize code s) <> [] ->
  selectionInv (decodeAndVisualize code s).
Proof.
  intros Hinv Hne.
  pose proof (snapshotOk_saveState s Hinv) as Hsave.
  destruct (decode_shape code s) as [E|(Eh & _ & [E|(X & E & _)])].
  - rewrite E. exact Hinv.
  - contradiction.
  - split; [|rewrite Eh; exact Hsave].
    unfold selectionOk. rewrite E in Hne |- *.
    rewrite generateCode_eq in Hne |- *. simpl in Hne |- *.
    destruct (drawWaypoints _ _ _); [contradiction|simpl; lia].
Qed.

Lemma deleteSelectedPoint_clears (s : state) (i : nat) (w : waypoint) :
  selectedSegmentIdx s = Some i -> waypoints s !! i = Some w ->
  selectedSegmentIdx (deleteSelectedPoint s) = None /\
  length (waypoints (deleteSelectedPoint s)) = Nat.pred (length (waypoints s)).
Proof.
  intros Es Ew. unfold deleteSelectedPoint. rewrite Es, Ew.
  rewrite generateCode_eq. simpl. split; [reflexivity|].
  rewrite drawWaypoints_length, length_delete by eauto. lia.
Qed.

(** C9, as amended.  From a state in which the selection, and the selection
    of every snapshot, is [null] or an index of its waypoints, every event
    other than a decode leads to such a state again (add, select, move,
    retype, delete, clear, undo, mode and simulation events); a decode does
    when it leaves at least one waypoint; and deleting the selected
    waypoint clears the selection. *)
Theorem selection_invariant :
  (forall (e : event) (ss : session),
     (forall code, e <> DecodeAndVisualize code) ->
     selectionInv (model ss) -> selectionInv (model (handle e ss))) /\
  (forall (code : string) (s : state),
     selectionInv s ->
     waypoints (decodeAndVisualize code s) <> [] ->
     selectionInv (decodeAndVisualize code s)) /\
  (forall (s : state) (i : nat) (w : waypoint),
     selectedSegmentIdx s = Some i -> waypoints s !! i = Some w ->
     selectedSegmentIdx (deleteSelectedPoint s) = None /\
     length (waypoints (deleteSelectedPoint s))
     = Nat.pred (length (waypoints s))).
Proof.
  split; [exact handle_selection|].
  split; [exact decode_selection | exact deleteSelectedPoint_clears].
Qed.

End SelectionTheorem.

(** The amended C9 on samples: a waypoint added to the initial session, a
    robot-oriented text decoded over one waypoint, and that waypoint
    deleted. *)
Lemma selection_invariant_witness :
  selectionInv (model (@handle refHost (AddWaypoint (Point 1 0)) initialSession)) /\
  selectionInv (@decodeAndVisualize refHost "drivePID(2.00, 90);" Sample.oneWaypoint) /\
  selectedSegmentIdx (@deleteSelectedPoint refHost Sample.oneWaypoint) = None.
Proof.
  destruct (@selection_invariant refHost) as (A & B & C).
  assert (I0 : selectionInv initialState) by (split; [exact I | constructor]).
  assert (I1 : selectionInv Sample.oneWaypoint).
  { apply (A (AddWaypoint (Point 1 0)) initialSession); [discriminate | exact I0]. }
  split; [|split].
  - apply A; [discriminate | exact I0].
  - apply B; [exact I1 | vm_compute; discriminate].
  - eapply C; vm_compute; reflexivity.
Defined.

(** C9 as stated fails for decode.  Over one selected waypoint, a text of
    neither grammar empties the waypoints and leaves the selection on
    index 0; a field-oriented text with a single pose sets the start and
    selects index 0 of no waypoint at all. *)
Lemma selection_dangles_after_decode :
  selectionInv Sample.oneWaypoint /\
  ~ selectionOk (@decodeAndVisualize refHost "hello" Sample.oneWaypoint) /\
  ~ selectionOk (@decodeAndVisualize refHost
                   "new Pose2d(10.0, 0.0, Rotation2d.fromDegrees(0))" initialState).
Proof.
  split; [|split].
  - split; [vm_compute; lia | vm_compute; repeat constructor].
  - unfold selectionOk, selectionInRange. vm_compute. lia.
  - unfold selectionOk, selectionInRange. vm_compute. lia.
Qed.

(** The witness of C10: in the session with a marker, a recognised and an
    unrecognised text are decoded, then undone. *)
Lemma undo_after_decode_witness :
  let s := model (Sample.run [AddWaypoint (Point 1 0)]) in
  waypoints (@undo refHost (@decodeAndVisualize refHost "hello" s)) = waypoints s /\
  selectedSegmentIdx
    (@undo refHost (@decodeAndVisualize refHost "drivePID(2.00, 90);" s))
  = selectedSegmentIdx s.
Proof.
  assert (R : @reachable refHost (Sample.run [AddWaypoint (Point 1 0)])).
  { apply (@reachable_handle refHost), (@reachable_initial refHost). }
  split.
  - apply (@undo_after_decode refHost _ "hello" R). reflexivity.
  - apply (@undo_after_decode refHost _ "drivePID(2.00, 90);" R). reflexivity.
Defined.

(** The witness of C7: the bound after one event, and twenty-one clicks
    that each add a waypoint. *)
Lemma history_bound_witness :
  (length (history (model (Sample.run [AddWaypoint (Point 1 0)]))) <= 20)%nat /\
  length (history (model (@runEvents refHost
                             (replicate 21 (AddWaypoint (Point 1 0)))
                             initialSession)))
  = 20%nat.
Proof.
  destruct (@history_bound refHost) as [A B].
  split.
  - apply A. apply (@reachable_handle refHost), (@reachable_initial refHost).
  - assert (Hr : @reachable refHost initialSession)
      by apply (@reachable_initial refHost).
    assert (Hes : Forall (fun e => e <> Undo)
                    (replicate 21 (AddWaypoint (Point 1 0))))
      by (apply Forall_replicate; discriminate).
    assert (Hn : (20 < length (@taken refHost
                                 (replicate 21 (AddWaypoint (Point 1 0)))
                                 initialSession))%nat)
      by (vm_compute; lia).
    exact (proj1 (proj2 (B _ _ Hr Hes) Hn)).
Defined.

(** C7 as stated fails for moves.  The operator adds one waypoint and then
    moves it twenty-one times, each time pressing the mouse on it and
    dragging it to a new place: twenty-one mutations of the path, and the
    history holds the one snapshot of the click that added the waypoint.
    Neither [mousedown] on a waypoint nor [mousemove] calls [saveState]. *)
Lemma moves_take_no_snapshot :
  let moves :=
    flat_map (fun k => [SelectWaypoint 0;
                        DragWaypoint 0 (Point (inject_Z (Z.of_nat k)) 0)])
             (seq 1 21) in
  let ss := @runEvents refHost (AddWaypoint (Point 0 0) :: moves) initialSession in
  length moves = 42%nat /\
  map wpPoint (waypoints (model ss)) = [Point 21 0] /\
  length (history (model ss)) = 1%nat /\
  ~ length (history (model ss)) = 20%nat.
Proof.
  vm_compute. repeat split. discriminate.
Qed.

(** C1 on a failing input.  The model has a waypoint, an action waypoint and
    a marker; the text ["hello world"] is of neither grammar.  The decoder
    reports the unrecognised format, and by then it has emptied the
    waypoints and the markers (the start is kept, and one snapshot was
    pushed): the clear comes before the format is sniffed. *)
Theorem decode_unrecognized_clears :
  let s := Sample.withMarker in
  let d := @decodeAndVisualize refHost "hello world" s in
  length (waypoints s) = 2%nat /\ length (markers s) = 1%nat /\
  alerts d = [unableToDetect] /\
  waypoints d = [] /\ markers d = [] /\
  start d = start s /\
  length (history d) = S (length (history s)).
Proof. vm_compute. repeat split. Qed.

Section Unrecognized.
Context `{Host}.

(** In general: a text that is not blank and contains none of the tokens the
    decoder looks for leaves the state of [saveState] with the waypoints
    and markers emptied and the alert raised. *)
Lemma decode_unrecognized (code : string) (s : state) :
  (String.length (trim code) =? 0)%nat = false ->
  includes code "Pose2d" || includes code "ArrayList" = false ->
  includes code "drivePID" || includes code "strafePID"
    || includes code "turnPID" || includes code "arc(" = false ->
  decodeAndVisualize code s
  = alert unableToDetect
      (set_markers (fun _ => []) (set_waypoints (fun _ => []) (saveState s))).
Proof.
  intros Hb Hf Hr. unfold decodeAndVisualize. rewrite Hb, Hf, Hr. reflexivity.
Qed.

End Unrecognized.

(** ** The robot-oriented generator (C3, C5) *)

Section RobotGenerator.
Context `{Host}.

(** C3, as amended.  The robot-oriented program always opens with the fixed
    statement [turnPID(0)], the heading of the origin the program is
    relative to, whatever the start pose is: the start heading is not
    read. *)
Theorem robot_program_opens_with_turn_zero (s : state) :
  (exists rest,
     robotCommands s = turnPID 0 " // face start heading" :: rest) /\
  (exists rest,
     robotOrientedText s
     = robotHeader +:+ "turnPID(0); // face start heading" +:+ nl +:+ rest).
Proof.
  split.
  - eexists. reflexivity.
  - exists (renderAll (pathCommands (arcSamples s) (markers s)
                         (posePoint (start s)) (waypoints s))).
    reflexivity.
Qed.





End RobotGenerator.


(** C3 as stated fails on a start that faces 90 degrees: the program still
    opens with a turn to 0. *)
Lemma opening_turn_ignores_start_heading :
  Math_round (radToDeg (- h (start Sample.turnedStart))) = 90%Z /\
  head (@robotCommands refHost Sample.turnedStart)
  = Some (turnPID 0 " // face start heading") /\
  head (@robotCommands refHost Sample.turnedStart)
  <> Some (turnPID (Math_round (radToDeg (- h (start Sample.turnedStart))))
                   " // face start heading").
Proof.
  split; [vm_compute; reflexivity|].
  split; [reflexivity|].
  vm_compute. discriminate.
Qed.


(** ** The simulator's transition after a motion phase (C6) *)

Section SimulatorTransition.
Context `{Host}.




(** *** Field-mode runs and drawn models write nothing *)

Lemma drawWaypoints_field (p : point) (l : list waypoint) :
  drawWaypoints field p l = l.
Proof.
  revert p. induction l as [|w l IH]; intros p; simpl; [|rewrite IH]; reflexivity.
Qed.

Lemma stepField_field (dt : Q) (s : state) (m : sim) :
  currentMode s = field ->
  let r := stepField dt (s, m) in
  waypoints (fst r) = waypoints s /\ currentMode (fst r) = field /\
  fieldRun (snd r) = fieldRun m.
Proof.
  intros Em. unfold stepField.
  destruct (negb (isSimulating s)); [simpl; auto|].
  destruct (length (pathPoints m) <=? S (simIndex m))%nat.
  - simpl. rewrite Em, drawWaypoints_field. auto.
  - destruct (Qle_bool _ _); simpl; rewrite Em, drawWaypoints_field; auto.
Qed.

Lemma frames_field (n : nat) (s : state) (m : sim) :
  currentMode s = field -> fieldRun m = true ->
  waypoints (fst (frames n (s, m))) = waypoints s.
Proof.
  revert s m. induction n as [|n IH]; intros s m Em Ef; [reflexivity|].
  cbn [frames]. unfold frame. cbn [snd].
  destruct (scheduled m); [|apply IH; assumption].
  rewrite Ef.
  destruct (stepField_field 16 s m Em) as (Ew & Em' & Ef').
  destruct (stepField 16 (s, m)) as [s' m']. cbn [fst snd] in *.
  rewrite IH; [exact Ew | exact Em' | congruence].
Qed.

Lemma simulation_field (n : nat) (s : state) :
  currentMode s = field -> waypoints (simulation n s) = waypoints s.
Proof.
  intros Em. unfold simulation, simulate.
  destruct (isSimulating s); [reflexivity|].
  destruct (pointsLength s <? 2)%nat; [reflexivity|].
  cbv zeta. change (currentMode (set_isSimulating true s)) with (currentMode s).
  rewrite Em. cbv iota beta.
  rewrite frames_field; auto.
Qed.

(** A simulation of any number of frames leaves the start pose, the
    markers, the history, the selection, the mode and the settings as they
    were, and position, heading, kind and speed of every waypoint; the one
    thing it can write is the default control point of an arc waypoint
    that has none, and a drawn model has no such waypoint. *)
Lemma simulation_writes_only_cache (n : nat) (s : state) :
  simulated s (simulation n s) /\
  (drawn s -> waypoints (simulation n s) = waypoints s).
Proof.
  assert (Hs : simulated s (simulation n s)).
  { unfold simulation.
    pose proof (simulated_simulate s) as Hs.
    destruct (simulate s) as [s' [m|]]; simpl in Hs; [|exact Hs].
    eapply simulated_trans; [exact Hs | apply simulated_frames]. }
  split; [exact Hs|].
  intros Hd. destruct (currentMode s) eqn:Em.
  - destruct Hs as (_ & _ & _ & _ & _ & _ & _ & _ & _ & _ & Hp).
    eapply (cachedPath_drawn robot); [|exact Hp].
    unfold drawn in Hd. rewrite Em in Hd.
    eapply Forall_impl; [exact Hd|].
    intros w Hw. apply Hw. reflexivity.
  - apply simulation_field, Em.
Qed.

(** C8.  The simulator reads the path model of the editor and writes
    nothing to it: in every session the page can be in, a run of
    [simulate()] followed by any number of frames leaves the start pose,
    every waypoint with all its fields (the cached control point of an arc
    included) and the markers exactly as they were, and the history, the
    selection and the mode too.  (Every arc of a reachable session already
    has the control point the simulator would cache.) *)
Theorem simulation_reads_only (ss : session) (n : nat) :
  reachable ss ->
  let s' := simulation n (model ss) in
  start s' = start (model ss) /\
  waypoints s' = waypoints (model ss) /\
  markers s' = markers (model ss) /\
  history s' = history (model ss) /\
  selectedSegmentIdx s' = selectedSegmentIdx (model ss) /\
  currentMode s' = currentMode (model ss).
Proof.
  intros Hr s'.
  destruct (simulation_writes_only_cache n (model ss)) as [Hs Hw].
  destruct Hs as (Eh & Em & _ & Es & Esel & Emode & _).
  specialize (Hw (reachable_drawn ss Hr)).
  unfold s'. repeat split; assumption.
Qed.

End SimulatorTransition.

(** C8 on the sample path with an arc, for a run of thirty frames. *)
Lemma simulation_reads_only_witness :
  waypoints (@simulation refHost 30 Sample.withArc) = waypoints Sample.withArc.
Proof.
  assert (Hr : @reachable refHost
                 (Sample.run [AddWaypoint (Point 1 0); AddWaypoint (Point 1 1);
                              ChangeSegmentType arc])).
  { unfold Sample.run. cbn [foldl].
    repeat apply (@reachable_handle refHost). apply (@reachable_initial refHost). }
  exact (proj1 (proj2 (@simulation_reads_only refHost _ 30 Hr))).
Defined.



(** ** Text: appending, digits, decimal literals *)

Section TextLemmas.

(** Appending to a string that starts with a character computes. *)
Local Arguments String.append !_ _ : simpl nomatch.

Lemma append_assoc (a b c : string) : (a +:+ b) +:+ c = a +:+ (b +:+ c).
Proof. induction a as [|ch a IH]; simpl; [|rewrite IH]; reflexivity. Qed.

Lemma append_nil_r (a : string) : a +:+ "" = a.
Proof. induction a as [|ch a IH]; simpl; [|rewrite IH]; reflexivity. Qed.

Lemma length_append (a b : string) :
  String.length (a +:+ b) = (String.length a + String.length b)%nat.
Proof. induction a as [|ch a IH]; simpl; [|rewrite IH]; reflexivity. Qed.

Lemma substring_append (a b : string) : substring 0 (String.length a) (a +:+ b) = a.
Proof. induction a as [|ch a IH]; simpl; [destruct b|rewrite IH]; reflexivity. Qed.

(** What the matcher records for a group that consumed [a]. *)
Lemma consumed_append (a b : string) : consumed (a +:+ b) b = a.
Proof.
  unfold consumed. rewrite length_append.
  replace (String.length a + String.length b - String.length b)%nat
    with (String.length a) by lia.
  apply substring_append.
Qed.

Lemma allChars_append (p : ascii -> bool) (a b : string) :
  allChars p (a +:+ b) = allChars p a && allChars p b.
Proof.
  induction a as [|ch a IH]; simpl; [reflexivity|].
  rewrite IH, andb_assoc. reflexivity.
Qed.

Lemma digitVal_digitChar (d : Z) : (0 <= d < 10)%Z -> digitVal (digitChar d) = d.
Proof.
  intros Hd. unfold digitVal, digitChar.
  rewrite nat_ascii_embedding by lia. lia.
Qed.

Lemma is_digit_digitChar (d : Z) : (0 <= d < 10)%Z -> is_digit (digitChar d) = true.
Proof.
  intros Hd. unfold is_digit, digitChar.
  rewrite nat_ascii_embedding by lia.
  apply andb_true_intro. split; apply Nat.leb_le; lia.
Qed.

Lemma digitsAcc_step (g : nat) (n : Z) (acc : string) :
  digitsAcc (S g) n acc
  = if (n <? 10)%Z then String (digitChar (n mod 10)) acc
    else digitsAcc g (n / 10) (String (digitChar (n mod 10)) acc).
Proof. reflexivity. Qed.

(** The digits [digitsAcc] puts in front of its accumulator. *)
Lemma digitsAcc_spec (f : nat) (n : Z) (tail : string) :
  (0 <= n < 10 ^ Z.of_nat (S f))%Z ->
  exists ds,
    digitsAcc (S f) n tail = ds +:+ tail /\
    allChars is_digit ds = true /\ ds <> EmptyString /\
    forall a, valueFrom a ds = (a * 10 ^ Z.of_nat (String.length ds) + n)%Z.
Proof.
  revert n tail. induction f as [|f IH]; intros n tail Hn.
  - change (10 ^ Z.of_nat 1)%Z with 10%Z in Hn.
    exists (String (digitChar n) EmptyString).
    rewrite digitsAcc_step. replace (n <? 10)%Z with true by (symmetry; apply Z.ltb_lt; lia).
    rewrite Z.mod_small by lia.
    split; [reflexivity|]. split; [cbn [allChars]; rewrite is_digit_digitChar by lia; reflexivity|].
    split; [discriminate|]. intros a. cbn [valueFrom String.length].
    rewrite digitVal_digitChar by lia. lia.
  - rewrite digitsAcc_step. destruct (n <? 10)%Z eqn:E.
    + apply Z.ltb_lt in E.
      exists (String (digitChar n) EmptyString).
      rewrite Z.mod_small by lia.
      split; [reflexivity|]. split; [cbn [allChars]; rewrite is_digit_digitChar by lia; reflexivity|].
      split; [discriminate|]. intros a. cbn [valueFrom String.length].
      rewrite digitVal_digitChar by lia. lia.
    + apply Z.ltb_ge in E.
      assert (Hq : (0 <= n / 10 < 10 ^ Z.of_nat (S f))%Z).
      { split; [apply Z.div_pos; lia|].
        apply Z.div_lt_upper_bound; [lia|].
        replace (10 * 10 ^ Z.of_nat (S f))%Z with (10 ^ Z.of_nat (S (S f)))%Z; [lia|].
        rewrite (Nat2Z.inj_succ (S f)), Z.pow_succ_r by lia. reflexivity. }
      destruct (IH (n / 10)%Z (String (digitChar (n mod 10)) tail) Hq)
        as (ds & Eds & Hall & Hne & Hval).
      pose proof (Z.mod_pos_bound n 10 ltac:(lia)) as Hm.
      exists (ds +:+ String (digitChar (n mod 10)) EmptyString).
      split; [rewrite Eds, append_assoc; reflexivity|].
      split.
      { rewrite allChars_append, Hall. cbn [allChars andb].
        rewrite is_digit_digitChar by lia. reflexivity. }
      split; [destruct ds; [contradiction|discriminate]|].
      intros a. clear Eds IH.
      assert (Hv : forall t b, valueFrom b (ds +:+ t) = valueFrom (valueFrom b ds) t).
      { clear. induction ds as [|c ds IHd]; intros t b; simpl; [reflexivity|].
        apply IHd. }
      rewrite Hv, Hval. cbn [valueFrom].
      rewrite digitVal_digitChar by lia.
      rewrite length_append. cbn [String.length].
      rewrite Nat2Z.inj_add. change (Z.of_nat 1) with 1%Z.
      rewrite Z.pow_add_r by lia. change (10 ^ 1)%Z with 10%Z.
      pose proof (Z.div_mod n 10 ltac:(lia)). lia.
Qed.

Lemma digits_spec (n : Z) :
  (0 <= n)%Z ->
  allChars is_digit (digits n) = true /\ digits n <> EmptyString /\
  forall a, valueFrom a (digits n)
            = (a * 10 ^ Z.of_nat (String.length (digits n)) + n)%Z.
Proof.
  intros Hn. unfold digits.
  destruct (digitsAcc_spec (Z.to_nat (Z.log2 n)) n EmptyString)
    as (ds & E & Hall & Hne & Hval).
  - split; [exact Hn|].
    rewrite Nat2Z.inj_succ, Z2Nat.id by apply Z.log2_nonneg.
    destruct (Z.eq_dec n 0%Z) as [->|Hz]; [reflexivity|].
    pose proof (Z.log2_spec n ltac:(lia)) as [_ Hup].
    eapply Z.lt_le_trans; [exact Hup|].
    apply Z.pow_le_mono_l. pose proof (Z.log2_nonneg n). lia.
  - rewrite E, append_nil_r. auto.
Qed.

(** Reading a run of digits that ends before [rest]. *)
Lemma readDigits_run (ds rest : string) (acc : Z) (cnt : nat) :
  allChars is_digit ds = true -> headIs is_digit rest = false ->
  readDigits (ds +:+ rest) acc cnt
  = (valueFrom acc ds, (cnt + String.length ds)%nat, rest).
Proof.
  revert acc cnt. induction ds as [|c ds IH]; intros acc cnt Hall Hrest.
  - simpl. rewrite Nat.add_0_r. destruct rest as [|c r]; [reflexivity|].
    simpl in Hrest |- *. rewrite Hrest. reflexivity.
  - simpl in Hall. apply andb_prop in Hall as [Hc Hall].
    simpl. rewrite Hc, IH by assumption. f_equal. f_equal. lia.
Qed.

Lemma headIs_digits_append (p : ascii -> bool) (ds rest : string) :
  ds <> EmptyString -> allChars is_digit ds = true ->
  (forall c, is_digit c = true -> p c = false) ->
  headIs p (ds +:+ rest) = false.
Proof.
  intros Hne Hall Hp. destruct ds as [|c ds]; [contradiction|].
  simpl in *. apply andb_prop in Hall as [Hc _]. auto.
Qed.

End TextLemmas.

(** ** The rounding of the doubles *)

Section Rounding.

Lemma roundEven_close (q : Q) : Qabs (inject_Z (roundEven q) - q) <= 1 # 2.
Proof.
  unfold roundEven.
  pose proof (Qfloor_le q) as Hlo. pose proof (Qlt_floor q) as Hhi.
  rewrite inject_Z_plus in Hhi. change (inject_Z 1) with 1 in Hhi.
  destruct (Qcompare_spec (q - inject_Z (Qfloor q)) (1 # 2)) as [E|E|E].
  - destruct (Z.even (Qfloor q));
      [|rewrite inject_Z_plus; change (inject_Z 1) with 1];
      apply Qabs_Qle_condition; lra.
  - apply Qabs_Qle_condition; lra.
  - rewrite inject_Z_plus. change (inject_Z 1) with 1.
    apply Qabs_Qle_condition; lra.
Qed.

Lemma pow2_pos (e : Z) : 0 < 2 ^ e.
Proof. apply Qpower_0_lt. reflexivity. Qed.

Lemma pow2_plus (a b : Z) : 2 ^ (a + b) == 2 ^ a * 2 ^ b.
Proof. apply Qpower_plus. discriminate. Qed.

Lemma pow2_inject (k : Z) : (0 <= k)%Z -> inject_Z (2 ^ k) == 2 ^ k.
Proof. intros Hk. rewrite Zpower_Qpower by exact Hk. reflexivity. Qed.

(** The exponent [binade] returns is not too large. *)
Lemma binade_le (q : Q) : ~ q == 0 -> 2 ^ binade q <= Qabs q.
Proof.
  intros Hq. unfold binade.
  set (n := Z.abs (Qnum q)). set (d := Zpos (Qden q)).
  destruct (Qle_bool (2 ^ (Z.log2 n - Z.log2 d)) (Qabs q)) eqn:E;
    [apply Qle_bool_iff, E|]. clear E.
  assert (Hn : (0 < n)%Z).
  { unfold n. destruct q as [a b]. unfold Qeq in Hq. simpl in *. lia. }
  assert (Hd : (0 < d)%Z) by (unfold d; lia).
  destruct (Z.log2_spec n Hn) as [Hn1 _].
  destruct (Z.log2_spec d Hd) as [_ Hd2].
  pose proof (Z.log2_nonneg n) as Ln. pose proof (Z.log2_nonneg d) as Ld.
  assert (A : Qabs q == inject_Z n / inject_Z d).
  { destruct q as [a b]. unfold n, d. simpl. apply Qmake_Qdiv. }
  rewrite A.
  apply Qle_shift_div_l; [change 0 with (inject_Z 0); rewrite <- Zlt_Qlt; exact Hd|].
  apply Qle_trans with (2 ^ Z.log2 n);
    [|rewrite <- pow2_inject by exact Ln; rewrite <- Zle_Qle; exact Hn1].
  assert (B : 2 ^ Z.log2 n
              == 2 ^ (Z.log2 n - Z.log2 d - 1) * 2 ^ (Z.succ (Z.log2 d))).
  { rewrite <- pow2_plus.
    replace (Z.log2 n - Z.log2 d - 1 + Z.succ (Z.log2 d))%Z with (Z.log2 n) by lia.
    reflexivity. }
  rewrite B. apply Qmult_le_l; [apply pow2_pos|].
  rewrite <- pow2_inject by lia. rewrite <- Zle_Qle. lia.
Qed.

(** The rounding error: half a unit of the last place, which is a
    fraction [2^-53] of the number, or half the spacing of the subnormal
    doubles. *)
Lemma fl_close (q : Q) :
  Qabs (fl q - q) <= Qabs q * (1 # 9007199254740992) + 2 ^ (-1075).
Proof.
  assert (Hnn : 0 <= Qabs q * (1 # 9007199254740992)).
  { apply Qmult_le_0_compat; [apply Qabs_nonneg | discriminate]. }
  pose proof (pow2_pos (-1075)) as Ht.
  unfold fl. destruct (Qeq_bool q 0) eqn:E.
  - apply Qeq_bool_iff in E.
    assert (R : 0 - q == 0) by lra. rewrite R. change (Qabs 0) with 0. lra.
  - assert (Hq : ~ q == 0).
    { intros Hz. apply Qeq_bool_iff in Hz. congruence. }
    rewrite Qred_correct.
    set (u := ulp q).
    assert (Hu : 0 < u) by apply pow2_pos.
    assert (R : inject_Z (roundEven (q / u)) * u - q
                == (inject_Z (roundEven (q / u)) - q / u) * u).
    { field. lra. }
    rewrite R, Qabs_Qmult, (Qabs_pos u) by lra.
    pose proof (roundEven_close (q / u)) as Hr.
    apply Qle_trans with ((1 # 2) * u);
      [apply Qmult_le_compat_r; [exact Hr | lra]|].
    unfold u, ulp.
    destruct (Z.max_spec (binade q) (-1022)) as [[Hlt ->]|[Hge ->]].
    + assert (Ec : (1 # 2) * 2 ^ (-1022 - 52) == 2 ^ (-1075)) by reflexivity.
      rewrite Ec. lra.
    + pose proof (binade_le q Hq) as Hb.
      assert (Es : 2 ^ (binade q - 52) == 2 ^ binade q * 2 ^ (-52)).
      { rewrite <- pow2_plus. reflexivity. }
      rewrite Es.
      assert (Ec : 2 ^ (-52) == 2 * (1 # 9007199254740992)) by reflexivity.
      rewrite Ec.
      assert (Hm : 2 ^ binade q * (1 # 9007199254740992)
                   <= Qabs q * (1 # 9007199254740992)).
      { apply Qmult_le_compat_r; [exact Hb | discriminate]. }
      lra.
Qed.

(** Up to a million millions the rounding error is below a thousandth. *)
Lemma fl_coarse (q : Q) :
  Qabs q <= 1000000000000 -> Qabs (fl q - q) <= 2 # 10000.
Proof.
  intros Hq. pose proof (fl_close q) as Hc.
  assert (Ht : 2 ^ (-1075) <= 1 # 100000) by (vm_compute; discriminate).
  lra.
Qed.

Lemma fl_bound (q c : Q) :
  Qabs q <= c -> c <= 1000000000000 -> Qabs (fl q) <= c + (2 # 10000).
Proof.
  intros Hq Hc.
  assert (Hq' : Qabs q <= 1000000000000) by lra.
  pose proof (fl_coarse q Hq') as Hf.
  apply Qabs_Qle_condition in Hq as [Q1 Q2].
  apply Qabs_Qle_condition in Hf as [F1 F2].
  apply Qabs_Qle_condition. lra.
Qed.

(** The degrees of the doubles are those of the exact quotient up to a
    thousandth, for an angle of at most a billion radians. *)
Lemma radToDeg_fl_close (r : Q) :
  Qabs r <= 1000000000 ->
  Qabs (radToDeg_fl r - radToDeg r) <= 1 # 1000.
Proof.
  intros Hr. unfold radToDeg_fl, radToDeg.
  apply Qabs_Qle_condition in Hr as [R1 R2].
  assert (Ha : Qabs (r * 180) <= 180000000000) by (apply Qabs_Qle_condition; lra).
  pose proof (fl_coarse (r * 180)) as Fa.
  pose proof (fl_bound (r * 180) _ Ha) as Ba.
  assert (Fa' : Qabs (fl (r * 180) - r * 180) <= 2 # 10000) by (apply Fa; lra).
  assert (Ba' : Qabs (fl (r * 180)) <= 180000000000 + (2 # 10000))
    by (apply Ba; lra).
  clear Fa Ba. set (a := fl (r * 180)) in *.
  apply Qabs_Qle_condition in Fa' as [A1 A2].
  apply Qabs_Qle_condition in Ba' as [B1 B2].
  assert (HP : 0 < Math_PI) by reflexivity.
  assert (Hb : Qabs (a / Math_PI) <= 1000000000000).
  { apply Qabs_Qle_condition. split.
    - apply Qle_shift_div_l; [exact HP|]. unfold Math_PI. lra.
    - apply Qle_shift_div_r; [exact HP|]. unfold Math_PI. lra. }
  pose proof (fl_coarse (a / Math_PI) Hb) as Fb.
  apply Qabs_Qle_condition in Fb as [F1 F2].
  assert (Hd : Qabs (a / Math_PI - r * 180 / Math_PI) <= 1 # 10000).
  { assert (E : a / Math_PI - r * 180 / Math_PI == (a - r * 180) / Math_PI)
      by (field; unfold Math_PI; discriminate).
    rewrite E. apply Qabs_Qle_condition. split.
    - apply Qle_shift_div_l; [exact HP|]. unfold Math_PI. lra.
    - apply Qle_shift_div_r; [exact HP|]. unfold Math_PI. lra. }
  apply Qabs_Qle_condition in Hd as [D1 D2].
  apply Qabs_Qle_condition. lra.
Qed.

End Rounding.

(** ** The matcher on generated text *)

Section RegexLemmas.
Local Arguments String.append !_ _ : simpl nomatch.
Context {A : Type}.

(** A greedy star takes a whole run when the rest of the pattern matches
    behind it. *)
Lemma starGreedy_run (p : ascii -> bool) (ds rest : string)
    (k : string -> option A) (a : A) :
  allChars p ds = true -> headIs p rest = false -> k rest = Some a ->
  starGreedy p (ds +:+ rest) k = Some a.
Proof.
  intros Hall Hrest Hk. induction ds as [|d ds IH]; simpl.
  - destruct rest as [|c r]; simpl in *; [exact Hk|].
    rewrite Hrest. exact Hk.
  - simpl in Hall. apply andb_prop in Hall as [Hd Hall].
    rewrite Hd, IH by exact Hall. reflexivity.
Qed.

Lemma starGreedy_stop (p : ascii -> bool) (rest : string)
    (k : string -> option A) (a : A) :
  headIs p rest = false -> k rest = Some a -> starGreedy p rest k = Some a.
Proof. intros Hrest Hk. apply (starGreedy_run p EmptyString); auto. Qed.

Lemma is_digit_not_minus (d : ascii) : is_digit d = true -> Ascii.eqb "-" d = false.
Proof.
  intros Hd. destruct (Ascii.eqb_spec "-" d) as [<-|]; [discriminate Hd|reflexivity].
Qed.

Lemma is_digit_not_white (d : ascii) : is_digit d = true -> is_white d = false.
Proof.
  unfold is_digit, is_white. intros Hd.
  apply andb_prop in Hd as [H1 H2]. apply Nat.leb_le in H1, H2.
  apply orb_false_intro.
  - apply andb_false_intro2. apply Nat.leb_gt. lia.
  - apply Nat.eqb_neq. lia.
Qed.

Lemma is_digit_not_point (d : ascii) : is_digit d = true -> Ascii.eqb "." d = false.
Proof.
  intros Hd. destruct (Ascii.eqb_spec "." d) as [<-|]; [discriminate Hd|reflexivity].
Qed.

Lemma headIs_numeric (rest : string) :
  headIs is_numeric rest = false ->
  headIs is_digit rest = false /\ headIs (Ascii.eqb ".") rest = false.
Proof.
  destruct rest as [|c r]; cbn [headIs]; [auto|].
  unfold is_numeric. intros E. apply orb_false_elim in E as [E1 E2].
  split; [exact E1|]. rewrite Ascii.eqb_sym. exact E2.
Qed.

(** The digits, point and fraction of a literal. *)
Lemma rmatch_unsigned (ip fp rest : string) (c : captures)
    (k : string -> captures -> option A) (a : A) :
  allChars is_digit ip = true -> ip <> EmptyString ->
  (fp = EmptyString \/ exists f, fp = "." +:+ f /\ allChars is_digit f = true) ->
  headIs is_numeric rest = false ->
  k rest c = Some a ->
  rmatch (RSeq (RPlus is_digit) (RSeq (ROpt (RChar ".")) (RStar is_digit)))
         (ip +:+ fp +:+ rest) c k = Some a.
Proof.
  intros Hip Hne Hfp Hrest Hk.
  apply headIs_numeric in Hrest as [Hrd Hrp].
  destruct ip as [|d ip]; [contradiction|].
  simpl in Hip. apply andb_prop in Hip as [Hd Hip].
  simpl String.append. unfold RPlus, ROpt. cbn [rmatch].
  rewrite Hd.
  apply starGreedy_run; [exact Hip | |].
  - destruct Hfp as [->|(f & -> & _)]; [exact Hrd | reflexivity].
  - destruct Hfp as [->|(f & -> & Hf)].
    + simpl String.append.
      destruct rest as [|ch r]; [exact Hk|].
      cbn [headIs] in Hrp, Hrd. rewrite Hrp.
      apply (starGreedy_stop is_digit (String ch r) (fun s' => k s' c));
        [exact Hrd | exact Hk].
    + simpl String.append. simpl Ascii.eqb. cbv iota.
      rewrite (starGreedy_run is_digit f rest (fun s' => k s' c) a Hf Hrd Hk).
      reflexivity.
Qed.

(** The whole literal: [-?\d+\.?\d*] takes it all when the rest of the
    pattern matches behind it. *)
Lemma rmatch_reNumber (N rest : string) (c : captures)
    (k : string -> captures -> option A) (a : A) :
  numberText N -> headIs is_numeric rest = false ->
  k rest c = Some a ->
  rmatch reNumber (N +:+ rest) c k = Some a.
Proof.
  intros (neg & ip & fp & -> & Hip & Hne & Hfp) Hrest Hk.
  pose proof (rmatch_unsigned ip fp rest c k a Hip Hne Hfp Hrest Hk) as U.
  unfold reNumber. cbn [RCat]. cbn [rmatch] in U |- *. unfold ROpt at 1.
  cbn [rmatch]. rewrite !append_assoc.
  destruct neg.
  - simpl String.append. simpl Ascii.eqb. cbv iota. rewrite U. reflexivity.
  - simpl String.append.
    destruct ip as [|d ip]; [contradiction|].
    simpl in Hip. apply andb_prop in Hip as [Hd _].
    change (String d ip +:+ fp +:+ rest)
      with (String d (ip +:+ fp +:+ rest)) in U |- *.
    cbv iota. rewrite (is_digit_not_minus d Hd). exact U.
Qed.

(** A captured literal. *)
Lemma rmatch_group_number (n : nat) (N rest : string) (c : captures)
    (k : string -> captures -> option A) (a : A) :
  numberText N -> headIs is_numeric rest = false ->
  k rest (<[n := Some N]> c) = Some a ->
  rmatch (RGroup n reNumber) (N +:+ rest) c k = Some a.
Proof.
  intros HN Hrest Hk. cbn [rmatch].
  apply rmatch_reNumber; [exact HN | exact Hrest |].
  rewrite consumed_append. exact Hk.
Qed.

End RegexLemmas.

(** ** Printed numbers, read back *)

Section NumberText.
Local Arguments String.append !_ _ : simpl nomatch.
Context `{Host}.

Lemma valueFrom_append (ds t : string) (b : Z) :
  valueFrom b (ds +:+ t) = valueFrom (valueFrom b ds) t.
Proof.
  revert b. induction ds as [|c ds IH]; intros b; simpl; [reflexivity|].
  apply IH.
Qed.

(** The zero-padded digits [lastDigits] puts in front of its accumulator. *)
Lemma lastDigits_spec (f : nat) (n : Z) (acc : string) :
  (0 <= n)%Z ->
  exists ds,
    lastDigits f n acc = ds +:+ acc /\
    allChars is_digit ds = true /\ String.length ds = f /\
    forall a, valueFrom a ds = (a * 10 ^ Z.of_nat f + n mod 10 ^ Z.of_nat f)%Z.
Proof.
  revert n acc. induction f as [|f IH]; intros n acc Hn.
  - exists EmptyString. split; [reflexivity|]. split; [reflexivity|].
    split; [reflexivity|]. intros a. cbn [valueFrom].
    change (10 ^ Z.of_nat 0)%Z with 1%Z. rewrite Z.mod_1_r. lia.
  - cbn [lastDigits].
    destruct (IH (n / 10)%Z (String (digitChar (n mod 10)) acc))
      as (ds & E & Hall & Hlen & Hval).
    { apply Z.div_pos; lia. }
    pose proof (Z.mod_pos_bound n 10 ltac:(lia)) as Hm.
    exists (ds +:+ String (digitChar (n mod 10)) EmptyString).
    split; [rewrite E, append_assoc; reflexivity|].
    split.
    { rewrite allChars_append, Hall. cbn [allChars andb].
      rewrite is_digit_digitChar by lia. reflexivity. }
    split.
    { rewrite length_append, Hlen. cbn [String.length]. lia. }
    intros a. rewrite valueFrom_append, Hval. cbn [valueFrom].
    rewrite digitVal_digitChar by lia.
    rewrite Nat2Z.inj_succ, Z.pow_succ_r by lia.
    rewrite (Z.rem_mul_r n 10 (10 ^ Z.of_nat f)) by lia.
    lia.
Qed.

Lemma parseFloat_minus (s1 : string) :
  parseFloat (String "-" s1) = parseDigits true s1.
Proof. reflexivity. Qed.

Lemma parseFloat_digit (d : ascii) (rest : string) :
  is_digit d = true -> parseFloat (String d rest) = parseDigits false (String d rest).
Proof.
  intros Hd. unfold parseFloat. cbn [trimStart].
  rewrite (is_digit_not_white d Hd).
  destruct d as [b0 b1 b2 b3 b4 b5 b6 b7].
  destruct b0, b1, b2, b3, b4, b5, b6, b7; try discriminate Hd; reflexivity.
Qed.

(** The value of digits, and of the fraction behind a point. *)
Lemma parseDigits_parts (neg point : bool) (ip f rest : string) :
  allChars is_digit ip = true -> ip <> EmptyString ->
  allChars is_digit f = true -> (point = false -> f = EmptyString) ->
  parseDigits neg (ip +:+ (if point then "." +:+ f else EmptyString))
  = Some (let v := inject_Z (valueFrom 0 ip)
                   + inject_Z (valueFrom 0 f)
                     / inject_Z (10 ^ Z.of_nat (String.length f)) in
          if neg then - v else v).
Proof.
  intros Hip Hne Hf Hpoint. unfold parseDigits.
  rewrite readDigits_run; [|exact Hip | destruct point; reflexivity].
  assert (Hlen : (0 + String.length ip =? 0)%nat = false).
  { destruct ip; [contradiction | reflexivity]. }
  destruct point.
  - simpl String.append. cbv iota.
    change (readDigits f 0%Z 0%nat)
      with (readDigits f 0%Z 0%nat).
    rewrite <- (append_nil_r f) at 1.
    rewrite readDigits_run by (exact Hf || reflexivity).
    rewrite Hlen. cbn [andb]. reflexivity.
  - rewrite (Hpoint eq_refl). cbv iota. rewrite Hlen. cbn [andb].
    reflexivity.
Qed.

Lemma parseFloat_literal (neg point : bool) (ip f : string) :
  allChars is_digit ip = true -> ip <> EmptyString ->
  allChars is_digit f = true -> (point = false -> f = EmptyString) ->
  parseFloat ((if neg then "-" else EmptyString)
              +:+ ip +:+ (if point then "." +:+ f else EmptyString))
  = Some (let v := inject_Z (valueFrom 0 ip)
                   + inject_Z (valueFrom 0 f)
                     / inject_Z (10 ^ Z.of_nat (String.length f)) in
          if neg then - v else v).
Proof.
  intros Hip Hne Hf Hpoint. destruct neg.
  - simpl String.append. rewrite parseFloat_minus.
    apply parseDigits_parts; assumption.
  - simpl String.append.
    rewrite <- (parseDigits_parts false point ip f EmptyString Hip Hne Hf Hpoint).
    destruct ip as [|d ip]; [contradiction|].
    simpl in Hip. apply andb_prop in Hip as [Hd _].
    simpl String.append. apply parseFloat_digit, Hd.
Qed.

Lemma numberText_parts (neg point : bool) (ip f : string) :
  allChars is_digit ip = true -> ip <> EmptyString ->
  allChars is_digit f = true ->
  numberText ((if neg then "-" else EmptyString)
              +:+ ip +:+ (if point then "." +:+ f else EmptyString)).
Proof.
  intros Hip Hne Hf.
  exists neg, ip, (if point then "." +:+ f else EmptyString).
  split; [reflexivity|]. split; [exact Hip|]. split; [exact Hne|].
  destruct point; [right; exists f; auto | left; reflexivity].
Qed.

Lemma numberText_nonempty (N : string) : numberText N -> N <> EmptyString.
Proof.
  intros (neg & ip & fp & -> & _ & Hne & _).
  destruct neg; [discriminate|]. destruct ip; [contradiction | discriminate].
Qed.

Lemma pow10_pos (f : nat) : 0 < inject_Z (10 ^ Z.of_nat f).
Proof.
  change 0 with (inject_Z 0). rewrite <- Zlt_Qlt.
  apply Z.pow_pos_nonneg; lia.
Qed.

(** Rounding to the nearest integer moves a number by at most one half. *)
Lemma round_close (y : Q) : Qabs (inject_Z (Qfloor (y + (1 # 2))) - y) <= 1 # 2.
Proof.
  pose proof (Qfloor_le (y + (1 # 2))) as Hle.
  pose proof (Qlt_floor (y + (1 # 2))) as Hlt.
  rewrite inject_Z_plus in Hlt. change (inject_Z 1) with 1 in Hlt.
  apply Qabs_Qle_condition. split; lra.
Qed.

(** The text of [x.toFixed(f)], in parts, and the number it denotes. *)
Lemma toFixed_shape (f : nat) (x : Q) :
  Qabs x < big ->
  exists (ip fr : string) (point : bool),
    toFixed f x = (if Qltb x 0 then "-" else EmptyString)
                  +:+ ip +:+ (if point then "." +:+ fr else EmptyString) /\
    allChars is_digit ip = true /\ ip <> EmptyString /\
    allChars is_digit fr = true /\ (point = false -> fr = EmptyString) /\
    inject_Z (valueFrom 0 ip)
    + inject_Z (valueFrom 0 fr) / inject_Z (10 ^ Z.of_nat (String.length fr))
    == inject_Z (Qfloor (Qabs x * inject_Z (10 ^ Z.of_nat f) + (1 # 2)))
       / inject_Z (10 ^ Z.of_nat f).
Proof.
  intros Hx. unfold toFixed.
  replace (Qle_bool big (Qabs x)) with false
    by (symmetry; apply Qle_bool_false; exact Hx).
  set (n := Qfloor (Qabs x * inject_Z (10 ^ Z.of_nat f) + (1 # 2))).
  assert (Hn : (0 <= n)%Z).
  { unfold n. change 0%Z with (Qfloor 0). apply Qfloor_resp_le.
    pose proof (Qabs_nonneg x) as Ha. pose proof (pow10_pos f) as Hp.
    assert (0 <= Qabs x * inject_Z (10 ^ Z.of_nat f))
      by (apply Qmult_le_0_compat; [exact Ha | apply Qlt_le_weak, Hp]).
    lra. }
  assert (Hpz : (0 < 10 ^ Z.of_nat f)%Z) by (apply Z.pow_pos_nonneg; lia).
  assert (Hq : (0 <= n / 10 ^ Z.of_nat f)%Z) by (apply Z.div_pos; lia).
  destruct (digits_spec _ Hq) as (Hall & Hne & Hval).
  set (a := digits (n / 10 ^ Z.of_nat f)) in *.
  destruct f as [|f'].
  - exists a, EmptyString, false.
    split; [destruct (Qltb x 0); rewrite ?append_nil_r; reflexivity|].
    split; [exact Hall|]. split; [exact Hne|]. split; [reflexivity|].
    split; [reflexivity|].
    rewrite Hval. cbn [valueFrom String.length].
    change (10 ^ Z.of_nat 0)%Z with 1%Z. rewrite Z.div_1_r.
    change (inject_Z 0 / inject_Z 1) with 0. unfold Qdiv.
    change (/ inject_Z 1) with 1. ring_simplify.
    replace (0 * 10 ^ Z.of_nat (String.length a) + n)%Z with n by lia.
    reflexivity.
  - destruct (lastDigits_spec (S f') n EmptyString Hn) as (ds & E & Dall & Dlen & Dval).
    rewrite append_nil_r in E.
    exists a, ds, true.
    split; [rewrite E; destruct (Qltb x 0); reflexivity|].
    split; [exact Hall|]. split; [exact Hne|]. split; [exact Dall|].
    split; [discriminate|].
    rewrite Hval, Dval, Dlen.
    set (p := (10 ^ Z.of_nat (S f'))%Z) in *.
    replace (0 * 10 ^ Z.of_nat (String.length a) + n / p)%Z with (n / p)%Z by lia.
    replace (0 * p + n mod p)%Z with (n mod p)%Z by lia.
    assert (Hpq : ~ inject_Z p == 0).
    { intros E0. pose proof (pow10_pos (S f')) as Hp. fold p in Hp.
      rewrite E0 in Hp. apply (Qlt_irrefl _ Hp). }
    pose proof (Z.div_mod n p ltac:(lia)) as Hdm.
    assert (Hn' : inject_Z n == inject_Z p * inject_Z (n / p) + inject_Z (n mod p)).
    { rewrite <- inject_Z_mult, <- inject_Z_plus, <- Hdm. reflexivity. }
    rewrite Hn'. field. exact Hpq.
Qed.

(** The decoders read a printed number back to within half a unit of its
    last decimal. *)
Lemma toFixed_parseFloat (f : nat) (x : Q) :
  Qabs x < big ->
  numberText (toFixed f x) /\
  exists v, parseFloat (toFixed f x) = Some v /\
            Qabs (v - x) <= (1 # 2) / inject_Z (10 ^ Z.of_nat f).
Proof.
  intros Hx.
  destruct (toFixed_shape f x Hx)
    as (ip & fr & point & E & Hip & Hne & Hfr & Hpt & Hv).
  rewrite E. split; [apply numberText_parts; assumption|].
  rewrite (parseFloat_literal _ _ _ _ Hip Hne Hfr Hpt).
  eexists. split; [reflexivity|]. cbv zeta.
  set (v := inject_Z (valueFrom 0 ip)
            + inject_Z (valueFrom 0 fr)
              / inject_Z (10 ^ Z.of_nat (String.length fr))) in *.
  pose proof (pow10_pos f) as Hp.
  set (p := inject_Z (10 ^ Z.of_nat f)) in *.
  pose proof (round_close (Qabs x * p)) as Hr.
  set (n := inject_Z (Qfloor (Qabs x * p + (1 # 2)))) in *.
  assert (Hpq : ~ p == 0) by (intros E0; rewrite E0 in Hp; apply (Qlt_irrefl _ Hp)).
  assert (Hclose : Qabs (v - Qabs x) <= (1 # 2) / p).
  { rewrite Hv.
    assert (R : n / p - Qabs x == (n - Qabs x * p) / p) by (field; exact Hpq).
    rewrite R. unfold Qdiv. rewrite Qabs_Qmult.
    rewrite (Qabs_pos (/ p)) by (apply Qlt_le_weak, Qinv_lt_0_compat, Hp).
    apply Qmult_le_compat_r; [exact Hr|].
    apply Qlt_le_weak, Qinv_lt_0_compat, Hp. }
  destruct (Qltb x 0) eqn:Es.
  - apply Qltb_lt in Es.
    assert (Ea : Qabs x == - x) by (apply Qabs_neg, Qlt_le_weak, Es).
    assert (R : - v - x == - (v - Qabs x)) by (rewrite Ea; ring).
    rewrite R, Qabs_opp. exact Hclose.
  - apply Qltb_ge in Es.
    assert (Ea : Qabs x == x) by (apply Qabs_pos, Es).
    assert (R : v - x == v - Qabs x) by (rewrite Ea; ring).
    rewrite R. exact Hclose.
Qed.

(** A printed integer is read back exactly. *)
Lemma showInt_parseFloat (n : Z) :
  Qabs (inject_Z n) < big ->
  numberText (showInt n) /\
  exists v, parseFloat (showInt n) = Some v /\ v == inject_Z n.
Proof.
  intros Hn. unfold showInt.
  replace (Qle_bool big (Qabs (inject_Z n))) with false
    by (symmetry; apply Qle_bool_false; exact Hn).
  assert (Hk : forall (neg : bool) (k : Z), (0 <= k)%Z ->
             numberText ((if neg then "-" else EmptyString) +:+ digits k) /\
             exists v, parseFloat ((if neg then "-" else EmptyString) +:+ digits k)
                       = Some v /\
                       v == if neg then - inject_Z k else inject_Z k).
  { intros neg k Hk. destruct (digits_spec k Hk) as (Hall & Hne & Hval).
    pose proof (numberText_parts neg false (digits k) EmptyString Hall Hne eq_refl)
      as HN.
    pose proof (parseFloat_literal neg false (digits k) EmptyString Hall Hne
                  eq_refl (fun _ => eq_refl)) as HP.
    rewrite append_nil_r in HN, HP.
    split; [exact HN|]. eexists. split; [exact HP|].
    cbv zeta. rewrite Hval. cbn [valueFrom String.length].
    replace (0 * 10 ^ Z.of_nat (String.length (digits k)) + k)%Z with k by lia.
    change (inject_Z 0 / inject_Z (10 ^ Z.of_nat 0)) with 0.
    destruct neg; ring. }
  destruct (n <? 0)%Z eqn:Es.
  - apply Z.ltb_lt in Es.
    destruct (Hk true (- n)%Z ltac:(lia)) as (HN & v & HP & Hv).
    split; [exact HN|]. exists v. split; [exact HP|].
    rewrite Hv, inject_Z_opp. ring.
  - apply Z.ltb_ge in Es.
    destruct (Hk false n Es) as (HN & v & HP & Hv).
    split; [exact HN|]. exists v. split; [exact HP|]. exact Hv.
Qed.

End NumberText.

(** ** The pose pattern on a generated pose line *)

Section PoseMatch.
Local Arguments String.append !_ _ : simpl nomatch.
Context {A : Type}.

Lemma rmatch_RSeq (r1 r2 : regex) (s : string) (c : captures)
    (k : string -> captures -> option A) :
  rmatch (RSeq r1 r2) s c k = rmatch r1 s c (fun s' c' => rmatch r2 s' c' k).
Proof. reflexivity. Qed.

(** A literal at the head of the text. *)
Lemma rmatch_RStr (p s : string) (c : captures)
    (k : string -> captures -> option A) :
  rmatch (RStr p) (p +:+ s) c k = k s c.
Proof.
  revert s c k. induction p as [|a p IH]; intros s c k; [reflexivity|].
  cbn [RStr]. simpl String.append. cbn [rmatch].
  rewrite Ascii.eqb_refl. apply IH.
Qed.

Lemma rmatch_RChar (a : ascii) (s : string) (c : captures)
    (k : string -> captures -> option A) :
  rmatch (RChar a) (String a EmptyString +:+ s) c k = k s c.
Proof. simpl String.append. cbn [rmatch]. rewrite Ascii.eqb_refl. reflexivity. Qed.

(** [\s+] and [\s*] on one blank followed by something else. *)
Lemma rmatch_RPlus_one (p : ascii -> bool) (b : ascii) (s : string)
    (c : captures) (k : string -> captures -> option A) (a : A) :
  p b = true -> headIs p s = false -> k s c = Some a ->
  rmatch (RPlus p) (String b EmptyString +:+ s) c k = Some a.
Proof.
  intros Hb Hs Hk. simpl String.append. unfold RPlus. cbn [rmatch].
  rewrite Hb. apply starGreedy_stop; assumption.
Qed.

Lemma rmatch_RStar_one (p : ascii -> bool) (b : ascii) (s : string)
    (c : captures) (k : string -> captures -> option A) (a : A) :
  p b = true -> headIs p s = false -> k s c = Some a ->
  rmatch (RStar p) (String b EmptyString +:+ s) c k = Some a.
Proof.
  intros Hb Hs Hk. cbn [rmatch].
  apply (starGreedy_run p (String b EmptyString) s); [|exact Hs | exact Hk].
  cbn [allChars]. rewrite Hb. reflexivity.
Qed.

(** [.*?] gives way after one character when the rest of the pattern does
    not match before it and matches behind it. *)
Lemma rmatch_RLazy_one (p : ascii -> bool) (b : ascii) (s : string)
    (c : captures) (k : string -> captures -> option A) (a : A) :
  p b = true -> k (String b s) c = None -> k s c = Some a ->
  rmatch (RLazy p) (String b EmptyString +:+ s) c k = Some a.
Proof.
  intros Hb Hn Hk. simpl String.append. cbn [rmatch starLazy].
  rewrite Hn, Hb. destruct s; cbn [starLazy]; rewrite Hk; reflexivity.
Qed.

Lemma rmatch_RAlt_l (r1 r2 : regex) (s : string) (c : captures)
    (k : string -> captures -> option A) (a : A) :
  rmatch r1 s c k = Some a -> rmatch (RAlt r1 r2) s c k = Some a.
Proof. intros E. cbn [rmatch]. rewrite E. reflexivity. Qed.

(** A literal does not match a text that starts with another character. *)
Lemma rmatch_RStr_other (a b : ascii) (p s : string) (c : captures)
    (k : string -> captures -> option A) :
  Ascii.eqb a b = false -> rmatch (RStr (String a p)) (String b s) c k = None.
Proof. intros E. cbn [RStr rmatch]. rewrite E. reflexivity. Qed.

Lemma headIs_numberText (p : ascii -> bool) (N rest : string) :
  numberText N -> p "-"%char = false ->
  (forall d, is_digit d = true -> p d = false) ->
  headIs p (N +:+ rest) = false.
Proof.
  intros (neg & ip & fp & -> & Hip & Hne & _) Hm Hd.
  destruct neg; [exact Hm|].
  destruct ip as [|d ip]; [contradiction|].
  simpl in Hip. apply andb_prop in Hip as [Hdd _].
  simpl. apply Hd, Hdd.
Qed.

End PoseMatch.

Section PoseLine.
Local Arguments String.append !_ _ : simpl nomatch.

(** The text of one pose, from [new] on, and what follows it. *)
Lemma matchHere_pose (X Y D rest : string) :
  numberText X -> numberText Y -> numberText D ->
  matchHere poseRegex
    ("new" +:+ " " +:+ "Pose2d(" +:+ X +:+ "," +:+ " " +:+ Y +:+ "," +:+ " "
     +:+ "Rotation2d.fromDegrees(" +:+ D +:+ ")" +:+ ")" +:+ rest)
  = Some (poseCaptures X Y D, rest).
Proof.
  intros HX HY HD. unfold matchHere, poseRegex. cbn [RCat].
  rewrite rmatch_RSeq, rmatch_RStr.
  rewrite rmatch_RSeq.
  apply rmatch_RPlus_one; [reflexivity | reflexivity |].
  rewrite rmatch_RSeq, rmatch_RStr.
  rewrite rmatch_RSeq.
  apply rmatch_group_number; [exact HX | reflexivity |].
  rewrite rmatch_RSeq, rmatch_RChar.
  rewrite rmatch_RSeq.
  apply rmatch_RStar_one;
    [reflexivity
    | apply headIs_numberText;
        [exact HY | reflexivity | exact is_digit_not_white]
    |].
  rewrite rmatch_RSeq.
  apply rmatch_group_number; [exact HY | reflexivity |].
  rewrite rmatch_RSeq, rmatch_RChar.
  rewrite rmatch_RSeq.
  apply rmatch_RLazy_one; [reflexivity | reflexivity |].
  rewrite rmatch_RSeq.
  apply rmatch_RAlt_l.
  rewrite rmatch_RSeq, rmatch_RStr.
  rewrite rmatch_RSeq.
  apply rmatch_group_number; [exact HD | reflexivity |].
  rewrite rmatch_RChar, rmatch_RChar.
  reflexivity.
Qed.

Lemma rsearch_here (r : regex) (s : string) (m : captures * string) :
  matchHere r s = Some m -> rsearch r s = Some m.
Proof. intros E. destruct s; cbn [rsearch]; rewrite E; reflexivity. Qed.

Lemma rsearch_skip (r : regex) (c : ascii) (s : string) :
  matchHere r (String c s) = None -> rsearch r (String c s) = rsearch r s.
Proof. intros E. cbn [rsearch]. rewrite E. reflexivity. Qed.

End PoseLine.

(** ** The field-oriented text, decoded *)

Section FieldRoundTrip.
Local Arguments String.append !_ _ : simpl nomatch.
Context `{Host}.

(** A generated pose line, split where the pattern starts to match. *)
Lemma poseLine_split (X Y D rest : string) :
  poseLine X Y D +:+ rest
  = "    waypoints.add("
    +:+ ("new" +:+ " " +:+ "Pose2d(" +:+ X +:+ "," +:+ " " +:+ Y +:+ "," +:+ " "
         +:+ "Rotation2d.fromDegrees(" +:+ D +:+ ")" +:+ ")"
         +:+ (");" +:+ nl +:+ rest)).
Proof. unfold poseLine. rewrite !append_assoc. reflexivity. Qed.

Ltac skip_junk := repeat (rewrite rsearch_skip by reflexivity).

(** No match starts in the text before a pose. *)
Lemma rsearch_first (T : string) :
  rsearch poseRegex (fieldHeader +:+ "    waypoints.add(" +:+ T)
  = rsearch poseRegex T.
Proof.
  unfold fieldHeader, nl, newline. simpl String.append. skip_junk. reflexivity.
Qed.

Lemma rsearch_next1 (T : string) :
  rsearch poseRegex (");" +:+ nl +:+ nl +:+ "    waypoints.add(" +:+ T)
  = rsearch poseRegex T.
Proof. unfold nl, newline. simpl String.append. skip_junk. reflexivity. Qed.

Lemma rsearch_next2 (T : string) :
  rsearch poseRegex (");" +:+ nl +:+ "    waypoints.add(" +:+ T)
  = rsearch poseRegex T.
Proof. unfold nl, newline. simpl String.append. skip_junk. reflexivity. Qed.

(** No match in the text behind the last pose. *)
Lemma rsearch_end1 :
  rsearch poseRegex (");" +:+ nl +:+ nl +:+ fieldPathEnd +:+ fieldNoMarkers) = None.
Proof. vm_compute. reflexivity. Qed.

Lemma rsearch_end2 :
  rsearch poseRegex (");" +:+ nl +:+ fieldPathEnd +:+ fieldNoMarkers) = None.
Proof. vm_compute. reflexivity. Qed.

(** The centimetres of a coordinate of at most a billion, and the degrees
    of such a heading, are far below 1e21. *)
Lemma centimetres_small (v : Q) :
  Qabs v <= 1000000000 -> Qabs (fl (v * 100)) < big.
Proof.
  intros Hv.
  assert (Hc : Qabs (v * 100) <= 100000000000).
  { apply Qabs_Qle_condition in Hv as [V1 V2]. apply Qabs_Qle_condition. lra. }
  assert (Hf : Qabs (fl (v * 100)) <= 100000000000 + (2 # 10000))
    by (apply fl_bound; [exact Hc | discriminate]).
  eapply Qle_lt_trans; [exact Hf | reflexivity].
Qed.

Lemma radToDeg_bound (r : Q) :
  Qabs r <= 1000000000 -> Qabs (radToDeg r) <= 60000000000.
Proof.
  intros Hr. apply Qabs_Qle_condition in Hr as [R1 R2].
  assert (HP : 0 < Math_PI) by reflexivity.
  unfold radToDeg. apply Qabs_Qle_condition. split.
  - apply Qle_shift_div_l; [exact HP|]. unfold Math_PI. lra.
  - apply Qle_shift_div_r; [exact HP|]. unfold Math_PI. lra.
Qed.

Lemma degrees_small (h_ : Q) :
  Qabs h_ <= 1000000000 ->
  Qabs (inject_Z (Math_round (radToDeg_fl (- h_)))) < big.
Proof.
  intros Hh.
  assert (Hn : Qabs (- h_) <= 1000000000) by (rewrite Qabs_opp; exact Hh).
  pose proof (radToDeg_fl_close _ Hn) as Hc.
  pose proof (radToDeg_bound _ Hn) as Hb.
  pose proof (round_close (radToDeg_fl (- h_))) as Hr.
  apply Qabs_Qle_condition in Hc as [C1 C2].
  apply Qabs_Qle_condition in Hb as [B1 B2].
  apply Qabs_Qle_condition in Hr as [R1 R2].
  unfold Math_round.
  apply Qle_lt_trans with 60000000001; [|reflexivity].
  apply Qabs_Qle_condition. lra.
Qed.

Lemma printed_numbers (x_ y_ h_ : Q) :
  printable x_ y_ h_ ->
  numberText (toFixed 1 (fl (x_ * 100))) /\
  numberText (toFixed 1 (fl (y_ * 100))) /\
  numberText (showInt (Math_round (radToDeg_fl (- h_)))).
Proof.
  intros (Hx & Hy & Hh).
  split; [apply toFixed_parseFloat, centimetres_small, Hx|].
  split; [apply toFixed_parseFloat, centimetres_small, Hy|].
  apply showInt_parseFloat, degrees_small, Hh.
Qed.

(** The first match in a text that continues with a pose line. *)
Lemma rsearch_poseLine (x_ y_ h_ : Q) (rest : string) :
  printable x_ y_ h_ ->
  rsearch poseRegex
    ("new" +:+ " " +:+ "Pose2d(" +:+ toFixed 1 (fl (x_ * 100)) +:+ "," +:+ " "
     +:+ toFixed 1 (fl (y_ * 100)) +:+ "," +:+ " " +:+ "Rotation2d.fromDegrees("
     +:+ showInt (Math_round (radToDeg_fl (- h_))) +:+ ")" +:+ ")" +:+ rest)
  = Some (printedCaptures x_ y_ h_, rest).
Proof.
  intros Hp. destruct (printed_numbers _ _ _ Hp) as (HX & HY & HD).
  apply rsearch_here, matchHere_pose; assumption.
Qed.

Lemma fieldPoseLines_cons (w : waypoint) (wps : list waypoint) :
  isAction w = false ->
  fieldPoseLines (w :: wps)
  = poseLine (toFixed 1 (fl (wx w * 100))) (toFixed 1 (fl (wy w * 100)))
             (showInt (Math_round (radToDeg_fl (- wh w))))
    +:+ fieldPoseLines wps.
Proof. intros E. cbn [fieldPoseLines]. rewrite E. reflexivity. Qed.

(** The matches behind the first one: one per waypoint. *)
Lemma execAll_poses (wps : list waypoint) :
  Forall (fun w => isAction w = false) wps ->
  Forall printableWaypoint wps ->
  forall (fuel : nat) (pre : string),
    (length wps < fuel)%nat ->
    pre = ");" +:+ nl +:+ nl \/ pre = ");" +:+ nl ->
    execAll fuel poseRegex
      (pre +:+ fieldPoseLines wps +:+ fieldPathEnd +:+ fieldNoMarkers)
    = map (fun w => printedCaptures (wx w) (wy w) (wh w)) wps.
Proof.
  intros Hreal. induction Hreal as [|w wps Hw _ IH]; intros Hprint fuel pre Hf Hpre.
  - destruct fuel as [|fuel]; [cbn in Hf; lia|].
    cbn [execAll fieldPoseLines map].
    change (EmptyString +:+ fieldPathEnd +:+ fieldNoMarkers)
      with (fieldPathEnd +:+ fieldNoMarkers).
    destruct Hpre as [->| ->]; rewrite ?append_assoc.
    + rewrite rsearch_end1. reflexivity.
    + rewrite rsearch_end2. reflexivity.
  - inversion Hprint as [|? ? Hpw Hprest]; subst.
    destruct fuel as [|fuel]; [cbn in Hf; lia|].
    cbn [execAll map]. rewrite (fieldPoseLines_cons w wps Hw).
    set (E := fieldPathEnd +:+ fieldNoMarkers).
    rewrite (append_assoc (poseLine _ _ _)), poseLine_split.
    assert (Es : rsearch poseRegex
                   (pre +:+ "    waypoints.add("
                    +:+ ("new" +:+ " " +:+ "Pose2d(" +:+ toFixed 1 (fl (wx w * 100))
                         +:+ "," +:+ " " +:+ toFixed 1 (fl (wy w * 100)) +:+ ","
                         +:+ " " +:+ "Rotation2d.fromDegrees("
                         +:+ showInt (Math_round (radToDeg_fl (- wh w)))
                         +:+ ")" +:+ ")"
                         +:+ (");" +:+ nl +:+ fieldPoseLines wps +:+ E)))
                 = Some (printedCaptures (wx w) (wy w) (wh w),
                         ");" +:+ nl +:+ fieldPoseLines wps +:+ E)).
    { destruct Hpre as [->| ->]; rewrite ?append_assoc.
      - rewrite rsearch_next1. apply rsearch_poseLine, Hpw.
      - rewrite rsearch_next2. apply rsearch_poseLine, Hpw. }
    rewrite Es. f_equal.
    rewrite <- (append_assoc ");" nl).
    apply IH; [exact Hprest | cbn in Hf; lia | right; reflexivity].
Qed.

Lemma length_fieldPoseLines (wps : list waypoint) :
  Forall (fun w => isAction w = false) wps ->
  (length wps <= String.length (fieldPoseLines wps))%nat.
Proof.
  induction 1 as [|w wps Hw _ IH]; [cbn; lia|].
  rewrite (fieldPoseLines_cons w wps Hw), length_append.
  unfold poseLine. rewrite length_append. cbn [length String.length]. lia.
Qed.

Lemma existsb_real (wps : list waypoint) :
  Forall (fun w => isAction w = false) wps -> existsb isAction wps = false.
Proof.
  induction 1 as [|w wps Hw _ IH]; [reflexivity|].
  cbn [existsb]. rewrite Hw, IH. reflexivity.
Qed.

(** All the matches of the pose pattern in a generated text: the start,
    then the waypoints in order. *)
Lemma matchAll_generated (s : state) :
  Forall (fun w => isAction w = false) (waypoints s) ->
  printablePose (start s) ->
  Forall printableWaypoint (waypoints s) ->
  matchAll poseRegex (fieldOrientedText s)
  = printedCaptures (x (start s)) (y (start s)) (h (start s))
    :: map (fun w => printedCaptures (wx w) (wy w) (wh w)) (waypoints s).
Proof.
  intros Hreal Hps Hpw. unfold matchAll.
  assert (Hlen : (length (waypoints s) < String.length (fieldOrientedText s))%nat).
  { unfold fieldOrientedText. cbv zeta. rewrite !length_append.
    pose proof (length_fieldPoseLines _ Hreal).
    unfold fieldHeader. rewrite length_append. cbn [String.length]. lia. }
  revert Hlen. generalize (String.length (fieldOrientedText s)) as n.
  intros n Hlen. cbn [execAll].
  unfold fieldOrientedText. cbv zeta. rewrite (existsb_real _ Hreal).
  set (E := fieldPathEnd +:+ fieldNoMarkers).
  rewrite poseLine_split, rsearch_first.
  rewrite (rsearch_poseLine _ _ _ _ Hps). f_equal.
  rewrite <- (append_assoc ");" nl), <- (append_assoc (");" +:+ nl) nl).
  apply execAll_poses; [exact Hreal | exact Hpw | exact Hlen | left].
  rewrite append_assoc. reflexivity.
Qed.

(** What the loop of [parseFieldOrientedCode] builds from the matches. *)
Lemma fieldPoses_later (cs : list captures) (idx : nat) (s : state) :
  waypoints (fieldPoses cs (S idx) s) = waypoints s ++ map decodedWaypoint cs /\
  start (fieldPoses cs (S idx) s) = start s.
Proof.
  revert idx s. induction cs as [|c cs IH]; intros idx s.
  - cbn [fieldPoses map]. rewrite app_nil_r. auto.
  - cbn [fieldPoses map].
    match goal with
    | |- context [fieldPoses cs ?i ?s1] => destruct (IH (S idx) s1) as [Ew Es]
    end.
    rewrite Ew, Es. cbn [waypoints start set_waypoints].
    rewrite <- app_assoc. auto.
Qed.

Lemma fieldPoses_first (c : captures) (cs : list captures) (s : state) :
  waypoints (fieldPoses (c :: cs) 0 s) = waypoints s ++ map decodedWaypoint cs /\
  start (fieldPoses (c :: cs) 0 s) = decodedPose c.
Proof.
  cbn [fieldPoses].
  match goal with
  | |- context [fieldPoses cs ?i ?s1] => destruct (fieldPoses_later cs 0 s1) as [Ew Es]
  end.
  rewrite Ew, Es. auto.
Qed.

Lemma radToDeg_degToRad (d : Q) : radToDeg (degToRad d) == d.
Proof. unfold radToDeg, degToRad. field. discriminate. Qed.

Lemma radToDeg_opp (r : Q) : radToDeg (- r) == - radToDeg r.
Proof. unfold radToDeg. field. discriminate. Qed.

(** The numbers read back from the captures of a printed pose. *)
Lemma printed_close (x_ y_ h_ : Q) :
  printable x_ y_ h_ ->
  let c := printedCaptures x_ y_ h_ in
  within (1 # 1000) (captureNum c 1 / 100) x_ /\
  within (1 # 1000) (captureNum c 2 / 100) y_ /\
  within 1 (radToDeg (degToRad (- captureAngle c))) (radToDeg h_).
Proof.
  intros (Hx & Hy & Hh) c.
  assert (Hcm : forall q v,
             Qabs q <= 1000000000 ->
             Qabs (v - fl (q * 100)) <= (1 # 2) / inject_Z (10 ^ Z.of_nat 1) ->
             Qabs (v / 100 - q) <= 1 # 1000).
  { intros q v Hq Hv.
    assert (Hv' : Qabs (v - fl (q * 100)) <= 1 # 20).
    { eapply Qle_trans; [exact Hv|]. vm_compute. discriminate. }
    clear Hv.
    assert (Hf : Qabs (fl (q * 100) - q * 100) <= 2 # 10000).
    { apply fl_coarse. apply Qabs_Qle_condition in Hq as [Q1 Q2].
      apply Qabs_Qle_condition. lra. }
    apply Qabs_Qle_condition in Hv' as [H1 H2].
    apply Qabs_Qle_condition in Hf as [F1 F2].
    apply Qabs_Qle_condition.
    assert (R : v / 100 - q == (v - q * 100) / 100) by field.
    rewrite R. split.
    - apply Qle_shift_div_l; [reflexivity|]. lra.
    - apply Qle_shift_div_r; [reflexivity|]. lra. }
  unfold within. split; [|split].
  - destruct (toFixed_parseFloat 1 (fl (x_ * 100)) (centimetres_small _ Hx))
      as (_ & v & Ev & Hv).
    change (captureNum c 1) with (num (parseFloat (toFixed 1 (fl (x_ * 100))))).
    rewrite Ev. apply Hcm; assumption.
  - destruct (toFixed_parseFloat 1 (fl (y_ * 100)) (centimetres_small _ Hy))
      as (_ & v & Ev & Hv).
    change (captureNum c 2) with (num (parseFloat (toFixed 1 (fl (y_ * 100))))).
    rewrite Ev. apply Hcm; assumption.
  - destruct (showInt_parseFloat _ (degrees_small _ Hh)) as (HN & v & Ev & Hv).
    assert (Ea : captureAngle c = v).
    { unfold captureAngle.
      change (capture c 3)
        with (Some (showInt (Math_round (radToDeg_fl (- h_))))).
      pose proof (numberText_nonempty _ HN) as Hne.
      destruct (showInt (Math_round (radToDeg_fl (- h_)))) as [|a t] eqn:Et;
        [contradiction|].
      rewrite Ev. reflexivity. }
    rewrite Ea, radToDeg_degToRad, Hv.
    assert (Hn : Qabs (- h_) <= 1000000000) by (rewrite Qabs_opp; exact Hh).
    pose proof (round_close (radToDeg_fl (- h_))) as Hr.
    pose proof (radToDeg_fl_close _ Hn) as Hc.
    pose proof (radToDeg_opp h_) as Ho.
    unfold Math_round.
    apply Qabs_Qle_condition in Hr as [R1 R2].
    apply Qabs_Qle_condition in Hc as [C1 C2].
    apply Qabs_Qle_condition. lra.
Qed.

Lemma decoded_close (wps : list waypoint) :
  Forall printableWaypoint wps ->
  Forall2 waypointClose
    (map decodedWaypoint (map (fun w => printedCaptures (wx w) (wy w) (wh w)) wps))
    wps.
Proof.
  induction 1 as [|w wps Hw _ IH]; [constructor|].
  cbn [map]. constructor; [|exact IH].
  destruct (printed_close _ _ _ Hw) as (Cx & Cy & Ch).
  unfold waypointClose, decodedWaypoint. cbn [wx wy wh segmentType arcSpeed
    arcControlPoint isAction motionWaypoint].
  repeat split; assumption.
Qed.

(** The parser on a generated text. *)
Lemma parse_generated (s s0 : state) :
  Forall (fun w => isAction w = false) (waypoints s) ->
  printablePose (start s) ->
  Forall printableWaypoint (waypoints s) ->
  let r := parseFieldOrientedCode (fieldOrientedText s) s0 in
  start r = decodedPose (printedCaptures (x (start s)) (y (start s)) (h (start s))) /\
  poseClose (start r) (start s) /\
  (exists ws, waypoints r = waypoints s0 ++ ws /\
              Forall2 waypointClose ws (waypoints s)) /\
  history r = history s0 /\ markers r = markers s0 /\
  selectedSegmentIdx r = selectedSegmentIdx s0 /\ currentMode r = currentMode s0.
Proof.
  intros Hreal Hps Hpw r. unfold r, parseFieldOrientedCode.
  rewrite (matchAll_generated s Hreal Hps Hpw).
  match goal with
  | |- context [fieldPoses (?c :: ?cs) 0 s0] =>
      destruct (fieldPoses_first c cs s0) as [Ew Es];
      destruct (fieldPoses_frame (c :: cs) 0 s0) as (Fh & Fm & Fs & Fmode)
  end.
  rewrite Ew, Es. split; [reflexivity|]. split.
  - destruct (printed_close _ _ _ Hps) as (Cx & Cy & Ch).
    unfold poseClose, decodedPose. cbn [x y h]. auto.
  - split; [|auto].
    eexists. split; [reflexivity|]. apply decoded_close, Hpw.
Qed.

(** X23.  The round trip of the field-oriented text through the parser.
    For a path without action waypoints whose coordinates and headings are
    at most a billion in magnitude, [parseFieldOrientedCode] finds in the
    text that [generateFieldOrientedCode] builds exactly one pose per
    waypoint, after the start: it sets the start to within a thousandth of
    the length unit and a degree of the original, and appends, in order,
    one [drive] waypoint of speed 0.8 per original waypoint, each within a
    thousandth and a degree of its original.  It touches nothing else. *)
Theorem field_round_trip (s s0 : state) :
  Forall (fun w => isAction w = false) (waypoints s) ->
  printablePose (start s) ->
  Forall printableWaypoint (waypoints s) ->
  let r := parseFieldOrientedCode (fieldOrientedText s) s0 in
  poseClose (start r) (start s) /\
  (exists ws, waypoints r = waypoints s0 ++ ws /\
              Forall2 waypointClose ws (waypoints s)) /\
  history r = history s0 /\ markers r = markers s0 /\
  selectedSegmentIdx r = selectedSegmentIdx s0 /\ currentMode r = currentMode s0.
Proof.
  intros Hreal Hps Hpw. apply (parse_generated s s0 Hreal Hps Hpw).
Qed.

(** A generated text is not blank and is taken for field-oriented code. *)
Lemma generated_not_blank (T : string) :
  (String.length (trim (fieldHeader +:+ T)) =? 0)%nat = false.
Proof.
  unfold fieldHeader. simpl String.append. unfold trim. cbn [trimStart].
  change (is_white "p") with false. cbv iota. cbn [trimEnd].
  change (is_white "p") with false.
  match goal with
  | |- context [trimEnd ?t] => destruct (trimEnd t)
  end; reflexivity.
Qed.

Lemma generated_is_field (T : string) :
  includes (fieldHeader +:+ T) "Pose2d" = true.
Proof. reflexivity. Qed.

Lemma decoded_drawn (m : mode) (p : point) (cs : list captures) :
  drawWaypoints m p (map decodedWaypoint cs) = map decodedWaypoint cs.
Proof.
  apply drawWaypoints_id. apply Forall_forall. intros w Hw _ Ha.
  apply list_elem_of_fmap in Hw as (c & -> & _). discriminate Ha.
Qed.

(** The decoder on a generated text, run in any state [s']. *)
Lemma decode_generated (s s' : state) :
  Forall (fun w => isAction w = false) (waypoints s) ->
  printablePose (start s) ->
  Forall printableWaypoint (waypoints s) ->
  let d := decodeAndVisualize (fieldOrientedText s) s' in
  Forall2 waypointClose (waypoints d) (waypoints s) /\
  markers d = [] /\
  history d = history (saveState s') /\
  currentMode d = currentMode s' /\
  exists p : pose,
    poseClose p (start s) /\
    start d = startAfterDecode p (start s') /\
    (isOrigin (start s') = true \/ isOrigin p = false -> start d = p).
Proof.
  intros Hreal Hps Hpw d.
  set (s3 := set_markers (fun _ => []) (set_waypoints (fun _ => []) (saveState s'))).
  pose proof (parse_generated s s3 Hreal Hps Hpw) as P. cbv zeta in P.
  destruct P as (Es & Cs & (ws & Ew & Cw) & Fh & Fm & _ & Fmode).
  assert (Ed : d = let r := parseFieldOrientedCode (fieldOrientedText s) s3 in
                   let s5 := if isOrigin (start r) && negb (isOrigin (start s'))
                             then set_start (start s') r else r in
                   if (0 <? length (waypoints s5))%nat || negb (isOrigin (start s5))
                   then generateCode (draw (set_selectedSegmentIdx (Some O) s5))
                   else alert "No waypoints found in the code." s5).
  { unfold d, decodeAndVisualize.
    assert (Et : exists T, fieldOrientedText s = fieldHeader +:+ T)
      by (eexists; reflexivity).
    destruct Et as (T & ->).
    rewrite generated_not_blank, generated_is_field. reflexivity. }
  set (r := parseFieldOrientedCode (fieldOrientedText s) s3) in *.
  assert (Hws : ws = map decodedWaypoint
                       (map (fun w => printedCaptures (wx w) (wy w) (wh w))
                            (waypoints s))).
  { unfold r, parseFieldOrientedCode in Ew.
    rewrite (matchAll_generated s Hreal Hps Hpw) in Ew.
    match type of Ew with
    | context [fieldPoses (?c :: ?cs) 0 s3] =>
        destruct (fieldPoses_first c cs s3) as [Ew' _]
    end.
    rewrite Ew' in Ew. apply app_inv_head in Ew. symmetry. exact Ew. }
  change (waypoints s3 ++ ws) with ws in Ew.
  change (markers s3) with (@nil marker) in Fm.
  change (history s3) with (history (saveState s')) in Fh.
  change (currentMode s3) with (currentMode s') in Fmode.
  rewrite Ed. cbv zeta.
  set (s5 := if isOrigin (start r) && negb (isOrigin (start s'))
             then set_start (start s') r else r).
  assert (H5 : waypoints s5 = ws /\ markers s5 = [] /\
               history s5 = history (saveState s') /\
               currentMode s5 = currentMode s' /\
               start s5 = startAfterDecode (start r) (start s')).
  { unfold s5, startAfterDecode.
    destruct (isOrigin (start r) && negb (isOrigin (start s')));
      cbn [waypoints markers history currentMode start set_start];
      rewrite ?Ew, ?Fm, ?Fh, ?Fmode; repeat split; reflexivity. }
  destruct H5 as (W5 & M5 & H5 & Mo5 & S5).
  assert (Hres : forall d' : state,
             waypoints d' = ws -> markers d' = [] ->
             history d' = history (saveState s') ->
             currentMode d' = currentMode s' ->
             start d' = startAfterDecode (start r) (start s') ->
             Forall2 waypointClose (waypoints d') (waypoints s) /\
             markers d' = [] /\
             history d' = history (saveState s') /\
             currentMode d' = currentMode s' /\
             exists p : pose,
               poseClose p (start s) /\
               start d' = startAfterDecode p (start s') /\
               (isOrigin (start s') = true \/ isOrigin p = false -> start d' = p)).
  { intros d' W M Hh Mo S. rewrite W.
    split; [exact Cw|]. split; [exact M|]. split; [exact Hh|].
    split; [exact Mo|].
    exists (start r). split; [exact Cs|]. split; [exact S|].
    rewrite S. unfold startAfterDecode.
    intros [E|E]; rewrite E; [rewrite andb_false_r|]; reflexivity. }
  destruct ((0 <? length (waypoints s5))%nat || negb (isOrigin (start s5))).
  - apply Hres; rewrite generateCode_eq;
      cbn [waypoints markers history currentMode start set_output draw
           set_waypoints set_selectedSegmentIdx]; try assumption.
    rewrite W5, Hws. apply decoded_drawn.
  - apply Hres; cbn [waypoints markers history currentMode start alert];
      assumption.
Qed.

(** X24.  The round trip through the decoder.  For a path as in X23,
    [decodeAndVisualize] on its generated text, in whatever state the
    editor is, replaces the waypoints by one [drive] waypoint per original
    waypoint, each within a thousandth and a degree of its original, and
    empties the markers; it takes one snapshot and keeps the mode.  The
    start becomes the decoded pose, which is within the same tolerance of
    the original start, with one exception: a decoded start of exactly
    (0, 0, 0) is dropped in favour of the start the editor had, when that
    was not the origin. *)
Theorem decode_generated_field (s s' : state) :
  Forall (fun w => isAction w = false) (waypoints s) ->
  printablePose (start s) ->
  Forall printableWaypoint (waypoints s) ->
  let d := decodeAndVisualize (fieldOrientedText s) s' in
  Forall2 waypointClose (waypoints d) (waypoints s) /\
  markers d = [] /\
  history d = history (saveState s') /\
  currentMode d = currentMode s' /\
  exists p : pose,
    poseClose p (start s) /\
    start d = startAfterDecode p (start s') /\
    (isOrigin (start s') = true \/ isOrigin p = false -> start d = p).
Proof.
  intros Hreal Hps Hpw. apply (decode_generated s s' Hreal Hps Hpw).
Qed.

Lemma within_refl (tol a : Q) : 0 <= tol -> within tol a a.
Proof.
  intros Ht. unfold within.
  assert (R : a - a == 0) by ring. rewrite R. exact Ht.
Qed.

(** C2, as amended.  For a path without action waypoints whose
    coordinates and headings are at most a billion in magnitude, the text
    of the field-oriented generator, decoded in the editor that generated
    it (or in one whose start is the origin), gives back the start pose and
    every waypoint, in order: positions within a thousandth of the length
    unit, headings within a degree.  Every waypoint comes back as a
    [drive] waypoint, whatever its kind was. *)
Theorem field_text_round_trip (s s' : state) :
  Forall (fun w => isAction w = false) (waypoints s) ->
  printablePose (start s) ->
  Forall printableWaypoint (waypoints s) ->
  start s' = start s \/ isOrigin (start s') = true ->
  let d := decodeAndVisualize (fieldOrientedText s) s' in
  poseClose (start d) (start s) /\
  Forall2 waypointClose (waypoints d) (waypoints s).
Proof.
  intros Hreal Hps Hpw Hs' d.
  pose proof (decode_generated s s' Hreal Hps Hpw) as P.
  cbv zeta in P. fold d in P.
  destruct P as (Hw & _ & _ & _ & p & Hp & Es & Ep).
  split; [|exact Hw].
  destruct Hs' as [E|E]; [|rewrite Ep; [exact Hp | left; exact E]].
  destruct (isOrigin p) eqn:Eo; [|rewrite Ep; [exact Hp | right; reflexivity]].
  rewrite Es. unfold startAfterDecode. rewrite Eo, E.
  destruct (isOrigin (start s)); cbn [negb andb]; [exact Hp|].
  repeat split; apply within_refl; discriminate.
Qed.

End FieldRoundTrip.

Lemma roundedStart_printable :
  Forall (fun w => isAction w = false) (waypoints Sample.roundedStart) /\
  printablePose (start Sample.roundedStart) /\
  Forall printableWaypoint (waypoints Sample.roundedStart).
Proof.
  split; [constructor; [reflexivity | constructor]|].
  split; [vm_compute; repeat split; discriminate|].
  constructor; [vm_compute; repeat split; discriminate | constructor].
Qed.

Lemma field_round_trip_witness :
  poseClose (start (parseFieldOrientedCode (@fieldOrientedText refHost Sample.roundedStart)
                      initialState))
            (start Sample.roundedStart).
Proof.
  destruct roundedStart_printable as (H1 & H2 & H3).
  exact (proj1 (@field_round_trip refHost Sample.roundedStart initialState H1 H2 H3)).
Defined.

Lemma decode_generated_field_witness :
  markers (@decodeAndVisualize refHost (@fieldOrientedText refHost Sample.roundedStart)
             Sample.withMarker) = [].
Proof.
  destruct roundedStart_printable as (H1 & H2 & H3).
  exact (proj1 (proj2 (@decode_generated_field refHost Sample.roundedStart
                         Sample.withMarker H1 H2 H3))).
Defined.

(** The witness of C2: the text of that path, decoded where it was
    generated. *)
Lemma field_text_round_trip_witness :
  let d := @decodeAndVisualize refHost (@fieldOrientedText refHost Sample.roundedStart)
             Sample.roundedStart in
  poseClose (start d) (start Sample.roundedStart) /\
  Forall2 waypointClose (waypoints d) (waypoints Sample.roundedStart).
Proof.
  destruct roundedStart_printable as (H1 & H2 & H3).
  exact (@field_text_round_trip refHost Sample.roundedStart Sample.roundedStart H1 H2 H3
           (or_introl eq_refl)).
Defined.

(** C2 as stated fails for a large coordinate.  With the start at
    [x = 1e19], turned by one radian, and a drive waypoint at (1, 0), the
    generator prints the centimetres of the start as [1e+21]; the pattern
    of the decoder does not read that, so the text holds one pose for it,
    the waypoint's, which becomes the start, and no waypoint comes back. *)
Lemma huge_start_not_reproduced :
  let s := set_start (Pose (inject_Z (10 ^ 19)) 0 1)
             (set_waypoints (fun _ => [motionWaypoint 1 0 0 drive (8 # 10)])
                initialState) in
  let d := @decodeAndVisualize refHost (@fieldOrientedText refHost s) s in
  @toFixed refHost 1 (fl (x (start s) * 100)) = "1e+21"%string /\
  waypoints d = [] /\
  x (start d) == 1 /\
  ~ poseClose (start d) (start s).
Proof.
  intros s d.
  split; [vm_compute; reflexivity|].
  split; [vm_compute; reflexivity|].
  split; [vm_compute; reflexivity|].
  intros (Hx & _). unfold within in Hx. vm_compute in Hx. apply Hx. reflexivity.
Qed.

(** ** Math helpers and the geometry kernel *)

(** X1.  On an angle of magnitude at most 2^53 (where the loops of the
    source run without rounding), [wrapDeg] only ever adds a whole number
    of turns, it leaves an angle of [-180, 180] alone, and so wrapping
    twice is wrapping once. *)
Theorem wrapDeg_idempotent (d : Q) :
  exactDeg d ->
  (exists k : Z, wrapDeg d == d + 360 * inject_Z k) /\
  (-180 <= d <= 180 -> wrapDeg d = d) /\
  wrapDeg (wrapDeg d) = wrapDeg d.
Proof.
  intros _.
  destruct (wrapDeg_spec d) as (Hr & Hid & _ & _ & Hk).
  split; [exact Hk|]. split; [exact Hid|].
  destruct (wrapDeg_spec (wrapDeg d)) as (_ & Hid' & _).
  apply Hid', Hr.
Qed.

Lemma wrapDeg_idempotent_witness :
  wrapDeg 90 = 90 /\ wrapDeg (wrapDeg 540) = wrapDeg 540.
Proof.
  assert (H1 : exactDeg 90) by (vm_compute; discriminate).
  assert (H2 : exactDeg 540) by (vm_compute; discriminate).
  split.
  - apply (proj1 (proj2 (wrapDeg_idempotent 90 H1))). split; discriminate.
  - exact (proj2 (proj2 (wrapDeg_idempotent 540 H2))).
Defined.

Section GeometryKernel.
Context `{Host}.

Lemma length_cutCorners (l : list point) :
  length (cutCorners l) = (2 * (length l - 1))%nat.
Proof.
  induction l as [|p0 [|p1 l] IH]; [reflexivity | reflexivity |].
  change (cutCorners (p0 :: p1 :: l)) with
    (Point ((3 # 4) * px p0 + (1 # 4) * px p1) ((3 # 4) * py p0 + (1 # 4) * py p1)
     :: Point ((1 # 4) * px p0 + (3 # 4) * px p1) ((1 # 4) * py p0 + (3 # 4) * py p1)
     :: cutCorners (p1 :: l)).
  cbn [length] in IH |- *. rewrite IH. lia.
Qed.

Lemma length_smoothPass (p : point) (l : list point) :
  length (smoothPass (p :: l)) = (2 * S (length l))%nat.
Proof.
  unfold smoothPass. cbn [length]. rewrite length_app, length_cutCorners.
  cbn [length]. lia.
Qed.

Lemma smoothPass_head (p : point) (l : list point) :
  exists l', smoothPass (p :: l) = p :: l'.
Proof. unfold smoothPass. eexists. reflexivity. Qed.

Lemma length_dropRepeatsFrom (prev : point) (l : list point) :
  (length (dropRepeatsFrom prev l) <= length l)%nat.
Proof.
  revert prev. induction l as [|p l IH]; intros prev; [reflexivity|].
  cbn [dropRepeatsFrom]. specialize (IH p).
  destruct (Qgtb _ _); cbn [length]; lia.
Qed.

(** X3.  [computeFieldPath] looks at the start and at the waypoints that
    are not actions only.  Without such a waypoint it returns the empty
    path; with [n] of them it returns a path that begins at the start
    position and has at most [4 (n + 1)] points (two corner-cutting passes,
    each doubling the count, then the removal of repeated points). *)
Theorem computeFieldPath_shape (s : state) :
  let real := List.filter (fun wp => negb (isAction wp)) (waypoints s) in
  (real = [] -> computeFieldPath s = []) /\
  (real <> [] ->
   head (computeFieldPath s) = Some (posePoint (start s)) /\
   (length (computeFieldPath s) <= 4 * S (length real))%nat).
Proof.
  intros real. unfold computeFieldPath. fold real.
  destruct real as [|w real']; [split; [reflexivity | congruence]|].
  split; [discriminate|]. intros _.
  cbn [map length Nat.ltb Nat.leb].
  set (p := posePoint (start s)).
  set (l := wpPoint w :: map wpPoint real').
  destruct (smoothPass_head p l) as (l1 & E1).
  pose proof (length_smoothPass p l) as L1. rewrite E1 in L1 |- *.
  destruct (smoothPass_head p l1) as (l2 & E2).
  pose proof (length_smoothPass p l1) as L2. rewrite E2 in L2 |- *.
  cbn [dropRepeats head]. split; [reflexivity|].
  pose proof (length_dropRepeatsFrom p l2) as L3.
  cbn [length] in L1, L2 |- *. subst l. cbn [length] in L1.
  rewrite length_map in L1. lia.
Qed.

End GeometryKernel.

Lemma computeFieldPath_shape_witness :
  head (@computeFieldPath refHost Sample.oneWaypoint)
  = Some (posePoint (start Sample.oneWaypoint)).
Proof.
  apply (@computeFieldPath_shape refHost Sample.oneWaypoint).
  vm_compute. discriminate.
Defined.

(** ** State management and the pointer handlers *)

Section StateManagement.
Context `{Host}.

Ltac state_simpl :=
  repeat first
    [ rewrite generateCode_eq
    | progress cbn [history waypoints markers nextMarkerId start
                    selectedSegmentIdx currentMode isSimulating simSpeed
                    arcSamples output alerts
                    set_history set_waypoints set_markers set_nextMarkerId
                    set_start set_selectedSegmentIdx set_currentMode
                    set_isSimulating set_simSpeed set_arcSamples set_output
                    alert draw displayCodeOutput fst snd model running
                    takeSnapshot snap_waypoints snap_markers snap_start
                    snap_selectedSegmentIdx]
    | case_match ].

Ltac unfold_handlers :=
  unfold handleModel, addWaypoint, selectWaypoint, setStartAt, clickMarker,
    addActionAt, dragWaypoint, dragStart, dragHeading, dragStartHeading,
    dragArcControl, changeSegmentType, changeArcSpeed, changeArcSamples,
    changeSimSpeed, deleteSelectedPoint, clearPath, undo, setMode.

(** A handler other than [undo] leaves the history alone or is one that
    starts with [saveState()]. *)
Lemma handleModel_saves (e : event) (s : state) :
  e <> Undo ->
  history (handleModel e s) = history s \/
  history (handleModel e s) = history (saveState s).
Proof.
  intros Hne. destruct e; try congruence;
    try (simpl; rewrite decodeAndVisualize_history; case_match; auto; fail);
    unfold_handlers; state_simpl; auto.
Qed.

(** X4.  In a reachable session, [undo] takes back any handler that saved
    a snapshot and left the mode alone: waypoints, markers, start and
    selection are those from before the handler, and the history is the
    one from before (less its oldest entry when it was full). *)
Theorem undo_reverts (e : event) (ss : session) :
  reachable ss -> e <> Undo ->
  let s := model ss in
  let d := handleModel e s in
  history d <> history s ->
  currentMode d = currentMode s ->
  waypoints (undo d) = waypoints s /\
  markers (undo d) = markers s /\
  start (undo d) = start s /\
  selectedSegmentIdx (undo d) = selectedSegmentIdx s /\
  history (undo d) = lastn 19 (history s).
Proof.
  intros Hr Hne s d Hh Hm.
  pose proof (reachable_history_bound ss Hr) as Hl. fold s in Hl.
  pose proof (reachable_drawn ss Hr) as Hd. fold s in Hd.
  destruct (handleModel_saves e s Hne) as [E|E]; fold d in E; [contradiction|].
  destruct (undo_newest d (takeSnapshot s)) as (Ew & Emk & Es & Esel & Ehist).
  { rewrite E. apply saveState_newest, Hl. }
  rewrite Ew, Emk, Es, Esel, Ehist, Hm, E. cbn [takeSnapshot snap_waypoints
    snap_markers snap_start snap_selectedSegmentIdx].
  split; [apply drawWaypoints_id, Hd|].
  split; [reflexivity|]. split; [reflexivity|]. split; [reflexivity|].
  apply saveState_removelast, Hl.
Qed.

Lemma last_map_Some {A : Type} (a : A) (l : list A) :
  List.last (map Some (a :: l)) None <> None.
Proof.
  revert a. induction l as [|b l IH]; intros a; [discriminate|].
  exact (IH b).
Qed.

(** X5.  [undo] does nothing on an empty history; otherwise it pops exactly
    one snapshot.  It never touches the mode, the next marker id, the
    simulation flag or the two settings: a snapshot does not hold them. *)
Theorem undo_pops_one (s : state) :
  (history s = [] -> undo s = s) /\
  length (history (undo s)) = Nat.pred (length (history s)) /\
  currentMode (undo s) = currentMode s /\
  nextMarkerId (undo s) = nextMarkerId s /\
  isSimulating (undo s) = isSimulating s /\
  simSpeed (undo s) = simSpeed s /\
  arcSamples (undo s) = arcSamples s.
Proof.
  unfold undo.
  destruct (List.last (map Some (history s)) None) as [st|] eqn:E.
  - split; [intros E0; rewrite E0 in E; discriminate|].
    rewrite generateCode_eq. cbn.
    rewrite removelast_firstn_len, length_take.
    repeat split; lia.
  - destruct (history s) as [|a l] eqn:El.
    + repeat split.
    + exfalso. exact (last_map_Some a l E).
Qed.

Lemma draw_drawn (s : state) : drawn s -> draw s = s.
Proof.
  unfold drawn, draw, set_waypoints. intros Hd. destruct s. cbn in *.
  f_equal. apply drawWaypoints_id, Hd.
Qed.

(** X6.  Drawing twice is drawing once, and in a reachable session [draw]
    writes nothing to the model at all: every arc waypoint of robot mode
    already has the control point [draw] would give it. *)
Theorem redraw_changes_nothing :
  (forall s : state, draw (draw s) = draw s) /\
  (forall ss : session, reachable ss -> draw (model ss) = model ss).
Proof.
  split.
  - intros s. apply draw_drawn, drawn_draw.
  - intros ss Hr. apply draw_drawn, reachable_drawn, Hr.
Qed.

(** *** Where an action waypoint goes *)

Lemma lastReal_spec (wps : list waypoint) :
  match lastReal wps with
  | Some j =>
      (exists v, wps !! j = Some v /\ isAction v = false) /\
      Forall (fun v => isAction v = true) (drop (S j) wps)
  | None => Forall (fun v => isAction v = true) wps
  end.
Proof.
  induction wps as [|w wps IH]; [constructor|].
  cbn [lastReal]. destruct (lastReal wps) as [j|].
  - destruct IH as [(v & E & Hv) Hf]. split; [exists v; auto | exact Hf].
  - destruct (isAction w) eqn:Ea; cbn [negb].
    + constructor; assumption.
    + split; [exists w; auto | exact IH].
Qed.

(** X7.  The insertion point of a new action waypoint, in the marker
    click and in both branches of the add-action click: it is right after
    the last waypoint that is not an action (so before the actions already
    queued behind it), or at the end when every waypoint is an action.  The
    splice puts the new waypoint there and leaves the sequence of the
    other waypoints as it was. *)
Theorem action_inserted_after_last_real (w : waypoint) (wps : list waypoint) :
  isAction w = true ->
  let k := insertAt wps in
  (k <= length wps)%nat /\
  ((exists j v, k = S j /\ wps !! j = Some v /\ isAction v = false) \/
   (k = length wps /\ Forall (fun v => isAction v = true) wps)) /\
  Forall (fun v => isAction v = true) (drop k wps) /\
  spliceIn k w wps !! k = Some w /\
  delete k (spliceIn k w wps) = wps /\
  realWaypoints (spliceIn k w wps) = realWaypoints wps.
Proof.
  intros Hw k.
  assert (Hk : (k <= length wps)%nat /\
               ((exists j v, k = S j /\ wps !! j = Some v /\ isAction v = false) \/
                (k = length wps /\ Forall (fun v => isAction v = true) wps)) /\
               Forall (fun v => isAction v = true) (drop k wps)).
  { unfold k, insertAt. pose proof (lastReal_spec wps) as Hs.
    destruct (lastReal wps) as [j|].
    - destruct Hs as [(v & E & Hv) Hf].
      split; [apply lookup_lt_Some in E; lia|].
      split; [left; exists j, v; auto | exact Hf].
    - split; [lia|]. split; [right; auto|].
      rewrite drop_all. constructor. }
  destruct Hk as (Hle & Hcase & Hdrop).
  split; [exact Hle|]. split; [exact Hcase|]. split; [exact Hdrop|].
  assert (Ht : length (take k wps) = k) by (rewrite length_take; lia).
  unfold spliceIn. split; [|split].
  - rewrite lookup_app_r by lia. rewrite Ht, Nat.sub_diag. reflexivity.
  - rewrite delete_take_drop.
    rewrite take_app_le, take_take by lia.
    replace (k `min` k)%nat with k by lia.
    rewrite drop_app_ge by lia. rewrite Ht.
    replace (S k - k)%nat with 1%nat by lia.
    cbn [drop]. rewrite drop_0. apply take_drop.
  - unfold realWaypoints. rewrite List.filter_app. cbn [List.filter].
    rewrite Hw. cbn [negb]. rewrite <- List.filter_app, take_drop. reflexivity.
Qed.

Lemma action_inserted_after_last_real_witness :
  insertAt (waypoints Sample.oneWaypoint) = 1%nat /\
  realWaypoints (spliceIn 1 (actionWaypoint 2 0 1) (waypoints Sample.oneWaypoint))
  = realWaypoints (waypoints Sample.oneWaypoint).
Proof.
  split; [vm_compute; reflexivity|].
  apply (action_inserted_after_last_real (actionWaypoint 2 0 1)
           (waypoints Sample.oneWaypoint)).
  reflexivity.
Defined.

(** *** Deleting the selected waypoint *)

Lemma Forall_delete_list {A : Type} (P : A -> Prop) (i : nat) (l : list A) :
  Forall P l -> Forall P (delete i l).
Proof.
  intros Hl. rewrite delete_take_drop. apply Forall_app.
  split; [apply Forall_take | apply Forall_drop]; exact Hl.
Qed.

(** X8.  On a drawn model, [deleteSelectedPoint] removes the selected
    waypoint and nothing else: the other waypoints stay as they are, in
    order (an arc behind the removed waypoint keeps its control point), and
    so do the markers and the start; one snapshot is taken.  Without a
    selection, or with one that is out of range, the state is returned
    unchanged and no snapshot is taken. *)
Theorem deleteSelectedPoint_effect (s : state) :
  drawn s ->
  let d := deleteSelectedPoint s in
  match selectedSegmentIdx s with
  | Some i =>
      if (i <? length (waypoints s))%nat then
        waypoints d = delete i (waypoints s) /\
        markers d = markers s /\ start d = start s /\
        currentMode d = currentMode s /\
        history d = history (saveState s)
      else d = s
  | None => d = s
  end.
Proof.
  intros Hd d. unfold d, deleteSelectedPoint.
  destruct (selectedSegmentIdx s) as [i|]; [|reflexivity].
  destruct (waypoints s !! i) as [w|] eqn:E.
  - apply lookup_lt_Some in E.
    replace (i <? length (waypoints s))%nat with true
      by (symmetry; apply Nat.ltb_lt; exact E).
    state_simpl. rewrite saveState_waypoints, saveState_mode, saveState_start.
    split; [|auto].
    apply drawWaypoints_id, Forall_delete_list, Hd.
  - apply lookup_ge_None in E.
    replace (i <? length (waypoints s))%nat with false
      by (symmetry; apply Nat.ltb_ge; exact E).
    reflexivity.
Qed.

End StateManagement.

Lemma undo_pops_one_witness : @undo refHost initialState = initialState.
Proof.
  apply (@undo_pops_one refHost initialState). reflexivity.
Defined.

Lemma undo_reverts_witness :
  let d := @handleModel refHost (AddWaypoint (Point 1 0)) initialState in
  waypoints (@undo refHost d) = [] /\ selectedSegmentIdx (@undo refHost d) = None.
Proof.
  destruct (@undo_reverts refHost (AddWaypoint (Point 1 0)) initialSession)
    as (Ew & _ & _ & Es & _).
  - apply (@reachable_initial refHost).
  - discriminate.
  - vm_compute. discriminate.
  - reflexivity.
  - split; [exact Ew | exact Es].
Defined.

(** On the sample path in robot mode, whose arc has its control point. *)
Lemma redraw_changes_nothing_witness :
  @draw refHost Sample.withArc = Sample.withArc.
Proof.
  assert (Hr : @reachable refHost
                 (Sample.run [AddWaypoint (Point 1 0); AddWaypoint (Point 1 1);
                              ChangeSegmentType arc])).
  { unfold Sample.run. cbn [foldl].
    repeat apply (@reachable_handle refHost). apply (@reachable_initial refHost). }
  exact (proj2 (@redraw_changes_nothing refHost) _ Hr).
Defined.

Lemma deleteSelectedPoint_effect_witness :
  waypoints (@deleteSelectedPoint refHost Sample.oneWaypoint) = [].
Proof.
  apply (@deleteSelectedPoint_effect refHost Sample.oneWaypoint).
  unfold drawn. vm_compute.
  repeat (constructor; [intros _ E; exact E|]). constructor.
Defined.

(** ** Retyping and dragging a waypoint *)

Section Retype.
Context `{Host}.

Lemma drawWaypoint_fields (m : mode) (p : point) (w : waypoint) :
  wpPoint (drawWaypoint m p w) = wpPoint w /\
  wh (drawWaypoint m p w) = wh w /\
  segmentType (drawWaypoint m p w) = segmentType w /\
  arcSpeed (drawWaypoint m p w) = arcSpeed w /\
  isAction (drawWaypoint m p w) = isAction w /\
  actionId (drawWaypoint m p w) = actionId w.
Proof.
  unfold drawWaypoint.
  destruct m, (segmentType w) as [[]|] eqn:E;
    try destruct (hasControl w); cbn; rewrite ?E; repeat split; reflexivity.
Qed.

Lemma drawWaypoints_points (m : mode) (p : point) (l : list waypoint) :
  wpPoint <$> drawWaypoints m p l = wpPoint <$> l.
Proof.
  revert p. induction l as [|w l IH]; intros p; [reflexivity|].
  cbn [drawWaypoints]. rewrite !fmap_cons. f_equal; [|apply IH].
  apply drawWaypoint_fields.
Qed.

Lemma alter_points (f : waypoint -> waypoint) (i : nat) (l : list waypoint) :
  (forall u, wpPoint (f u) = wpPoint u) ->
  wpPoint <$> alter f i l = wpPoint <$> l.
Proof.
  intros Hf. revert i. induction l as [|w l IH]; intros [|i]; try reflexivity.
  - cbn. f_equal. apply Hf.
  - cbn. f_equal. apply IH.
Qed.

Lemma prevPoint_points (p : point) (l l' : list waypoint) (i : nat) :
  wpPoint <$> l = wpPoint <$> l' -> prevPoint p l i = prevPoint p l' i.
Proof.
  intros E. destruct i as [|j]; [reflexivity|].
  unfold prevPoint. rewrite <- !list_lookup_fmap, E. reflexivity.
Qed.

(** What [draw] leaves at index [i]. *)
Lemma drawWaypoints_lookup (m : mode) (p : point) (l : list waypoint) (i : nat) :
  drawWaypoints m p l !! i = drawWaypoint m (prevPoint p l i) <$> l !! i.
Proof.
  revert p i. induction l as [|a l IH]; intros p [|i]; try reflexivity.
  cbn [drawWaypoints]. rewrite !lookup_cons. rewrite IH.
  destruct (l !! i) as [w|] eqn:E; [|reflexivity].
  cbn [fmap option_fmap option_map]. f_equal. f_equal.
  destruct i as [|j]; [reflexivity|].
  unfold prevPoint. rewrite lookup_cons.
  destruct (l !! j) as [u|] eqn:Ej; [reflexivity|].
  apply lookup_ge_None in Ej. apply lookup_lt_Some in E. lia.
Qed.

Lemma lookup_draw_alter (m : mode) (p : point) (f : waypoint -> waypoint)
    (i : nat) (l : list waypoint) (w : waypoint) :
  l !! i = Some w -> (forall u, wpPoint (f u) = wpPoint u) ->
  drawWaypoints m p (alter f i l) !! i
  = Some (drawWaypoint m (prevPoint p l i) (f w)).
Proof.
  intros E Hf. rewrite drawWaypoints_lookup, list_lookup_alter_eq,E.
  cbn [fmap option_fmap option_map].
  rewrite (prevPoint_points p _ l i (alter_points f i l Hf)). reflexivity.
Qed.

(** X9.  The segment-type select, with waypoint [i] selected.  The waypoint
    gets the chosen kind and keeps its position and heading.  Choosing
    [arc] puts the editor in robot mode, whatever the mode was, and leaves
    the waypoint with the default control point, computed from its
    predecessor (the start for the first waypoint): a control point the
    waypoint had is discarded.  Choosing another kind removes the control
    point and keeps the mode.  One snapshot is taken. *)
Theorem changeSegmentType_effect (v : segType) (s : state) (i : nat) (w : waypoint) :
  selectedSegmentIdx s = Some i -> waypoints s !! i = Some w ->
  let d := changeSegmentType v s in
  currentMode d = match v with arc => robot | _ => currentMode s end /\
  history d = history (saveState s) /\
  length (waypoints d) = length (waypoints s) /\
  exists w', waypoints d !! i = Some w' /\
    segmentType w' = Some v /\ wpPoint w' = wpPoint w /\ wh w' = wh w /\
    isAction w' = isAction w /\
    arcControlPoint w'
    = match v with
      | arc => ctrlAt (computeDefaultArcControl
                         (prevPoint (posePoint (start s)) (waypoints s) i)
                         (wpPoint w))
      | _ => absent
      end.
Proof.
  intros Hsel Hw d. unfold d, changeSegmentType. rewrite Hsel, Hw.
  set (s1 := saveState s).
  set (s2 := match currentMode s1, v with
             | field, arc => setMode robot s1
             | _, _ => s1
             end).
  set (retype := fun w0 : waypoint =>
                   wp_set_arcControlPoint
                     (match v with arc => null | _ => absent end)
                     (wp_set_segmentType v w0)).
  assert (Hs2 : currentMode s2 = match v with arc => robot | _ => currentMode s end /\
                history s2 = history s1 /\ start s2 = start s /\
                wpPoint <$> waypoints s2 = wpPoint <$> waypoints s /\
                exists w2, waypoints s2 !! i = Some w2 /\
                  wpPoint w2 = wpPoint w /\ wh w2 = wh w /\
                  isAction w2 = isAction w).
  { assert (Hplain : currentMode s1 = currentMode s /\ history s1 = history s1 /\
                     start s1 = start s /\
                     wpPoint <$> waypoints s1 = wpPoint <$> waypoints s /\
                     exists w2, waypoints s1 !! i = Some w2 /\
                       wpPoint w2 = wpPoint w /\ wh w2 = wh w /\
                       isAction w2 = isAction w).
    { unfold s1. rewrite saveState_mode, saveState_start, saveState_waypoints.
      repeat split. exists w. auto. }
    destruct Hplain as (Pm & Ph & Ps & Pp & Pw).
    unfold s2. rewrite Pm.
    destruct (currentMode s) eqn:Em, v; try (rewrite <- ?Em; auto 10; fail).
    unfold setMode. rewrite generateCode_eq.
    cbn [currentMode history start waypoints set_output draw set_waypoints
         set_currentMode].
    rewrite drawWaypoints_points, drawWaypoints_lookup.
    unfold s1. rewrite saveState_start, saveState_waypoints, Hw.
    cbn [fmap option_fmap option_map].
    split; [reflexivity|]. split; [reflexivity|]. split; [reflexivity|].
    split; [reflexivity|].
    eexists. split; [reflexivity|].
    destruct (drawWaypoint_fields robot
                (prevPoint (posePoint (start s)) (waypoints s) i) w)
      as (F1 & F2 & _ & _ & F5 & _).
    auto. }
  destruct Hs2 as (Em2 & Eh2 & Es2 & Ep2 & w2 & Ew2 & Fp & Fh & Fa).
  rewrite generateCode_eq.
  cbn [currentMode history start waypoints set_output draw set_waypoints].
  split; [exact Em2|]. split; [exact Eh2|].
  split.
  { rewrite drawWaypoints_length, length_alter.
    rewrite <- (length_fmap wpPoint (waypoints s2)), Ep2. apply length_fmap. }
  rewrite (lookup_draw_alter _ _ retype i _ w2 Ew2) by reflexivity.
  rewrite Es2, (prevPoint_points _ _ _ i Ep2), Em2.
  eexists. split; [reflexivity|].
  unfold drawWaypoint, retype.
  destruct v, (currentMode s);
    cbn [segmentType wp_set_arcControlPoint wp_set_segmentType hasControl
         arcControlPoint wh isAction];
    (split; [reflexivity|]); (split; [exact Fp|]); (split; [exact Fh|]);
    (split; [exact Fa|]);
    first [reflexivity | rewrite <- Fp; reflexivity].
Qed.

(** X10.  A drag of waypoint [i] to [m] moves it there and keeps its
    heading and kind; the length of the path is unchanged and no snapshot
    is taken, so [undo] cannot take a drag back.  An arc loses the control
    point it had: in robot mode it gets the default one for the new
    position, in field mode it is left with [null]. *)
Theorem dragWaypoint_effect (s : state) (i : nat) (m : point) (w : waypoint) :
  waypoints s !! i = Some w ->
  let d := dragWaypoint i m s in
  history d = history s /\
  length (waypoints d) = length (waypoints s) /\
  exists w', waypoints d !! i = Some w' /\
    wpPoint w' = m /\ wh w' = wh w /\ segmentType w' = segmentType w /\
    arcControlPoint w'
    = if isArc w then
        match currentMode s with
        | robot => ctrlAt (computeDefaultArcControl
                             (prevPoint (posePoint (start s)) (waypoints s) i) m)
        | field => null
        end
      else arcControlPoint w.
Proof.
  intros Hw d. unfold d, dragWaypoint. rewrite Hw.
  rewrite generateCode_eq.
  cbn [currentMode history start waypoints set_output draw set_waypoints].
  split; [reflexivity|].
  split; [rewrite drawWaypoints_length, length_alter; reflexivity|].
  set (move := fun w0 : waypoint =>
                 if isArc (wp_set_xy (px m) (py m) w0)
                 then wp_set_arcControlPoint null (wp_set_xy (px m) (py m) w0)
                 else wp_set_xy (px m) (py m) w0).
  rewrite drawWaypoints_lookup, list_lookup_alter_eq,Hw.
  cbn [fmap option_fmap option_map].
  eexists. split; [reflexivity|].
  assert (Hpp : prevPoint (posePoint (start s)) (alter move i (waypoints s)) i
                = prevPoint (posePoint (start s)) (waypoints s) i).
  { destruct i as [|j]; [reflexivity|].
    unfold prevPoint. rewrite list_lookup_alter_ne by lia. reflexivity. }
  rewrite Hpp.
  destruct (drawWaypoint_fields (currentMode s)
              (prevPoint (posePoint (start s)) (waypoints s) i) (move w))
    as (F1 & F2 & F3 & _).
  assert (Hmove : wpPoint (move w) = m /\ wh (move w) = wh w /\
                  segmentType (move w) = segmentType w).
  { unfold move, isArc. cbn [segmentType wp_set_xy].
    destruct (segmentType w) as [[]|] eqn:E; destruct m; cbn; rewrite ?E;
      repeat split; reflexivity. }
  destruct Hmove as (M1 & M2 & M3).
  rewrite F1, F2, F3, M1, M2, M3.
  split; [reflexivity|]. split; [reflexivity|]. split; [reflexivity|].
  unfold drawWaypoint, move, isArc. cbn [segmentType wp_set_xy].
  destruct (segmentType w) as [[]|] eqn:E; destruct (currentMode s), m;
    cbn; rewrite ?E; cbn; reflexivity.
Qed.

End Retype.

Lemma changeSegmentType_effect_witness :
  currentMode (@changeSegmentType refHost arc Sample.oneWaypoint) = robot.
Proof.
  apply (@changeSegmentType_effect refHost arc Sample.oneWaypoint 0
           (motionWaypoint 1 0 0 drive (8 # 10))); reflexivity.
Defined.

Lemma dragWaypoint_effect_witness :
  history (@dragWaypoint refHost 0 (Point 2 0) Sample.oneWaypoint)
  = history Sample.oneWaypoint.
Proof.
  apply (@dragWaypoint_effect refHost Sample.oneWaypoint 0 (Point 2 0)
           (motionWaypoint 1 0 0 drive (8 # 10))).
  reflexivity.
Defined.

(** ** Markers and action waypoints *)

Section Markers.
Context `{Host}.

Ltac state_simpl :=
  repeat first
    [ rewrite generateCode_eq
    | progress cbn [history waypoints markers nextMarkerId start
                    selectedSegmentIdx currentMode isSimulating simSpeed
                    arcSamples output alerts
                    set_history set_waypoints set_markers set_nextMarkerId
                    set_start set_selectedSegmentIdx set_currentMode
                    set_isSimulating set_simSpeed set_arcSamples set_output
                    alert draw displayCodeOutput fst snd model running
                    takeSnapshot snap_waypoints snap_markers snap_start
                    snap_selectedSegmentIdx]
    | case_match ].

Ltac unfold_handlers :=
  unfold handleModel, addWaypoint, selectWaypoint, setStartAt, clickMarker,
    addActionAt, dragWaypoint, dragStart, dragHeading, dragStartHeading,
    dragArcControl, changeSegmentType, changeArcSpeed, changeArcSamples,
    changeSimSpeed, deleteSelectedPoint, clearPath, undo, setMode.

Lemma markersOk_mono (ms : list marker) (n n' : nat) :
  (n <= n')%nat -> markersOk ms n -> markersOk ms n'.
Proof.
  intros Hn [Hb Hd]. split; [|exact Hd].
  eapply Forall_impl; [exact Hb|]. cbn. intros m Hm. lia.
Qed.

Lemma snapshots_mono (n n' : nat) (l : list snapshot) :
  (n <= n')%nat ->
  Forall (snapshotMarkersOk n) l -> Forall (snapshotMarkersOk n') l.
Proof.
  intros Hn Hl. eapply Forall_impl; [exact Hl|].
  intros st [Hm Ha]. split; [|exact Ha]. eapply markersOk_mono; eassumption.
Qed.

Lemma resolves_more (ms : list marker) (mk : marker) (w : waypoint) :
  resolves ms w -> resolves (ms ++ [mk]) w.
Proof.
  intros Hr Ha. destruct (Hr Ha) as (m & Hm & E).
  exists m. split; [|exact E]. apply elem_of_app. left. exact Hm.
Qed.

Lemma actionsOk_more (ms : list marker) (mk : marker) (l : list waypoint) :
  actionsOk ms l -> actionsOk (ms ++ [mk]) l.
Proof.
  intros Hl. eapply Forall_impl; [exact Hl|]. intros w. apply resolves_more.
Qed.

Lemma actionsOk_nil (ms : list marker) : actionsOk ms [].
Proof. constructor. Qed.

Lemma actionsOk_app (ms : list marker) (l l' : list waypoint) :
  actionsOk ms l -> actionsOk ms l' -> actionsOk ms (l ++ l').
Proof. intros Hl Hl'. apply Forall_app. split; assumption. Qed.

Lemma actionsOk_real (ms : list marker) (l : list waypoint) :
  Forall (fun w => isAction w = false) l -> actionsOk ms l.
Proof.
  intros Hl. eapply Forall_impl; [exact Hl|].
  intros w Hw Ha. congruence.
Qed.

Lemma actionsOk_motion (ms : list marker) (nx ny nh : Q) (t : segType) (v : Q) :
  actionsOk ms [motionWaypoint nx ny nh t v].
Proof. constructor; [intros Ha; discriminate Ha | constructor]. Qed.

Lemma actionsOk_draw (ms : list marker) (m : mode) (p : point) (l : list waypoint) :
  actionsOk ms l -> actionsOk ms (drawWaypoints m p l).
Proof.
  intros Hl. revert p. induction Hl as [|w l Hw _ IH]; intros p; [constructor|].
  cbn [drawWaypoints]. constructor; [|apply IH].
  destruct (drawWaypoint_fields m p w) as (_ & _ & _ & _ & Ea & Ei).
  unfold resolves. rewrite Ea, Ei. exact Hw.
Qed.

Lemma actionsOk_alter (ms : list marker) (f : waypoint -> waypoint) (i : nat)
    (l : list waypoint) :
  (forall w, isAction (f w) = isAction w /\ actionId (f w) = actionId w) ->
  actionsOk ms l -> actionsOk ms (alter f i l).
Proof.
  intros Hf Hl. apply Forall_alter; [exact Hl|].
  intros w _ Hw. destruct (Hf w) as [Ea Ei].
  unfold resolves. rewrite Ea, Ei. exact Hw.
Qed.

Lemma actionsOk_delete (ms : list marker) (i : nat) (l : list waypoint) :
  actionsOk ms l -> actionsOk ms (delete i l).
Proof. apply Forall_delete_list. Qed.

Lemma actionsOk_splice (ms : list marker) (k : nat) (w : waypoint)
    (l : list waypoint) :
  resolves ms w -> actionsOk ms l -> actionsOk ms (spliceIn k w l).
Proof.
  intros Hw Hl. unfold spliceIn. apply Forall_app. split.
  - apply Forall_take, Hl.
  - constructor; [exact Hw | apply Forall_drop, Hl].
Qed.

Lemma actionsOk_cached (ms : list marker) (p : point) (l l' : list waypoint) :
  cachedPath p l l' -> actionsOk ms l -> actionsOk ms l'.
Proof.
  induction 1 as [|prev w w' l l' Hc _ IH]; intros Hl; [constructor|].
  inversion Hl as [|? ? Hw Hrest]; subst.
  constructor; [|apply IH, Hrest].
  destruct Hc as [->|(_ & _ & ->)]; exact Hw.
Qed.

Lemma saveState_markers (s : state) :
  markers (saveState s) = markers s /\ nextMarkerId (saveState s) = nextMarkerId s.
Proof. split; reflexivity. Qed.

Lemma saveState_snapshots (s : state) :
  markersInv s -> Forall (snapshotMarkersOk (nextMarkerId s)) (history (saveState s)).
Proof.
  intros (_ & Hm & Ha & Hh). unfold saveState. cbn [history set_history].
  assert (Hp : Forall (snapshotMarkersOk (nextMarkerId s))
                 (history s ++ [takeSnapshot s])).
  { apply Forall_app. split; [exact Hh|].
    constructor; [split; assumption | constructor]. }
  destruct (20 <? _)%nat; [apply Forall_drop|]; exact Hp.
Qed.

Lemma find_elem (f : marker -> bool) (ms : list marker) (m : marker) :
  List.find f ms = Some m -> m ∈ ms.
Proof.
  intros E. apply List.find_some in E as [Hin _].
  apply list_elem_of_In. exact Hin.
Qed.

(** *** The decoder builds motion waypoints only *)

Lemma fieldPoses_real (ms : list captures) (idx : nat) (s : state) :
  Forall (fun w => isAction w = false) (waypoints s) ->
  Forall (fun w => isAction w = false) (waypoints (fieldPoses ms idx s)) /\
  nextMarkerId (fieldPoses ms idx s) = nextMarkerId s.
Proof.
  revert idx s. induction ms as [|c ms IH]; intros idx s Hs; [auto|].
  cbn [fieldPoses]. destruct idx as [|idx].
  - destruct (IH 1%nat (set_start
                (Pose (captureNum c 1 / 100) (captureNum c 2 / 100)
                      (degToRad (- captureAngle c))) s) Hs) as [Hw Hn].
    split; [exact Hw | exact Hn].
  - match goal with
    | |- context [fieldPoses ms ?i ?s1] =>
        destruct (IH i s1) as [Hw Hn]
    end.
    + cbn [waypoints set_waypoints]. apply Forall_app. split; [exact Hs|].
      constructor; [reflexivity | constructor].
    + split; [exact Hw | exact Hn].
Qed.

Lemma robotLines_real (lines : list string) (skip : nat) (c : cursor) :
  Forall (fun w => isAction w = false) (decoded c) ->
  Forall (fun w => isAction w = false) (decoded (robotLines lines skip c)).
Proof.
  revert skip c. induction lines as [|raw rest IH]; intros skip c Hc; [exact Hc|].
  cbn [robotLines]. destruct skip as [|k]; [|apply IH, Hc].
  assert (Hadv : forall distance hd hOut t speed nh,
             Forall (fun w => isAction w = false)
               (decoded (advance c distance hd hOut t speed nh))).
  { intros. unfold advance. cbn [decoded]. apply Forall_app. split; [exact Hc|].
    constructor; [reflexivity | constructor]. }
  repeat case_match; apply IH; first [exact Hc | apply Hadv].
Qed.

Lemma parseRobotOrientedCode_real (code : string) (s : state) :
  Forall (fun w => isAction w = false) (waypoints s) ->
  Forall (fun w => isAction w = false) (waypoints (parseRobotOrientedCode code s)) /\
  nextMarkerId (parseRobotOrientedCode code s) = nextMarkerId s.
Proof.
  intros Hs. unfold parseRobotOrientedCode.
  cbv zeta. cbn [waypoints set_waypoints].
  split.
  - apply Forall_app. split.
    + destruct (_ && _); exact Hs.
    + apply robotLines_real. constructor.
  - destruct (_ && _); reflexivity.
Qed.

Lemma saveState_markers_eq (s : state) : markers (saveState s) = markers s.
Proof. reflexivity. Qed.

Lemma saveState_nextMarkerId (s : state) :
  nextMarkerId (saveState s) = nextMarkerId s.
Proof. reflexivity. Qed.

Lemma last_snapshot_ok (n : nat) (l : list snapshot) (st : snapshot) :
  Forall (snapshotMarkersOk n) l ->
  List.last (map Some l) None = Some st -> snapshotMarkersOk n st.
Proof.
  intros Hl E. apply last_Some_In in E.
  exact (proj1 (List.Forall_forall _ _) Hl _ E).
Qed.

Ltac keeps_action :=
  let w := fresh "w" in
  intros w; unfold isArc; cbn;
  repeat case_match; split; reflexivity.

Ltac actions :=
  repeat first
    [ assumption
    | apply actionsOk_draw
    | apply actionsOk_nil
    | apply actionsOk_delete
    | apply actionsOk_motion
    | apply actionsOk_app
    | apply actionsOk_alter; [keeps_action|] ].

Lemma markersOk_nil (n : nat) : markersOk [] n.
Proof. split; constructor. Qed.

Lemma markersInv_draw (s : state) : markersInv s -> markersInv (draw s).
Proof.
  intros (H1 & Hm & Ha & Hh). unfold markersInv.
  cbn [draw history waypoints markers nextMarkerId set_waypoints].
  split; [exact H1|]. split; [exact Hm|]. split; [|exact Hh].
  apply actionsOk_draw, Ha.
Qed.

Lemma markersInv_generateCode (s : state) :
  markersInv s -> markersInv (generateCode s).
Proof. intros Hs. rewrite generateCode_eq. exact Hs. Qed.

(** A state the decoder has parsed into: one snapshot taken, no marker,
    motion waypoints only. *)
Lemma markersInv_parsed (s s4 : state) :
  markersInv s ->
  history s4 = history (saveState s) -> markers s4 = [] ->
  nextMarkerId s4 = nextMarkerId s ->
  Forall (fun w => isAction w = false) (waypoints s4) ->
  markersInv s4.
Proof.
  intros Hinv Eh Em En Hw.
  pose proof (saveState_snapshots s Hinv) as Hsave.
  destruct Hinv as (H1 & _).
  unfold markersInv. rewrite Eh, Em, En.
  split; [exact H1|]. split; [apply markersOk_nil|].
  split; [apply actionsOk_real, Hw | exact Hsave].
Qed.

Lemma decodeAndVisualize_markers (code : string) (s : state) :
  markersInv s -> markersInv (decodeAndVisualize code s).
Proof.
  intros Hinv. unfold decodeAndVisualize.
  destruct (String.length (trim code) =? 0)%nat; [exact Hinv|].
  cbv zeta.
  set (s3 := set_markers (fun _ => []) (set_waypoints (fun _ => []) (saveState s))).
  assert (H3 : Forall (fun w => isAction w = false) (waypoints s3)) by constructor.
  assert (Hp : forall s4 : state,
             history s4 = history s3 -> markers s4 = markers s3 ->
             nextMarkerId s4 = nextMarkerId s3 ->
             Forall (fun w => isAction w = false) (waypoints s4) ->
             forall (msg : string) (p : pose) (b : bool),
               markersInv (alert msg s4) /\
               markersInv (generateCode (draw (set_selectedSegmentIdx (Some O)
                            (if b then set_start p s4 else s4)))) /\
               markersInv (alert msg (if b then set_start p s4 else s4))).
  { intros s4 Eh Em En Hw msg p b.
    pose proof (markersInv_parsed s s4 Hinv Eh Em En Hw) as H4.
    split; [exact H4|]. split.
    - apply markersInv_generateCode, markersInv_draw.
      destruct b; exact H4.
    - destruct b; exact H4. }
  destruct (includes code "Pose2d" || includes code "ArrayList").
  - destruct (fieldPoses_frame (matchAll poseRegex code) 0 s3) as (Eh & Em & _).
    destruct (fieldPoses_real (matchAll poseRegex code) 0 s3 H3) as (Hw & En).
    fold (parseFieldOrientedCode code s3) in Eh, Em, Hw, En.
    destruct (isOrigin _ && _) eqn:Eb; destruct (_ || _);
      first [ apply (Hp _ Eh Em En Hw EmptyString (start s) true)
            | apply (Hp _ Eh Em En Hw EmptyString (start s) false) ].
  - destruct (includes code "drivePID" || includes code "strafePID"
              || includes code "turnPID" || includes code "arc(").
    + destruct (parseRobotOrientedCode_frame code s3) as (Eh & Em & _).
      destruct (parseRobotOrientedCode_real code s3 H3) as (Hw & En).
      destruct (isOrigin _ && _) eqn:Eb; destruct (_ || _);
        first [ apply (Hp _ Eh Em En Hw EmptyString (start s) true)
              | apply (Hp _ Eh Em En Hw EmptyString (start s) false) ].
    + apply (Hp s3 eq_refl eq_refl eq_refl H3 unableToDetect (start s) false).
Qed.

(** Every handler of the model keeps the marker invariant. *)
Lemma handleModel_markers (e : event) (s : state) :
  markersInv s -> markersInv (handleModel e s).
Proof.
  intros Hinv.
  pose proof (saveState_snapshots s Hinv) as Hsave.
  pose proof Hinv as (H1 & Hm & Ha & Hh).
  pose proof (Forall_removelast _ _ Hh) as Hrem.
  destruct e.
  all: try (unfold_handlers; state_simpl;
            try (repeat split; assumption);
            unfold markersInv; state_simpl;
            rewrite ?saveState_waypoints, ?saveState_markers_eq,
              ?saveState_nextMarkerId;
            (split; [assumption|]); (split; [assumption|]);
            (split; [|assumption]); actions; fail).
  - (* a click on a marker *)
    cbn [handleModel]. unfold clickMarker.
    destruct (markers s !! i) as [mk|] eqn:E; [|exact Hinv].
    apply markersInv_generateCode, markersInv_draw.
    unfold markersInv. cbn [history waypoints markers nextMarkerId set_waypoints].
    rewrite saveState_waypoints.
    split; [exact H1|]. split; [exact Hm|]. split; [|exact Hsave].
    apply actionsOk_splice; [|exact Ha].
    intros _. exists mk. split; [|reflexivity].
    eapply list_elem_of_lookup_2, E.
  - (* an add-action click *)
    cbn [handleModel]. unfold addActionAt.
    destruct name_ as [nm|]; [|apply markersInv_draw, Hinv].
    destruct (String.eqb (trim nm) EmptyString); [apply markersInv_draw, Hinv|].
    cbv zeta. rewrite saveState_markers_eq.
    destruct (findReusable (markers s) m tol (trim nm)) as [found|] eqn:Ef.
    + apply markersInv_generateCode, markersInv_draw.
      unfold markersInv. cbn [history waypoints markers nextMarkerId set_waypoints].
      rewrite saveState_waypoints.
      split; [exact H1|]. split; [exact Hm|]. split; [|exact Hsave].
      apply actionsOk_splice; [|exact Ha].
      intros _. exists found. split; [|reflexivity].
      eapply find_elem, Ef.
    + apply markersInv_generateCode, markersInv_draw.
      unfold markersInv.
      cbn [history waypoints markers nextMarkerId set_waypoints set_markers
           set_nextMarkerId].
      rewrite saveState_waypoints, saveState_nextMarkerId, ?saveState_markers_eq.
      set (n := nextMarkerId s) in *.
      match goal with
      | |- context [markers s ++ [?mk0]] => set (mk := mk0)
      end.
      destruct Hm as [Hb Hd].
      split; [lia|]. split; [split|split].
      * apply Forall_app. split.
        -- eapply Forall_impl; [exact Hb|]. cbn. intros m0 Hm0. lia.
        -- constructor; [cbn; lia | constructor].
      * rewrite map_app. apply NoDup_app. split; [exact Hd|]. split.
        -- intros j Hj Hj'. cbn in Hj'. apply list_elem_of_singleton in Hj'.
           apply list_elem_of_In, in_map_iff in Hj as (m0 & <- & Hin).
           pose proof (proj1 (List.Forall_forall _ _) Hb m0 Hin) as Hlt.
           cbn in Hlt. lia.
        -- cbn. apply NoDup_singleton.
      * apply actionsOk_splice.
        -- intros _. exists mk. split; [|reflexivity].
           apply elem_of_app. right. apply list_elem_of_here.
        -- apply actionsOk_more, Ha.
      * eapply snapshots_mono; [|exact Hsave]. lia.
  - (* clearing the path *)
    cbn [handleModel]. unfold clearPath.
    destruct confirmed; [|exact Hinv].
    unfold markersInv. cbn.
    split; [exact H1|]. split; [apply markersOk_nil|].
    split; [constructor | exact Hsave].
  - (* undo *)
    cbn [handleModel]. unfold undo.
    destruct (List.last (map Some (history s)) None) as [st|] eqn:E; [|exact Hinv].
    destruct (last_snapshot_ok _ _ _ Hh E) as [Sm Sa].
    apply markersInv_generateCode, markersInv_draw.
    unfold markersInv. cbn.
    split; [exact H1|]. split; [exact Sm|]. split; [exact Sa | exact Hrem].
  - (* decode *)
    apply decodeAndVisualize_markers, Hinv.
Qed.

Lemma simulated_markers (s s' : state) :
  simulated s s' -> markersInv s -> markersInv s'.
Proof.
  unfold simulated.
  intros (Eh & Em & En & _ & _ & _ & _ & _ & _ & _ & Hp) (H1 & Hm & Ha & Hh).
  unfold markersInv. rewrite Eh, Em, En.
  split; [exact H1|]. split; [exact Hm|]. split; [|exact Hh].
  eapply actionsOk_cached; eassumption.
Qed.

Lemma handle_markers (e : event) (ss : session) :
  markersInv (model ss) -> markersInv (model (handle e ss)).
Proof.
  intros Hinv.
  destruct e; try (exact (handleModel_markers _ _ Hinv)).
  - unfold handle. pose proof (simulated_simulate (model ss)) as Hs.
    destruct (simulate (model ss)) as [s' [m|]]; cbn [fst] in Hs; cbn [model];
      eapply simulated_markers; eassumption.
  - unfold handle. destruct (running ss) as [m|]; [|exact Hinv].
    pose proof (simulated_frame (model ss) m) as Hs.
    destruct (frame (model ss, m)) as [s' m']. cbn [fst] in Hs. cbn [model].
    eapply simulated_markers; eassumption.
Qed.

Lemma reachable_markers (ss : session) : reachable ss -> markersInv (model ss).
Proof.
  induction 1 as [|e ss _ IH].
  - unfold markersInv. cbn. split; [lia|]. split; [apply markersOk_nil|].
    split; constructor.
  - apply handle_markers, IH.
Qed.

Lemma findMarker_unique (ms : list marker) (m : marker) :
  NoDup (map id ms) -> m ∈ ms -> findMarker ms (id m) = Some m.
Proof.
  unfold findMarker. induction ms as [|a ms IH]; intros Hd Hin.
  - apply elem_of_nil in Hin. contradiction.
  - cbn [map] in Hd. apply NoDup_cons in Hd as [Hna Hd].
    cbn [List.find]. destruct (id a =? id m)%nat eqn:E.
    + apply Nat.eqb_eq in E. apply elem_of_cons in Hin as [->|Hin]; [reflexivity|].
      exfalso. apply Hna. rewrite E.
      apply list_elem_of_In, in_map, list_elem_of_In, Hin.
    + apply elem_of_cons in Hin as [->|Hin].
      * rewrite Nat.eqb_refl in E. discriminate.
      * apply IH; assumption.
Qed.

(** X11.  In every reachable session the marker ids are positive, distinct
    and below [nextMarkerId], and every action waypoint carries the id of
    one of the markers; the same holds in every snapshot [undo] can
    restore.  So the marker lookup of the generators and of [draw],
    [markers.find(m => m.id === wp.actionId)], finds the marker of every
    action waypoint, and [cur.isAction && cur.actionId] is never falsy
    for one. *)
Theorem markers_resolve (ss : session) :
  reachable ss ->
  markersInv (model ss) /\
  forall w, w ∈ waypoints (model ss) -> isAction w = true ->
    exists m, m ∈ markers (model ss) /\
      actionIdOf w = Some (id m) /\
      findMarker (markers (model ss)) (id m) = Some m.
Proof.
  intros Hr. pose proof (reachable_markers ss Hr) as Hinv.
  split; [exact Hinv|].
  destruct Hinv as (_ & [Hb Hd] & Ha & _).
  intros w Hw Hact.
  pose proof (proj1 (Forall_forall _ _) Ha w Hw Hact) as (m & Hm & Ei).
  exists m. split; [exact Hm|]. split.
  - unfold actionIdOf. rewrite Hact, Ei.
    pose proof (proj1 (Forall_forall _ _) Hb m Hm) as Hlt. cbn in Hlt.
    destruct (id m); [lia | reflexivity].
  - apply findMarker_unique; assumption.
Qed.

End Markers.

(** On the sample session with a marker and its action waypoint. *)
Lemma markers_resolve_witness :
  let ss := Sample.run [DragStart (Point (1 # 2) 0);
                        AddWaypoint (Point 1 0);
                        AddActionAt (Some "grab"%string) None (Point 1 0)
                                    (1 # 10)] in
  exists m, m ∈ markers (model ss) /\
    actionIdOf (actionWaypoint 1 0 1) = Some (id m) /\
    findMarker (markers (model ss)) (id m) = Some m.
Proof.
  intros ss.
  assert (Hr : @reachable refHost ss).
  { unfold ss, Sample.run. cbn [foldl].
    repeat apply (@reachable_handle refHost). apply (@reachable_initial refHost). }
  assert (Hw : actionWaypoint 1 0 1 ∈ waypoints (model ss))
    by (vm_compute; apply list_elem_of_further, list_elem_of_here).
  exact (proj2 (@markers_resolve refHost ss Hr) (actionWaypoint 1 0 1) Hw eq_refl).
Defined.

(** ** The robot-oriented program *)

Section RobotProgram.
Context `{Host}.

Lemma drivesFollowTurns_app (l1 l2 : list command) :
  drivesFollowTurns l1 -> drivesFollowTurns l2 -> drivesFollowTurns (l1 ++ l2).
Proof.
  intros [A0 A] [B0 B]. split.
  - intros d b E. destruct l1 as [|c l1]; [exact (B0 d b E) | exact (A0 d b E)].
  - intros i d b E.
    destruct (decide (S i < length l1)%nat) as [Hlt|Hge].
    + rewrite lookup_app_l in E by lia. rewrite lookup_app_l by lia.
      exact (A i d b E).
    + rewrite lookup_app_r in E by lia.
      destruct (decide (S i = length l1)) as [Heq|Hne].
      * rewrite Heq, Nat.sub_diag in E. exfalso. exact (B0 d b E).
      * rewrite lookup_app_r by lia.
        replace (S i - length l1)%nat with (S (i - length l1)) in E by lia.
        exact (B _ d b E).
Qed.

Lemma drivesFollowTurns_nil : drivesFollowTurns [].
Proof. split; intros; discriminate. Qed.

(** A single statement that is not a drive. *)
Lemma drivesFollowTurns_one (c : command) :
  (forall d b, c <> drivePID d b) -> drivesFollowTurns [c].
Proof.
  intros Hc. split.
  - intros d b [= E]. exact (Hc d b E).
  - intros i d b E. destruct i; discriminate E.
Qed.

Lemma drivesFollowTurns_pair (dist : Q) (deg : Z) :
  drivesFollowTurns [turnPID deg EmptyString; drivePID dist deg].
Proof.
  split.
  - intros d b E. discriminate E.
  - intros [|[|i]] d b E; try discriminate E.
    injection E as _ <-. reflexivity.
Qed.

Lemma drivesFollowTurns_segment (samples : Z) (ms : list marker)
    (prev : point) (cur : waypoint) :
  drivesFollowTurns (segmentCommands samples ms prev cur).
Proof.
  unfold segmentCommands. cbv zeta.
  destruct (Qltb _ _).
  - destruct (Qgtb _ _);
      [apply drivesFollowTurns_one; discriminate | apply drivesFollowTurns_nil].
  - apply drivesFollowTurns_app; [|apply drivesFollowTurns_app].
    + destruct (segmentTypeOr cur);
        [ apply drivesFollowTurns_pair
        | apply drivesFollowTurns_one; discriminate
        | apply drivesFollowTurns_one; discriminate ].
    + destruct (_ && _); [|apply drivesFollowTurns_nil].
      destruct (Qgtb _ _);
        [apply drivesFollowTurns_one; discriminate | apply drivesFollowTurns_nil].
    + destruct (actionIdOf cur) as [i|]; [|apply drivesFollowTurns_nil].
      destruct (findMarker ms i);
        [apply drivesFollowTurns_one; discriminate | apply drivesFollowTurns_nil].
Qed.

Lemma drivesFollowTurns_path (samples : Z) (ms : list marker)
    (prev : point) (wps : list waypoint) :
  drivesFollowTurns (pathCommands samples ms prev wps).
Proof.
  revert prev. induction wps as [|cur rest IH]; intros prev.
  - apply drivesFollowTurns_nil.
  - cbn [pathCommands]. apply drivesFollowTurns_app;
      [apply drivesFollowTurns_segment | apply IH].
Qed.

(** X13.  In the program of every path, no [drivePID] comes first, and
    each [drivePID] comes right after a plain [turnPID] to the very
    heading it drives along: the robot is always turned onto the segment
    before it drives it.  (A [strafePID] and an arc have no such turn.) *)
Theorem drive_follows_turn (s : state) :
  drivesFollowTurns (robotCommands s).
Proof.
  unfold robotCommands.
  apply (drivesFollowTurns_app [turnPID 0 " // face start heading"]).
  - apply drivesFollowTurns_one. discriminate.
  - apply drivesFollowTurns_path.
Qed.


(** X15.  In a reachable session, an action waypoint a millimetre or more
    from its predecessor always gets its call: the statements of its
    segment end with the [actionCall] of the marker whose id it carries. *)
Theorem action_waypoint_is_called (ss : session) (samples : Z) (prev : point)
    (cur : waypoint) :
  reachable ss ->
  cur ∈ waypoints (model ss) -> isAction cur = true ->
  Qltb (Math_sqrt ((wx cur - px prev) * (wx cur - px prev)
                   + (wy cur - py prev) * (wy cur - py prev))) (1 # 1000) = false ->
  exists (m : marker) (before : list command),
    m ∈ markers (model ss) /\ actionId cur = Some (id m) /\
    segmentCommands samples (markers (model ss)) prev cur
    = before ++ [actionCall (name m) (args m)].
Proof.
  intros Hr Hin Hact Hd.
  destruct (reachable_markers ss Hr) as (_ & [Hb Hnd] & Ha & _).
  pose proof (proj1 (Forall_forall _ _) Ha cur Hin Hact) as (m & Hm & Ei).
  pose proof (proj1 (Forall_forall _ _) Hb m Hm) as Hlt. cbn in Hlt.
  exists m. eexists. split; [exact Hm|]. split; [exact Ei|].
  unfold segmentCommands. cbv zeta. rewrite Hd.
  assert (Eid : actionIdOf cur = Some (id m)).
  { unfold actionIdOf. rewrite Hact, Ei. destruct (id m); [lia | reflexivity]. }
  rewrite Eid, (findMarker_unique _ _ Hnd Hm).
  rewrite app_assoc. reflexivity.
Qed.

(** X16.  [generateCode] writes the code panel and nothing else, and the
    text it shows does not depend on what the panel held: generating twice
    is generating once. *)
Theorem generateCode_only_output (s : state) :
  generateCode (generateCode s) = generateCode s /\
  history (generateCode s) = history s /\
  waypoints (generateCode s) = waypoints s /\
  markers (generateCode s) = markers s /\
  start (generateCode s) = start s /\
  selectedSegmentIdx (generateCode s) = selectedSegmentIdx s /\
  currentMode (generateCode s) = currentMode s.
Proof.
  rewrite !generateCode_eq. destruct s. cbn. repeat split.
Qed.

End RobotProgram.

Lemma action_waypoint_is_called_witness :
  let ss := @handle refHost
              (AddActionAt (Some "grab"%string) None (Point 1 0) (1 # 10))
              initialSession in
  exists (m : marker) (before : list command),
    m ∈ markers (model ss) /\ actionId (actionWaypoint 1 0 1) = Some (id m) /\
    @segmentCommands refHost 5 (markers (model ss)) (Point 0 0) (actionWaypoint 1 0 1)
    = before ++ [actionCall (name m) (args m)].
Proof.
  intros ss.
  assert (Hr : @reachable refHost ss)
    by (apply (@reachable_handle refHost), (@reachable_initial refHost)).
  assert (Hin : actionWaypoint 1 0 1 ∈ waypoints (model ss))
    by (vm_compute; apply list_elem_of_here).
  assert (Hd : Qltb (@Math_sqrt refHost
                       ((wx (actionWaypoint 1 0 1) - px (Point 0 0))
                        * (wx (actionWaypoint 1 0 1) - px (Point 0 0))
                        + (wy (actionWaypoint 1 0 1) - py (Point 0 0))
                          * (wy (actionWaypoint 1 0 1) - py (Point 0 0))))
                    (1 # 1000) = false)
    by (vm_compute; reflexivity).
  exact (@action_waypoint_is_called refHost ss 5 (Point 0 0)
           (actionWaypoint 1 0 1) Hr Hin eq_refl Hd).
Defined.


(** ** The robot-oriented decoder *)

Section RobotDecoder.
Context `{Host}.

(** The heading of the cursor is written by a [turnPID] line and by every
    motion, and read by nothing. *)
Lemma robotLines_heading (lines : list string) (skip : nat) (c : cursor) (hd : Q) :
  decoded (robotLines lines skip (cursor_set_heading hd c))
  = decoded (robotLines lines skip c) /\
  currentX (robotLines lines skip (cursor_set_heading hd c))
  = currentX (robotLines lines skip c) /\
  currentY (robotLines lines skip (cursor_set_heading hd c))
  = currentY (robotLines lines skip c).
Proof.
  revert skip c hd. induction lines as [|raw rest IH]; intros skip c hd;
    [repeat split; reflexivity|].
  cbn [robotLines]. destruct skip as [|k]; [|apply IH].
  repeat case_match; first [apply IH | repeat split; reflexivity].
Qed.

Lemma robotLines_length (lines : list string) (skip : nat) (c : cursor) :
  (length (decoded (robotLines lines skip c))
   <= length (decoded c) + length lines)%nat.
Proof.
  revert skip c. induction lines as [|raw rest IH]; intros skip c;
    [cbn; lia|].
  cbn [robotLines length]. destruct skip as [|k].
  - repeat case_match;
      match goal with
      | |- context [robotLines rest ?k ?c'] =>
          specialize (IH k c'); unfold advance in IH; cbn [decoded] in IH;
          rewrite ?length_app in IH; cbn [length] in IH; unfold advance; lia
      end.
  - specialize (IH k c). lia.
Qed.

(** Lines that open no arc statement are read one by one: the loop is at
    the line behind them, skipping nothing, with the cursor they leave. *)
Lemma robotLines_app (pre lines : list string) (c : cursor) :
  Forall (fun l => rsearch arcStartRegex (trim l) = None) pre ->
  robotLines (pre ++ lines) 0 c = robotLines lines 0 (robotLines pre 0 c).
Proof.
  intros Hpre. revert c. induction Hpre as [|l pre Hl _ IH]; intros c;
    [reflexivity|].
  cbn [app robotLines]. cbv zeta. rewrite Hl.
  repeat case_match; apply IH.
Qed.

(** X22.  The robot-oriented decoder does not use the heading that a
    [turnPID] statement sets: the waypoints it builds and the position it
    ends at are the same whatever heading the cursor holds (the heading of
    a decoded waypoint comes from its motion statement alone).  So a
    [turnPID] line that the loop reads as a statement can be deleted
    without changing what is decoded; the loop reads every line of a text
    whose earlier lines open no arc statement.  (Among the lines of an arc
    statement a [turnPID] line is not read as a statement: it is part of
    the text the arc's headings are taken from, and its [");"] ends the
    arc.)  The decoder builds at most one waypoint per line. *)
Theorem robot_decoder_ignores_turns :
  (forall (lines : list string) (skip : nat) (c : cursor) (hd : Q),
     decoded (robotLines lines skip (cursor_set_heading hd c))
     = decoded (robotLines lines skip c)) /\
  (forall (pre : list string) (raw : string) (post : list string) (c : cursor),
     Forall (fun l => rsearch arcStartRegex (trim l) = None) pre ->
     startsWith (trim raw) "//" || (String.length (trim raw) =? 0)%nat = false ->
     rsearch turnRegex (trim raw) <> None ->
     decoded (robotLines (pre ++ raw :: post) 0 c)
     = decoded (robotLines (pre ++ post) 0 c) /\
     currentX (robotLines (pre ++ raw :: post) 0 c)
     = currentX (robotLines (pre ++ post) 0 c) /\
     currentY (robotLines (pre ++ raw :: post) 0 c)
     = currentY (robotLines (pre ++ post) 0 c)) /\
  (forall (lines : list string) (c : cursor),
     (length (decoded (robotLines lines 0 c))
      <= length (decoded c) + length lines)%nat).
Proof.
  split; [intros; apply robotLines_heading|].
  split; [|intros; apply robotLines_length].
  intros pre raw post c Hpre Hc Ht.
  rewrite !(robotLines_app pre _ c Hpre).
  cbn [robotLines]. rewrite Hc.
  destruct (rsearch turnRegex (trim raw)) as [[m r]|]; [|contradiction].
  apply (robotLines_heading post 0 (robotLines pre 0 c) (captureNum m 1)).
Qed.

End RobotDecoder.

Lemma robot_decoder_ignores_turns_witness :
  decoded (@robotLines refHost
             ["drivePID(1.00, 0);"; "turnPID(90);"; "drivePID(1.00, 90);"]%string
             0 (Cursor 0 0 0 []))
  = decoded (@robotLines refHost
               ["drivePID(1.00, 0);"; "drivePID(1.00, 90);"]%string
               0 (Cursor 0 0 0 [])).
Proof.
  assert (Hp : Forall (fun l => rsearch arcStartRegex (trim l) = None)
                 ["drivePID(1.00, 0);"%string])
    by (constructor; [vm_compute; reflexivity | constructor]).
  assert (Hc : startsWith (trim "turnPID(90);") "//"
               || (String.length (trim "turnPID(90);") =? 0)%nat = false)
    by (vm_compute; reflexivity).
  assert (Ht : rsearch turnRegex (trim "turnPID(90);") <> None)
    by (vm_compute; discriminate).
  exact (proj1 (proj1 (proj2 (@robot_decoder_ignores_turns refHost))
                  ["drivePID(1.00, 0);"%string] "turnPID(90);"%string
                  ["drivePID(1.00, 90);"%string]
                  (Cursor 0 0 0 []) Hp Hc Ht)).
Defined.

(** ** A generated motion statement, decoded *)

Section StatementRoundTrip.
Local Arguments String.append !_ _ : simpl nomatch.
Context `{Host}.

Lemma trimEnd_app (s t : string) :
  trimEnd t = t -> t <> EmptyString ->
  trimEnd (s +:+ t) = s +:+ t /\ s +:+ t <> EmptyString.
Proof.
  intros Et Hne. induction s as [|c s [IH Hs]]; [auto|].
  simpl String.append. split; [|discriminate].
  cbn [trimEnd]. rewrite IH.
  destruct (s +:+ t); [contradiction | reflexivity].
Qed.

(** A pattern that starts with a letter finds nothing in a text without
    that letter. *)
Lemma rsearch_no_letter (a : ascii) (p : string) (r : regex) (s : string) :
  allChars (fun b => negb (Ascii.eqb a b)) s = true ->
  rsearch (RSeq (RStr (String a p)) r) s = None.
Proof.
  induction s as [|b s IH]; intros Hs; [reflexivity|].
  cbn [allChars] in Hs. apply andb_prop in Hs as [Hb Hs].
  apply negb_true_iff in Hb.
  rewrite rsearch_skip; [apply IH, Hs|].
  unfold matchHere. rewrite rmatch_RSeq. apply rmatch_RStr_other, Hb.
Qed.

Lemma allChars_numberText (q : ascii -> bool) (N : string) :
  numberText N -> q "-"%char = true -> q "."%char = true ->
  (forall d, is_digit d = true -> q d = true) ->
  allChars q N = true.
Proof.
  intros (neg & ip & fp & -> & Hip & _ & Hfp) Hm Hp Hd.
  assert (Hdig : forall ds, allChars is_digit ds = true -> allChars q ds = true).
  { induction ds as [|d ds IH]; [reflexivity|].
    cbn [allChars]. intros E. apply andb_prop in E as [E1 E2].
    rewrite (Hd d E1), (IH E2). reflexivity. }
  rewrite !allChars_append, (Hdig ip Hip).
  assert (Hs : allChars q (if neg then "-" else EmptyString) = true).
  { destruct neg; [cbn [allChars]; rewrite Hm|]; reflexivity. }
  rewrite Hs. cbn [andb].
  destruct Hfp as [->|(f & -> & Hf)]; [reflexivity|].
  simpl String.append. cbn [allChars]. rewrite Hp, (Hdig f Hf). reflexivity.
Qed.

Lemma is_digit_not_letter (a d : ascii) :
  is_digit a = false -> is_digit d = true -> negb (Ascii.eqb a d) = true.
Proof.
  intros Ha Hd. apply negb_true_iff.
  destruct (Ascii.eqb_spec a d) as [->|]; [congruence | reflexivity].
Qed.

(** The text of a motion statement has no [t] and no [d] but those of its
    keyword. *)
Lemma statement_no_letter (a : ascii) (kw N1 N2 : string) :
  is_digit a = false -> Ascii.eqb a "-" = false -> Ascii.eqb a "." = false ->
  allChars (fun b => negb (Ascii.eqb a b)) (kw +:+ "(, );") = true ->
  numberText N1 -> numberText N2 ->
  allChars (fun b => negb (Ascii.eqb a b))
    (kw +:+ "(" +:+ N1 +:+ ", " +:+ N2 +:+ ");") = true.
Proof.
  intros Ha Hm Hp Hk H1 H2.
  assert (HN : forall N, numberText N ->
                 allChars (fun b => negb (Ascii.eqb a b)) N = true).
  { intros N HNt. apply allChars_numberText; [exact HNt | | |].
    - rewrite Hm. reflexivity.
    - rewrite Hp. reflexivity.
    - intros d Hd. apply is_digit_not_letter; assumption. }
  rewrite allChars_append in Hk. apply andb_prop in Hk as [Hkw Hrest].
  cbn [allChars] in Hrest.
  apply andb_prop in Hrest as [Ho Hrest].
  apply andb_prop in Hrest as [Hc Hrest].
  apply andb_prop in Hrest as [Hsp Hrest].
  apply andb_prop in Hrest as [Hcl Hrest].
  apply andb_prop in Hrest as [Hsc _].
  rewrite !allChars_append, Hkw, (HN N1 H1), (HN N2 H2).
  cbn [allChars]. rewrite Ho, Hc, Hsp, Hcl, Hsc. reflexivity.
Qed.

Lemma rmatch_RStar_zero {A : Type} (p : ascii -> bool) (s : string)
    (c : captures) (k : string -> captures -> option A) (a : A) :
  headIs p s = false -> k s c = Some a -> rmatch (RStar p) s c k = Some a.
Proof. intros Hs Hk. cbn [rmatch]. apply starGreedy_stop; assumption. Qed.

(** The pattern of a motion statement on a generated one. *)
Lemma matchHere_move (kw N1 N2 rest : string) :
  numberText N1 -> numberText N2 ->
  headIs is_white rest = false ->
  matchHere (moveRegex kw)
    (kw +:+ "(" +:+ N1 +:+ "," +:+ " " +:+ N2 +:+ ")" +:+ rest)
  = Some (<[2%nat := Some N2]> (<[1%nat := Some N1]> noCaptures), rest).
Proof.
  intros H1 H2 Hr. unfold matchHere, moveRegex. cbn [RCat].
  rewrite rmatch_RSeq, rmatch_RStr.
  rewrite rmatch_RSeq. apply rmatch_RStar_zero; [reflexivity|].
  rewrite rmatch_RSeq, rmatch_RChar.
  rewrite rmatch_RSeq.
  apply rmatch_RStar_zero;
    [apply headIs_numberText;
       [exact H1 | reflexivity | exact is_digit_not_white]|].
  rewrite rmatch_RSeq.
  apply rmatch_group_number; [exact H1 | reflexivity |].
  rewrite rmatch_RSeq. apply rmatch_RStar_zero; [reflexivity|].
  rewrite rmatch_RSeq, rmatch_RChar.
  rewrite rmatch_RSeq.
  apply rmatch_RStar_one;
    [reflexivity
    | apply headIs_numberText;
        [exact H2 | reflexivity | exact is_digit_not_white]
    |].
  rewrite rmatch_RSeq.
  apply rmatch_group_number; [exact H2 | reflexivity |].
  rewrite rmatch_RSeq. apply rmatch_RStar_zero; [reflexivity|].
  rewrite rmatch_RChar. reflexivity.
Qed.

(** The line of a statement survives [trim]. *)
Lemma statement_trim (c0 : ascii) (kw N1 N2 : string) :
  is_white c0 = false ->
  trim (String c0 kw +:+ "(" +:+ N1 +:+ ", " +:+ N2 +:+ ");")
  = String c0 kw +:+ "(" +:+ N1 +:+ ", " +:+ N2 +:+ ");".
Proof.
  intros Hc. unfold trim. simpl String.append at 1. cbn [trimStart].
  rewrite Hc.
  change (String c0 (kw +:+ "(" +:+ N1 +:+ ", " +:+ N2 +:+ ");"))
    with (String c0 kw +:+ "(" +:+ N1 +:+ ", " +:+ N2 +:+ ");").
  assert (E0 : trimEnd ");" = ");" /\ ");"%string <> EmptyString)
    by (split; [reflexivity | discriminate]).
  destruct E0 as [E0 N0].
  destruct (trimEnd_app N2 _ E0 N0) as [E1 N1'].
  destruct (trimEnd_app ", " _ E1 N1') as [E2 N2'].
  destruct (trimEnd_app N1 _ E2 N2') as [E3 N3'].
  destruct (trimEnd_app "(" _ E3 N3') as [E4 N4'].
  destruct (trimEnd_app (String c0 kw) _ E4 N4') as [E5 _].
  exact E5.
Qed.

(** One line of the decoder's loop on a generated [drivePID] statement. *)
Lemma robotLines_drive (N1 N2 : string) (rest : list string) (c : cursor) :
  numberText N1 -> numberText N2 ->
  robotLines (("drivePID" +:+ "(" +:+ N1 +:+ ", " +:+ N2 +:+ ");") :: rest) 0 c
  = robotLines rest 0
      (advance c (num (parseFloat N1)) (num (parseFloat N2))
               (num (parseFloat N2)) drive (8 # 10) (num (parseFloat N2))).
Proof.
  intros H1 H2. cbn [robotLines].
  rewrite (statement_trim "d" "rivePID" N1 N2 eq_refl).
  set (line := "drivePID" +:+ "(" +:+ N1 +:+ ", " +:+ N2 +:+ ");").
  assert (Hs : startsWith line "//" || (String.length line =? 0)%nat = false)
    by reflexivity.
  rewrite Hs.
  assert (Ht : rsearch turnRegex line = None).
  { unfold turnRegex. cbn [RCat].
    apply (rsearch_no_letter "t" "urnPID").
    apply (statement_no_letter "t" "drivePID"); auto. }
  rewrite Ht.
  assert (Hm : rsearch (moveRegex "drivePID") line
               = Some (<[2%nat := Some N2]> (<[1%nat := Some N1]> noCaptures),
                       ";"%string)).
  { apply rsearch_here.
    apply (matchHere_move "drivePID" N1 N2 ";" H1 H2 eq_refl). }
  rewrite Hm. reflexivity.
Qed.

Lemma robotLines_strafe (N1 N2 : string) (rest : list string) (c : cursor) :
  numberText N1 -> numberText N2 ->
  robotLines (("strafePID" +:+ "(" +:+ N1 +:+ ", " +:+ N2 +:+ ");") :: rest) 0 c
  = robotLines rest 0
      (advance c (num (parseFloat N1)) (num (parseFloat N2))
               (num (parseFloat N2)) strafe (8 # 10) (num (parseFloat N2))).
Proof.
  intros H1 H2. cbn [robotLines].
  rewrite (statement_trim "s" "trafePID" N1 N2 eq_refl).
  set (line := "strafePID" +:+ "(" +:+ N1 +:+ ", " +:+ N2 +:+ ");").
  assert (Hs : startsWith line "//" || (String.length line =? 0)%nat = false)
    by reflexivity.
  rewrite Hs.
  assert (Ht : rsearch turnRegex line = None).
  { change line
      with (String "s" (String "t"
              ("rafePID" +:+ "(" +:+ N1 +:+ ", " +:+ N2 +:+ ");"))).
    rewrite rsearch_skip by reflexivity. rewrite rsearch_skip by reflexivity.
    unfold turnRegex. cbn [RCat].
    apply (rsearch_no_letter "t" "urnPID").
    apply (statement_no_letter "t" "rafePID"); auto. }
  rewrite Ht.
  assert (Hd : rsearch (moveRegex "drivePID") line = None).
  { unfold moveRegex. cbn [RCat].
    apply (rsearch_no_letter "d" "rivePID").
    apply (statement_no_letter "d" "strafePID"); auto. }
  rewrite Hd.
  assert (Hm : rsearch (moveRegex "strafePID") line
               = Some (<[2%nat := Some N2]> (<[1%nat := Some N1]> noCaptures),
                       ";"%string)).
  { apply rsearch_here.
    apply (matchHere_move "strafePID" N1 N2 ";" H1 H2 eq_refl). }
  rewrite Hm. reflexivity.
Qed.

(** X27.  A [drivePID] or [strafePID] statement as the robot-oriented
    generator prints it is read back by the robot-oriented decoder when the
    loop reads its line, which it does in every text whose earlier lines
    open no arc statement: the decoder takes it for neither a turn nor the
    other motion, and moves its cursor by the distance it reads along the
    heading it reads, adding one waypoint of the statement's kind.  The
    distance read back is within a hundredth of the one printed (the text
    has two decimals), the heading is the same number of degrees. *)
Theorem motion_statement_round_trip (dist : Q) (deg : Z)
    (pre rest : list string) (c : cursor) :
  Qabs dist < big -> Qabs (inject_Z deg) < big ->
  Forall (fun l => rsearch arcStartRegex (trim l) = None) pre ->
  let driveLine :=
    "drivePID(" +:+ toFixed 2 dist +:+ ", " +:+ showInt deg +:+ ");" in
  let strafeLine :=
    "strafePID(" +:+ toFixed 2 dist +:+ ", " +:+ showInt deg +:+ ");" in
  render (drivePID dist deg) = driveLine +:+ nl /\
  render (strafePID dist deg) = strafeLine +:+ nl /\
  exists d' b' : Q,
    Qabs (d' - dist) <= 1 # 100 /\ b' == inject_Z deg /\
    robotLines (pre ++ driveLine :: rest) 0 c
    = robotLines rest 0
        (advance (robotLines pre 0 c) d' b' b' drive (8 # 10) b') /\
    robotLines (pre ++ strafeLine :: rest) 0 c
    = robotLines rest 0
        (advance (robotLines pre 0 c) d' b' b' strafe (8 # 10) b').
Proof.
  intros Hd Hb Hpre driveLine strafeLine.
  split; [unfold driveLine; cbn [render]; rewrite !append_assoc; reflexivity|].
  split; [unfold strafeLine; cbn [render]; rewrite !append_assoc; reflexivity|].
  destruct (toFixed_parseFloat 2 dist Hd) as (H1 & d' & Ed & Hclose).
  destruct (showInt_parseFloat deg Hb) as (H2 & b' & Eb & Hsame).
  exists d', b'.
  split.
  { eapply Qle_trans; [exact Hclose|]. vm_compute. discriminate. }
  split; [exact Hsame|].
  rewrite !(robotLines_app pre _ c Hpre).
  split.
  - unfold driveLine.
    change ("drivePID(" +:+ toFixed 2 dist +:+ ", " +:+ showInt deg +:+ ");")
      with ("drivePID" +:+ "(" +:+ toFixed 2 dist +:+ ", " +:+ showInt deg
            +:+ ");").
    rewrite (robotLines_drive _ _ rest _ H1 H2), Ed, Eb. reflexivity.
  - unfold strafeLine.
    change ("strafePID(" +:+ toFixed 2 dist +:+ ", " +:+ showInt deg +:+ ");")
      with ("strafePID" +:+ "(" +:+ toFixed 2 dist +:+ ", " +:+ showInt deg
            +:+ ");").
    rewrite (robotLines_strafe _ _ rest _ H1 H2), Ed, Eb. reflexivity.
Qed.

End StatementRoundTrip.

Lemma motion_statement_round_trip_witness :
  exists d' b' : Q,
    Qabs (d' - (1 # 8)) <= 1 # 100 /\ b' == inject_Z 90 /\
    @robotLines refHost
      ["turnPID(90);"%string;
       ("drivePID(" +:+ @toFixed refHost 2 (1 # 8) +:+ ", "
        +:+ @showInt refHost 90 +:+ ");")%string]
      0 {| currentX := 0; currentY := 0; curHeadingDeg := 0; decoded := [] |}
    = @advance refHost
        {| currentX := 0; currentY := 0; curHeadingDeg := 90; decoded := [] |}
        d' b' b' drive (8 # 10) b'.
Proof.
  assert (Hd : Qabs (1 # 8) < big) by (vm_compute; reflexivity).
  assert (Hb : Qabs (inject_Z 90) < big) by (vm_compute; reflexivity).
  assert (Hp : Forall (fun l => rsearch arcStartRegex (trim l) = None)
                 ["turnPID(90);"%string])
    by (constructor; [vm_compute; reflexivity | constructor]).
  destruct (proj2 (proj2 (@motion_statement_round_trip refHost (1 # 8) 90
              ["turnPID(90);"%string] []
              {| currentX := 0; currentY := 0; curHeadingDeg := 0;
                 decoded := [] |} Hd Hb Hp)))
    as (d' & b' & H1 & H2 & H3 & _).
  exists d', b'. split; [exact H1|]. split; [exact H2|]. exact H3.
Defined.

(** ** The simulator: start, control points, turning, stopping *)

Section SimulatorRun.
Context `{Host}.

Lemma getArcControlPoint_flag (i : nat) (s : state) :
  isSimulating (fst (getArcControlPoint i s)) = isSimulating s.
Proof. unfold getArcControlPoint. repeat case_match; reflexivity. Qed.

Lemma controlPointOf_flag (i : nat) (info : segment) (s : state) :
  isSimulating (fst (controlPointOf i info s)) = isSimulating s.
Proof.
  unfold controlPointOf. pose proof (getArcControlPoint_flag i s) as E.
  destruct (getArcControlPoint i s) as [s' [c|]]; exact E.
Qed.

Lemma robotPathPoints_flag (n i : nat) (s : state) :
  isSimulating (fst (robotPathPoints n i s)) = isSimulating s.
Proof.
  revert i s. induction n as [|n IH]; intros i s; [reflexivity|].
  cbn [robotPathPoints].
  destruct (segInfo s i) as [info|]; [|reflexivity].
  set (here := match seg_type info, currentMode s with
               | arc, robot =>
                   let '(s', c) := controlPointOf i info s in
                   (s', arcPathPoints info c)
               | _, _ => (s, [posePoint (seg_a info); wpPoint (seg_b info)])
               end).
  assert (Hh : isSimulating (fst here) = isSimulating s).
  { unfold here. destruct (seg_type info), (currentMode s); try reflexivity.
    pose proof (controlPointOf_flag i info s) as Hc.
    destruct (controlPointOf i info s) as [s' c]. exact Hc. }
  destruct here as [s1 pts]. cbn [fst] in Hh.
  specialize (IH (S i) s1).
  destruct (robotPathPoints n (S i) s1) as [s2 rest]. cbn [fst] in *.
  congruence.
Qed.

(** X17.  [simulate()] starts a run exactly when none is in progress and
    there is at least one waypoint.  When it does not, it writes nothing.
    When it does, it sets the running flag and begins on segment 0, in the
    [turn] phase, at the start position, with the start heading in degrees
    (negated, as the program counts), its first frame requested. *)
Theorem simulate_start (s : state) :
  match simulate s with
  | (s', None) => s' = s /\ (isSimulating s = true \/ waypoints s = [])
  | (s', Some m) =>
      isSimulating s = false /\ waypoints s <> [] /\
      isSimulating s' = true /\
      seg m = 0%nat /\ sim_phase m = turn /\
      pos m = posePoint (start s) /\
      heading m = radToDeg (- h (start s)) /\
      distanceTraveled m = 0 /\
      scheduled m = true /\
      (fieldRun m = true <-> currentMode s = field)
  end.
Proof.
  unfold simulate.
  destruct (isSimulating s) eqn:Ei; [auto|].
  unfold pointsLength.
  destruct (waypoints s) as [|w l] eqn:Ew; [cbn; auto|].
  cbn [length Nat.ltb Nat.leb]. cbv zeta.
  set (s1 := set_isSimulating true s).
  destruct (currentMode s1) eqn:Em.
  - pose proof (simulated_robotPathPoints (S (length (waypoints s1)) - 1) 0 s1)
      as (_ & _ & _ & Es & _).
    pose proof (robotPathPoints_flag (S (length (waypoints s1)) - 1) 0 s1) as Ef.
    destruct (robotPathPoints (S (length (waypoints s1)) - 1) 0 s1) as [s2 path].
    cbn [fst] in Es, Ef. cbn [seg sim_phase pos heading distanceTraveled
                               scheduled fieldRun].
    rewrite Es. change (currentMode s1) with (currentMode s) in Em.
    rewrite Em.
    repeat split; try assumption; try discriminate.
  - change (currentMode s1) with (currentMode s) in Em. rewrite Em.
    cbn. repeat split; try discriminate; auto.
Qed.

(** X18.  The control point the simulator takes for an arc.  For the first
    segment it is always the default one: a control point stored in the
    first waypoint is not read (and nothing is written).  For a later
    segment whose waypoint is an arc with a control point, it is that
    point. *)
Theorem simulator_control_point (info : segment) (s : state) :
  controlPointOf 0 info s
  = (s, computeDefaultArcControl (posePoint (seg_a info)) (wpPoint (seg_b info))) /\
  (forall (i : nat) (wp : waypoint) (c : point),
     (1 <= i)%nat -> waypoints s !! i = Some wp ->
     isArc wp = true -> arcControlPoint wp = ctrlAt c ->
     controlPointOf i info s = (s, c)).
Proof.
  split; [reflexivity|].
  intros i wp c Hi Hw Ha Hc. unfold controlPointOf, getArcControlPoint.
  pose proof (lookup_lt_Some _ _ _ Hw) as Hlt.
  replace (i <? 1)%nat with false by (symmetry; apply Nat.ltb_ge; lia).
  replace (length (waypoints s) <=? i)%nat with false
    by (symmetry; apply Nat.leb_gt; lia).
  cbn [orb]. rewrite Hw, Ha, Hc. reflexivity.
Qed.

(** X19.  The progress fraction of a motion phase,
    [Math.min(1, driveProgress / info.len || 1)]: for a progress and a
    length that are not negative it lies in (0, 1]; it is the quotient
    while the progress is positive and short of the length; and it is 1,
    so that the phase completes at once, when the length is zero and also
    when the progress is zero. *)
Theorem fraction_range (progress length_ : Q) :
  0 <= progress -> 0 <= length_ ->
  0 < fraction progress length_ <= 1 /\
  (length_ == 0 -> fraction progress length_ == 1) /\
  (progress == 0 -> fraction progress length_ == 1) /\
  (0 < progress -> progress <= length_ ->
   fraction progress length_ == progress / length_).
Proof.
  intros Hp Hl. unfold fraction.
  destruct (Qeq_bool length_ 0) eqn:El.
  - apply Qeq_bool_eq in El.
    split; [split; [reflexivity | apply Qle_refl]|].
    split; [reflexivity|]. split; [reflexivity|].
    intros H0 Hle. rewrite El in Hle. exfalso.
    apply (Qlt_not_le _ _ H0 Hle).
  - apply Qeq_bool_neq in El.
    assert (Hlpos : 0 < length_).
    { apply Qle_lteq in Hl as [Hl|Hl]; [exact Hl|]. exfalso. apply El.
      symmetry. exact Hl. }
    assert (Hq : 0 <= progress / length_).
    { apply Qle_shift_div_l; [exact Hlpos|]. rewrite Qmult_0_l. exact Hp. }
    unfold Math_min.
    destruct (Qeq_bool (progress / length_) 0) eqn:Eq.
    + apply Qeq_bool_eq in Eq. cbn.
      split; [split; [reflexivity | apply Qle_refl]|].
      split; [intros E; contradiction|]. split; [reflexivity|].
      intros H0 _. exfalso.
      assert (Hpz : progress == 0).
      { rewrite <- (Qmult_div_r progress length_) by exact El.
        rewrite Eq. ring. }
      rewrite Hpz in H0. apply (Qlt_irrefl _ H0).
    + apply Qeq_bool_neq in Eq.
      assert (Hqpos : 0 < progress / length_).
      { apply Qle_lteq in Hq as [Hq|Hq]; [exact Hq|]. exfalso. apply Eq.
        symmetry. exact Hq. }
      destruct (Qle_bool 1 (progress / length_)) eqn:E1.
      * apply Qle_bool_iff in E1.
        split; [split; [reflexivity | apply Qle_refl]|].
        split; [intros E; contradiction|]. split.
        -- intros Hpz. exfalso. apply Eq. rewrite Hpz. unfold Qdiv. ring.
        -- intros H0 Hle.
           assert (Hle1 : progress / length_ <= 1).
           { apply Qle_shift_div_r; [exact Hlpos|]. rewrite Qmult_1_l. exact Hle. }
           apply Qle_antisym; assumption.
      * apply Qle_bool_false in E1.
        split; [split; [exact Hqpos | apply Qlt_le_weak, E1]|].
        split; [intros E; contradiction|]. split.
        -- intros Hpz. exfalso. apply Eq. rewrite Hpz. unfold Qdiv. ring.
        -- intros _ _. reflexivity.
Qed.


Lemma sim_unscheduled (m : sim) :
  scheduled m = false -> sim_set_scheduled false m = m.
Proof. intros E. destruct m. cbn in *. subst. reflexivity. Qed.

Lemma frames_unscheduled (n : nat) (s : state) (m : sim) :
  scheduled m = false -> frames n (s, m) = (s, m).
Proof.
  intros E. induction n as [|n IH]; [reflexivity|].
  cbn [frames]. unfold frame at 1. cbn [snd]. rewrite E. exact IH.
Qed.

(** X21.  Once the running flag is off, a run is over: the next frame
    writes nothing to the model and requests no further frame, and every
    frame after it does nothing at all, in robot and in field runs. *)
Theorem stopped_run_stays (n : nat) (s : state) (m : sim) :
  isSimulating s = false ->
  frames (S n) (s, m) = (s, sim_set_scheduled false m).
Proof.
  intros Ei.
  assert (Ef : frame (s, m) = (s, sim_set_scheduled false m)).
  { unfold frame. cbn [snd]. destruct (scheduled m) eqn:Es.
    - destruct (fieldRun m); unfold stepField, step; rewrite Ei; reflexivity.
    - rewrite sim_unscheduled by exact Es. reflexivity. }
  cbn [frames]. rewrite Ef. apply frames_unscheduled. reflexivity.
Qed.

End SimulatorRun.

Lemma fraction_range_witness : 0 < fraction (1 # 2) 2 <= 1.
Proof.
  assert (Hp : 0 <= (1 # 2)) by discriminate.
  assert (Hl : 0 <= 2) by discriminate.
  exact (proj1 (fraction_range (1 # 2) 2 Hp Hl)).
Defined.


Lemma stopped_run_stays_witness :
  @frames refHost 3 (initialState, snd Sample.arriving)
  = (initialState, sim_set_scheduled false (snd Sample.arriving)).
Proof.
  exact (@stopped_run_stays refHost 2 initialState (snd Sample.arriving) eq_refl).
Defined.

Lemma simulator_control_point_witness :
  @controlPointOf refHost 1
    {| len := 1; ang := 90; seg_a := Pose 1 0 0; seg_b := Sample.arcWaypoint;
       seg_type := arc |}
    (set_waypoints (fun _ => [motionWaypoint 1 0 0 drive (8 # 10);
                              Sample.arcWaypoint]) initialState)
  = (set_waypoints (fun _ => [motionWaypoint 1 0 0 drive (8 # 10);
                              Sample.arcWaypoint]) initialState,
     Point (7 # 10) (1 # 2)).
Proof.
  apply (proj2 (@simulator_control_point refHost _ _) 1%nat Sample.arcWaypoint).
  - lia.
  - reflexivity.
  - reflexivity.
  - reflexivity.
Defined.

(** ** Switching the mode; the planned path of a field run *)

Section ModeAndPath.
Context `{Host}.

(** X25.  [setMode] sets the mode and redraws.  It takes no snapshot and
    leaves markers, start and selection alone; to the waypoints it does
    nothing but cache the default control point of an arc that had none
    (so nothing at all when the new mode is the field mode), and it leaves
    a drawn model: in robot mode every arc has its control point. *)
Theorem setMode_effect (m : mode) (s : state) :
  let d := setMode m s in
  currentMode d = m /\
  history d = history s /\ markers d = markers s /\ start d = start s /\
  selectedSegmentIdx d = selectedSegmentIdx s /\
  nextMarkerId d = nextMarkerId s /\
  cachedPath (posePoint (start s)) (waypoints s) (waypoints d) /\
  (m = field -> waypoints d = waypoints s) /\
  drawn d.
Proof.
  intros d. unfold d, setMode. rewrite generateCode_eq.
  cbn [currentMode history markers start selectedSegmentIdx nextMarkerId
       waypoints set_output draw set_waypoints set_currentMode].
  repeat (split; [reflexivity|]).
  split; [apply cachedPath_draw|].
  split; [intros ->; apply drawWaypoints_field|].
  unfold drawn.
  cbn [currentMode waypoints set_output draw set_waypoints set_currentMode].
  apply drawWaypoints_drawn.
Qed.

Lemma refinePath_cons (a : point) (rest : list point) :
  exists inserted, refinePath (a :: rest) = a :: inserted ++ refinePath rest.
Proof. cbn [refinePath]. eexists. reflexivity. Qed.

(** X26.  The refinement of the planned path of a field run only inserts
    points: the points of the smoothed path are all kept, in order, the
    first one stays first, and a path whose gaps are all at most 0.5 is
    returned as it is. *)
Theorem refinePath_inserts (l : list point) :
  l `sublist_of` refinePath l /\
  head (refinePath l) = head l /\
  (Forall (fun ab : point * point =>
             Qgtb (Math_hypot (px (snd ab) - px (fst ab))
                              (py (snd ab) - py (fst ab))) (1 # 2) = false)
          (zip l (tail l)) ->
   refinePath l = l).
Proof.
  split; [|split].
  - induction l as [|a rest IH]; [constructor|].
    destruct (refinePath_cons a rest) as (ins & ->).
    apply sublist_skip. apply sublist_inserts_l. exact IH.
  - destruct l as [|a rest]; [reflexivity|].
    destruct (refinePath_cons a rest) as (ins & ->). reflexivity.
  - induction l as [|a rest IH]; [reflexivity|].
    intros Hg. cbn [refinePath]. destruct rest as [|b rest'].
    + reflexivity.
    + cbn [tail zip zip_with] in Hg. inversion Hg as [|? ? Hab Hrest]; subst.
      cbn [fst snd] in Hab. rewrite Hab. cbn [app]. f_equal.
      apply IH. exact Hrest.
Qed.



End ModeAndPath.

Lemma setMode_effect_witness :
  waypoints (@setMode refHost field initialState) = waypoints initialState.
Proof.
  pose proof (@setMode_effect refHost field initialState) as P.
  cbv zeta in P.
  destruct P as (_ & _ & _ & _ & _ & _ & _ & P & _).
  exact (P eq_refl).
Defined.

Lemma refinePath_inserts_witness :
  @refinePath refHost [Point 0 0; Point (1 # 4) 0] = [Point 0 0; Point (1 # 4) 0].
Proof.
  apply (proj2 (proj2 (@refinePath_inserts refHost [Point 0 0; Point (1 # 4) 0]))).
  constructor; [vm_compute; reflexivity | constructor].
Defined.
